(** * Auto-dubbing backend: job pipeline and audio-timeline assembly

    A shallow embedding of the Python backend (FastAPI router
    [routers/dubbing.py], [services/video.py], [services/tts.py],
    [services/transcription.py], [config.py], [models/schemas.py]) and the
    properties of its specification.

    Modelling conventions.
    - Python [float] values (seconds, rate ratios) are exact rationals [Q];
      [int(x)] is truncation toward zero, [//] and [%] are floor division and
      its remainder.  On the dyadic inputs used in the examples binary64
      arithmetic is exact, so the examples agree with the interpreter digit
      for digit.
    - Python exceptions are the [Raise] results of the [result] monad.
    - Python [dict]s with string keys are [gmap string _]; numpy arrays of
      samples are lists, with numpy's slice clamping and broadcasting rules
      written out.
    - The file system is a finite map from paths to files; the wall clock
      and the uuid generator are explicit arguments. *)

From Stdlib Require Import ZArith QArith Qround Lia Lqa String Ascii.
From stdpp Require Import gmap strings list fin_maps relations.

Local Open Scope string_scope.
Local Open Scope list_scope.
Local Open Scope Z_scope.

(* ===================================================================== *)
(** ** Exceptions *)
(* ===================================================================== *)

Inductive exn : Type :=
  | ValueError          (* numpy shape mismatch, negative dimension *)
  | IndexError          (* index out of bounds *)
  | ZeroDivisionError
  | KeyError
  | SoundFileError      (* soundfile cannot decode the file *)
  | TypeError
  | OSError
  | FFmpegError         (* media toolkit missing or failing *)
  | ModelError          (* the speech-to-text model fails to load or run *)
  | SynthesisError      (* the TTS engine raised *)
  | HTTPException (status_code : Z).

Inductive result (A : Type) : Type :=
  | Ok (a : A)
  | Raise (e : exn).
Arguments Ok {A} a.
Arguments Raise {A} e.

#[global] Instance result_ret : MRet result := λ A a, Ok a.
#[global] Instance result_bind : MBind result := λ A B f r,
  match r with
  | Ok a => f a
  | Raise e => Raise e
  end.

Definition is_Ok {A} (r : result A) : bool :=
  match r with Ok _ => true | Raise _ => false end.

(** [for x in xs: acc = body(acc, x)], stopping at the first exception. *)
Fixpoint for_each {M : Type → Type} `{!MBind M, !MRet M} {A S : Type}
    (body : S → A → M S) (xs : list A) (acc : S) : M S :=
  match xs with
  | [] => mret acc
  | x :: xs' => acc' ← body acc x; for_each body xs' acc'
  end.

(* ===================================================================== *)
(** ** Numbers *)
(* ===================================================================== *)

(** Python's [int(x)] on a float: truncation toward zero. *)
Definition py_int (x : Q) : Z := Z.quot (Qnum x) (Z.pos (Qden x)).

(** Python's [x // y] and [x % y] on floats (for [y > 0]). *)
Definition py_floordiv (x y : Q) : Q := inject_Z (Qfloor (x / y)).
Definition py_mod (x y : Q) : Q := (x - y * inject_Z (Qfloor (x / y)))%Q.



(* ===================================================================== *)
(** ** numpy one-dimensional arrays *)
(* ===================================================================== *)

(** A PCM sample.  The clips are 16-bit PCM WAV files; a sample is its
    integer code (the float value is the code divided by 32768). *)
Definition sample : Type := Z.

Definition len {A} (l : list A) : Z := Z.of_nat (length l).

(** Normalisation of a slice bound [i] for a sequence of length [n]
    (Python's [slice.indices] for step 1): negative bounds count from the
    end, and everything is clamped into [0..n]. *)
Definition slice_index (n i : Z) : Z :=
  if i <? 0 then Z.max (i + n) 0 else Z.min i n.

(** [l[lo:hi]] *)
Definition py_slice {A} (l : list A) (lo hi : Z) : list A :=
  let lo' := slice_index (len l) lo in
  let hi' := slice_index (len l) hi in
  take (Z.to_nat (hi' - lo')) (drop (Z.to_nat lo') l).

(** [l[:k]] *)
Definition py_prefix {A} (l : list A) (k : Z) : list A := py_slice l 0 k.

(** [out[lo:hi] = src] for one-dimensional numpy arrays.  The destination
    has [max (hi' - lo') 0] cells; the source must have as many, or exactly
    one (which is broadcast to every cell); otherwise numpy raises
    [ValueError: could not broadcast input array]. *)
Definition set_slice (out : list sample) (lo hi : Z) (src : list sample)
  : result (list sample) :=
  let lo' := Z.to_nat (slice_index (len out) lo) in
  let d := Z.to_nat (slice_index (len out) hi - slice_index (len out) lo) in
  if decide (length src = d) then
    Ok (take lo' out ++ src ++ drop (lo' + d) out)
  else
    match src with
    | [v] => Ok (take lo' out ++ replicate d v ++ drop (lo' + d) out)
    | _ => Raise ValueError
    end.

(** [l[k]] for an integer [k]: negative indices count from the end. *)
Definition py_getitem {A} (l : list A) (k : Z) : result A :=
  let k' := if k <? 0 then k + len l else k in
  if k' <? 0 then Raise IndexError
  else match l !! Z.to_nat k' with
       | Some v => Ok v
       | None => Raise IndexError
       end.

(** [l[indices]] for an integer index array. *)
Fixpoint np_take {A} (l : list A) (indices : list Z) : result (list A) :=
  match indices with
  | [] => Ok []
  | k :: ks => v ← py_getitem l k; vs ← np_take l ks; Ok (v :: vs)
  end.

(** The value at position [i] of [np.linspace(start, stop, num)], with
    numpy's [endpoint=True]: the step is [(stop - start) / (num - 1)], the
    last value is set to [stop] itself, and for [num = 1] the only value is
    [start]. *)
Definition linspace_at (start stop : Q) (num : Z) (i : Z) : Q :=
  let div := num - 1 in
  let delta := (stop - start)%Q in
  let step := (delta / inject_Z div)%Q in
  if (1 <? num) && (i =? num - 1) then stop
  else if 0 <? div then (inject_Z i * step + start)%Q
  else (inject_Z i * delta + start)%Q.

(** [np.linspace(start, stop, num)] for [num >= 0]. *)
Definition np_linspace (start stop : Q) (num : Z) : list Q :=
  linspace_at start stop num <$> seqZ 0 num.

(* ===================================================================== *)
(** ** Files *)
(* ===================================================================== *)

Inductive file : Type :=
  | FDir
  | FBytes (content : list Byte.byte)
  | FText (content : string)
  | FAudio (data : list sample) (sr : Z).

(** [sf.read(path)] on an existing path. *)
Definition sf_read (f : file) : result (list sample * Z) :=
  match f with
  | FAudio data sr => Ok (data, sr)
  | _ => Raise SoundFileError
  end.

(* ===================================================================== *)
(** ** services/video.py: the timeline assembler *)
(* ===================================================================== *)

(** An entry of the synthesis driver's result list:
    [{"id", "start", "end", "audio_path", "text"}]. *)
Record SynthSegment : Type := {
  ss_id : Z;
  ss_start : Q;
  ss_end : Q;
  ss_audio_path : option string;
  ss_text : string
}.

(** Lines 209-214: nearest-lower-index resampling of a clip read at rate
    [sr] to the output rate [sample_rate]. *)
Definition resample (segment_audio : list sample) (sr sample_rate : Z)
  : result (list sample) :=
  if sr =? 0 then Raise ZeroDivisionError else
  let ratio := (inject_Z sample_rate / inject_Z sr)%Q in
  let new_length := py_int (inject_Z (len segment_audio) * ratio)%Q in
  if new_length <? 0 then Raise ValueError else
  let indices :=
    py_int <$> np_linspace 0 (inject_Z (len segment_audio - 1)) new_length in
  np_take segment_audio indices.

(** Line 217. *)
Definition start_sample_of (start_time : Q) (sample_rate : Z) : Z :=
  py_int (start_time * inject_Z sample_rate)%Q.

(** Lines 199-214: the clip a segment contributes, brought to the output
    rate; [None] when the segment is skipped (no path, or no file there). *)
Definition load_clip (fs : gmap string file) (sample_rate : Z) (seg : SynthSegment)
  : result (option (list sample)) :=
  match ss_audio_path seg with
  | None => Ok None
  | Some audio_path =>
    if decide (audio_path = "") then Ok None else
    match fs !! audio_path with
    | None => Ok None
    | Some f =>
      '(segment_audio, sr) ← sf_read f;
      if sr =? sample_rate then Ok (Some segment_audio)
      else segment_audio ← resample segment_audio sr sample_rate;
           Ok (Some segment_audio)
    end
  end.

(** Lines 216-222: the clip is written at its start position, cut at the
    end of the buffer. *)
Definition write_clip (sample_rate total_samples : Z) (output_audio : list sample)
    (start_time : Q) (segment_audio : list sample) : result (list sample) :=
  let start_sample := start_sample_of start_time sample_rate in
  let end_sample := Z.min (start_sample + len segment_audio) total_samples in
  let segment_length := end_sample - start_sample in
  set_slice output_audio start_sample end_sample
            (py_prefix segment_audio segment_length).

(** Lines 198-222: the body of the loop over the segments. *)
Definition place_segment (fs : gmap string file) (sample_rate total_samples : Z)
    (output_audio : list sample) (seg : SynthSegment) : result (list sample) :=
  clip ← load_clip fs sample_rate seg;
  match clip with
  | None => Ok output_audio
  | Some segment_audio =>
    write_clip sample_rate total_samples output_audio (ss_start seg) segment_audio
  end.

(** Line 195. *)
Definition total_samples_of (total_duration : Q) (sample_rate : Z) : Z :=
  py_int (total_duration * inject_Z sample_rate)%Q.

(** Lines 194-222.  The result is the buffer [output_audio] that the
    function then writes to [output_path]; [np.zeros] raises on a negative
    length. *)
Definition concatenate_audio_with_timing (fs : gmap string file)
    (segments : list SynthSegment) (total_duration : Q) (sample_rate : Z)
  : result (list sample) :=
  let total_samples := total_samples_of total_duration sample_rate in
  if total_samples <? 0 then Raise ValueError else
  for_each (place_segment fs sample_rate total_samples) segments
           (replicate (Z.to_nat total_samples) 0).

(* ===================================================================== *)
(** ** Strings: the fragments of [str], f-strings and [pathlib] in use *)
(* ===================================================================== *)

Definition nl : string := String "010"%char "".

(** ["sep".join(parts)] *)
Fixpoint join (sep : string) (parts : list string) : string :=
  match parts with
  | [] => ""
  | [p] => p
  | p :: ps => p +:+ sep +:+ join sep ps
  end.

Definition digit_char (d : Z) : ascii := ascii_of_nat (48 + Z.to_nat d).

Fixpoint dec_digits (fuel : nat) (n : Z) (acc : string) : string :=
  match fuel with
  | O => acc
  | S fuel' =>
    let acc' := String (digit_char (n `mod` 10)) acc in
    if n <? 10 then acc' else dec_digits fuel' (n `div` 10) acc'
  end.

(** [str(n)] for [n >= 0]. *)
Definition str_of_nat (n : Z) : string :=
  dec_digits (S (Z.to_nat (Z.log2 n))) n "".

Fixpoint zeros (k : nat) : string :=
  match k with O => "" | S k' => String "0"%char (zeros k') end.

(** [f"{n:0{width}d}"]: sign-aware zero padding to at least [width]
    characters. *)
Definition format_0d (width : nat) (n : Z) : string :=
  if n <? 0 then
    let ds := str_of_nat (- n) in
    "-" +:+ zeros (width - 1 - String.length ds) +:+ ds
  else
    let ds := str_of_nat n in
    zeros (width - String.length ds) +:+ ds.

(** [str(n)] *)
Definition str_of_Z (n : Z) : string := format_0d 0 n.

(** Python's [str.isspace] on an ASCII character. *)
Definition is_space (c : ascii) : bool :=
  let n := nat_of_ascii c in
  ((9 <=? n) && (n <=? 13) || (28 <=? n) && (n <=? 32))%nat.

Fixpoint lstrip (s : string) : string :=
  match s with
  | String c s' => if is_space c then lstrip s' else s
  | EmptyString => s
  end.

Fixpoint rstrip (s : string) : string :=
  match s with
  | String c s' =>
    match rstrip s' with
    | EmptyString => if is_space c then "" else String c ""
    | r => String c r
    end
  | EmptyString => ""
  end.

(** [s.strip()] *)
Definition strip (s : string) : string := rstrip (lstrip s).

Definition lower_char (c : ascii) : ascii :=
  let n := nat_of_ascii c in
  if ((65 <=? n) && (n <=? 90))%nat then ascii_of_nat (n + 32) else c.

(** [s.lower()] on ASCII. *)
Fixpoint lower (s : string) : string :=
  match s with
  | String c s' => String (lower_char c) (lower s')
  | EmptyString => ""
  end.

(** [s.rfind(c)], [None] standing for [-1]. *)
Fixpoint rfind (c : ascii) (s : string) : option nat :=
  match s with
  | EmptyString => None
  | String c' s' =>
    match rfind c s' with
    | Some i => Some (S i)
    | None => if decide (c' = c) then Some O else None
    end
  end.

Definition str_drop (n : nat) (s : string) : string :=
  String.substring n (String.length s - n) s.
Definition str_take (n : nat) (s : string) : string := String.substring 0 n s.

(** [Path(p).name]: the final component. *)
Definition path_name (p : string) : string :=
  match rfind "/"%char p with
  | Some i => str_drop (S i) p
  | None => p
  end.

(** [Path(p).parent] for a path with at least one separator. *)
Definition path_parent (p : string) : string :=
  match rfind "/"%char p with
  | Some i => str_take i p
  | None => "."
  end.

(** [Path(p).suffix]: from the last dot of the name, unless the dot is the
    first or the last character of the name. *)
Definition path_suffix (p : string) : string :=
  let name := path_name p in
  match rfind "."%char name with
  | Some i =>
    if ((0 <? i) && (i <? String.length name - 1))%nat then str_drop i name else ""
  | None => ""
  end.

(** [Path(p).stem] *)
Definition path_stem (p : string) : string :=
  let name := path_name p in
  str_take (String.length name - String.length (path_suffix p)) name.

(** [dir / name] *)
Definition path_join (dir name : string) : string := dir +:+ "/" +:+ name.

(* ===================================================================== *)
(** ** services/transcription.py: subtitle rendering *)
(* ===================================================================== *)

(** [{"id", "start", "end", "text"}] *)
Record TranscriptSegment : Type := {
  ts_id : Z;
  ts_start : Q;
  ts_end : Q;
  ts_text : string
}.

(** Lines 192-198. *)
Definition seconds_to_srt_time (seconds : Q) : string :=
  let hours := py_int (py_floordiv seconds 3600) in
  let minutes := py_int (py_floordiv (py_mod seconds 3600) 60) in
  let secs := py_int (py_mod seconds 60) in
  let millis := py_int (py_mod seconds 1 * 1000)%Q in
  format_0d 2 hours +:+ ":" +:+ format_0d 2 minutes +:+ ":" +:+ format_0d 2 secs
    +:+ "," +:+ format_0d 3 millis.

(** The four lines appended for the segment numbered [i] (lines 181-188). *)
Definition srt_block (i : Z) (seg : TranscriptSegment) : list string :=
  let start := seconds_to_srt_time (ts_start seg) in
  let end_ := seconds_to_srt_time (ts_end seg) in
  [str_of_Z i; start +:+ " --> " +:+ end_; ts_text seg; ""].

Fixpoint srt_lines (i : Z) (segments : list TranscriptSegment) : list string :=
  match segments with
  | [] => []
  | seg :: segs => srt_block i seg ++ srt_lines (i + 1) segs
  end.

(** Lines 169-190: [enumerate(segments, 1)], then ["\n".join(srt_lines)]. *)
Definition segments_to_srt (segments : list TranscriptSegment) : string :=
  join nl (srt_lines 1 segments).

(* ===================================================================== *)
(** ** config.py and models/schemas.py *)
(* ===================================================================== *)

Definition UPLOADS_DIR : string := "storage/uploads".
Definition OUTPUTS_DIR : string := "storage/outputs".
Definition MAX_UPLOAD_SIZE : Z := 500 * 1024 * 1024.
Definition ALLOWED_VIDEO_EXTENSIONS : list string :=
  [".mp4"; ".mkv"; ".avi"; ".mov"; ".webm"].

Inductive JobStatus : Type :=
  | PENDING | UPLOADING | TRANSCRIBING | TRANSCRIBED | GENERATING_VOICE
  | VOICE_GENERATED | MERGING | COMPLETED | FAILED.

#[global] Instance JobStatus_eq_dec : EqDecision JobStatus.
Proof. solve_decision. Defined.

(** The transcript dictionary [{"language", "full_text", "segments", "srt"}]. *)
Record Transcript : Type := {
  tr_language : string;
  tr_full_text : string;
  tr_segments : list TranscriptSegment;
  tr_srt : string
}.

Record GenerateVoiceRequest : Type := {
  language_code : string;
  voice : string;
  speed : Q
}.

Record UploadResponse : Type := {
  up_job_id : string;
  up_filename : string;
  up_size_bytes : Z;
  up_message : string
}.

(** The bodies [{"message": ..., "job_id": ...}] of the stage endpoints. *)
Record StageResponse : Type := {
  sr_message : string;
  sr_job_id : string
}.

(* ===================================================================== *)
(** ** routers/dubbing.py: the job store *)
(* ===================================================================== *)

(** The values a job dictionary holds. *)
Inductive value : Type :=
  | VNone
  | VStr (s : string)
  | VInt (n : Z)
  | VStatus (s : JobStatus)
  | VTime (t : Z)
  | VTranscript (t : Transcript)
  | VSettings (lang_code voice : string) (speed : Q).

(** Work handed to [BackgroundTasks.add_task]. *)
Inductive task : Type :=
  | RunTranscription (job_id video_path : string) (language : option string)
  | RunVoiceGeneration (job_id : string) (segments : list TranscriptSegment)
                       (lang_code voice : string) (speed : Q)
  | RunVideoMerge (job_id : string).

(** The process state: the module-level [jobs] dictionary, the file system
    and the queue of background tasks. *)
Record world : Type := World {
  w_jobs : gmap string (gmap string value);
  w_fs : gmap string file;
  w_tasks : list task
}.

Definition set_jobs (jobs : gmap string (gmap string value)) (w : world) : world :=
  World jobs (w_fs w) (w_tasks w).
Definition set_fs (fs : gmap string file) (w : world) : world :=
  World (w_jobs w) fs (w_tasks w).

Definition init_world : world := World ∅ ∅ [].

(** Code that reads and writes the process state and may raise: the state
    reached when an exception propagates is kept. *)
Definition io (A : Type) : Type := world → result A * world.

#[global] Instance io_ret : MRet io := λ A a w, (Ok a, w).
#[global] Instance io_bind : MBind io := λ A B f m w,
  match m w with
  | (Ok a, w') => f a w'
  | (Raise e, w') => (Raise e, w')
  end.

Definition raise {A} (e : exn) : io A := λ w, (Raise e, w).
Definition lift {A} (r : result A) : io A := λ w, (r, w).

(** [try: body except Exception as e: handler(e)] *)
Definition try_except {A} (body : io A) (handler : exn → io A) : io A := λ w,
  match body w with
  | (Ok a, w') => (Ok a, w')
  | (Raise e, w') => handler e w'
  end.

(** [d[key]] *)
Definition getitem (d : gmap string value) (key : string) : io value :=
  match d !! key with
  | Some v => mret v
  | None => raise KeyError
  end.

Definition as_str (v : value) : io string :=
  match v with VStr s => mret s | _ => raise TypeError end.

(** Lines 32-36. *)
Definition get_job (job_id : string) : io (gmap string value) := λ w,
  match w_jobs w !! job_id with
  | Some job => (Ok job, w)
  | None => (Raise (HTTPException 404), w)
  end.

(** Lines 39-43.  [kwargs] are the keyword arguments; [dict.update] lets
    them win over the fields already present.  [now] is the reading of
    [datetime.utcnow()]. *)
Definition update_job (job_id : string) (kwargs : gmap string value) (now : Z)
  : io unit := λ w,
  match w_jobs w !! job_id with
  | Some job =>
    (Ok (), set_jobs (<[job_id := <["updated_at" := VTime now]> (kwargs ∪ job)]>
                        (w_jobs w)) w)
  | None => (Ok (), w)
  end.

(** [jobs[job_id] = job] *)
Definition store_job (job_id : string) (job : gmap string value) : io unit := λ w,
  (Ok (), set_jobs (<[job_id := job]> (w_jobs w)) w).

(** [jobs[job_id]] *)
Definition lookup_job (job_id : string) : io (gmap string value) := λ w,
  match w_jobs w !! job_id with
  | Some job => (Ok job, w)
  | None => (Raise KeyError, w)
  end.

(** [background_tasks.add_task(...)] *)
Definition add_task (t : task) : io unit := λ w,
  (Ok (), World (w_jobs w) (w_fs w) (w_tasks w ++ [t])).

(** [path.mkdir(parents=True, exist_ok=True)] *)
Definition mkdir (path : string) : io unit := λ w,
  match w_fs w !! path with
  | None => (Ok (), set_fs (<[path := FDir]> (w_fs w)) w)
  | Some FDir => (Ok (), w)
  | Some _ => (Raise OSError, w)
  end.

(** Writing a whole file, replacing what was there. *)
Definition write_file (path : string) (f : file) : io unit := λ w,
  (Ok (), set_fs (<[path := f]> (w_fs w)) w).

Definition path_exists (path : string) : io bool := λ w,
  (Ok (bool_decide (is_Some (w_fs w !! path))), w).

(** Reading a file through a collaborator that fails with [e] when the file
    is not there. *)
Definition with_file {A} (path : string) (e : exn) (k : file → result A) : io A :=
  λ w, match w_fs w !! path with
       | Some f => (k f, w)
       | None => (Raise e, w)
       end.

(** A computation on the current content of the file system. *)
Definition reading {A} (k : gmap string file → result A) : io A :=
  λ w, (k (w_fs w), w).

Definition exn_str (e : exn) : string :=
  match e with
  | ValueError => "ValueError"
  | IndexError => "IndexError"
  | ZeroDivisionError => "ZeroDivisionError"
  | KeyError => "KeyError"
  | SoundFileError => "SoundFileError"
  | TypeError => "TypeError"
  | OSError => "OSError"
  | FFmpegError => "FFmpegError"
  | ModelError => "ModelError"
  | SynthesisError => "SynthesisError"
  | HTTPException c => "HTTPException " +:+ str_of_Z c
  end.

(** The external collaborators: the media toolkit, the speech-to-text
    engine and the text-to-speech engine, as functions of what they read. *)
Record collaborators : Type := {
  ffmpeg_available : bool;
  ffmpeg_extract_audio : file → result (list sample * Z);
  ffmpeg_probe_duration : file → result Q;
  ffmpeg_replace_audio : file → file → result file;
  whisper_transcribe :
    file → option string → result (list (Q * Q * string) * option string);
  kokoro_create :
    string → string → Q → string → result (list sample * Z)
}.

(** [enumerate(l, start)] *)
Fixpoint enumerate {A} (start : Z) (l : list A) : list (Z * A) :=
  match l with
  | [] => []
  | x :: l' => (start, x) :: enumerate (start + 1) l'
  end.

(* ===================================================================== *)
(** ** services/video.py: the media toolkit wrappers *)
(* ===================================================================== *)

(** [VideoService()]: the constructor checks that FFmpeg is installed. *)
Definition new_VideoService (C : collaborators) : io unit :=
  if ffmpeg_available C then mret () else raise FFmpegError.

(** [extract_audio(video_path, output_path)] *)
Definition extract_audio (C : collaborators) (video_path output_path : string)
  : io string :=
  _ ← mkdir (path_parent output_path);
  '(data, sr) ← with_file video_path FFmpegError (ffmpeg_extract_audio C);
  _ ← write_file output_path (FAudio data sr);
  mret output_path.

(** [get_video_info(video_path)["duration"]] *)
Definition get_video_duration (C : collaborators) (video_path : string) : io Q :=
  with_file video_path FFmpegError (ffmpeg_probe_duration C).

(** [replace_audio(video_path, audio_path, output_path)] *)
Definition replace_audio (C : collaborators) (video_path audio_path output_path : string)
  : io string :=
  _ ← mkdir (path_parent output_path);
  out ← reading (λ fs, match fs !! video_path, fs !! audio_path with
                        | Some v, Some a => ffmpeg_replace_audio C v a
                        | _, _ => Raise FFmpegError
                        end);
  _ ← write_file output_path out;
  mret output_path.

(** [concatenate_audio_with_timing(segments, total_duration, output_path)]
    as the router calls it: lines 191-192 and 225-228 around the assembly
    of the buffer. *)
Definition write_concatenated_audio (segments : list SynthSegment)
    (total_duration : Q) (output_path : string) (sample_rate : Z) : io string :=
  _ ← mkdir (path_parent output_path);
  output_audio ← reading (λ fs, concatenate_audio_with_timing fs segments
                                  total_duration sample_rate);
  _ ← write_file output_path (FAudio output_audio sample_rate);
  mret output_path.

(* ===================================================================== *)
(** ** services/tts.py: the segment synthesis driver *)
(* ===================================================================== *)

(** [TTSService.LANG_MAP.get(lang_code, "en-us")] *)
Definition LANG_MAP (lang_code : string) : string :=
  if decide (lang_code = "a") then "en-us"
  else if decide (lang_code = "b") then "en-gb"
  else if decide (lang_code = "j") then "ja"
  else if decide (lang_code = "z") then "zh"
  else if decide (lang_code = "f") then "fr-fr"
  else "en-us".

(** [TTSService.generate] *)
Definition generate (C : collaborators) (lang text voice : string) (speed : Q)
  : result (list sample * Z) :=
  '(audio, sample_rate) ← kokoro_create C text voice speed lang;
  if len audio =? 0 then Raise ValueError else Ok (audio, sample_rate).

(** [TTSService.generate_to_file] *)
Definition generate_to_file (C : collaborators) (lang text output_path voice : string)
    (speed : Q) : io string :=
  '(audio, sample_rate) ← lift (generate C lang text voice speed);
  _ ← mkdir (path_parent output_path);
  _ ← write_file output_path (FAudio audio sample_rate);
  mret output_path.

Definition segment_file (dir : string) (i : Z) : string :=
  path_join dir ("segment_" +:+ format_0d 4 i +:+ ".wav").

Definition synth_entry (seg : TranscriptSegment) (output_path text : string)
  : SynthSegment :=
  {| ss_id := ts_id seg; ss_start := ts_start seg; ss_end := ts_end seg;
     ss_audio_path := Some output_path; ss_text := text |}.

(** The [try ... except Exception] around one synthesis: on success the
    entry is appended, on failure the list is left as it is. *)
Definition synthesize_one (C : collaborators) (lang dir voice : string) (speed : Q)
    (results : list SynthSegment) (i : Z) (seg : TranscriptSegment) (text : string)
  : io (list SynthSegment) :=
  let output_path := segment_file dir i in
  try_except
    (_ ← generate_to_file C lang text output_path voice speed;
     mret (results ++ [synth_entry seg output_path text]))
    (λ _, mret results).

(** [TTSService.generate_segments], lines 132-175. *)
Definition generate_segments (C : collaborators) (lang : string)
    (segments : list TranscriptSegment) (output_dir voice : string) (speed : Q)
  : io (list SynthSegment) :=
  _ ← mkdir output_dir;
  for_each
    (λ results '(i, seg),
       let text := strip (ts_text seg) in
       if decide (text = "") then mret results
       else synthesize_one C lang output_dir voice speed results i seg text)
    (enumerate 0 segments) [].

(* ===================================================================== *)
(** ** services/transcription.py: transcription *)
(* ===================================================================== *)

Fixpoint format_segments (i : Z) (raw : list (Q * Q * string))
  : list TranscriptSegment :=
  match raw with
  | [] => []
  | (s, e, t) :: raw' =>
    {| ts_id := i; ts_start := s; ts_end := e; ts_text := strip t |}
      :: format_segments (i + 1) raw'
  end.

(** [TranscriptionService.transcribe]: text, segments, language. *)
Definition transcribe (C : collaborators) (audio_path : string)
    (language : option string)
  : io (string * list TranscriptSegment * string) :=
  '(raw, info_language) ← with_file audio_path ModelError
                            (λ f, whisper_transcribe C f language);
  let segments := format_segments 0 raw in
  let detected_language :=
    match info_language with
    | Some l => if decide (l = "") then "en" else l
    | None => "en"
    end in
  mret (join " " (ts_text <$> segments), segments, detected_language).

(* ===================================================================== *)
(** ** routers/dubbing.py: endpoints and background tasks *)
(* ===================================================================== *)

(** The job dictionary created by [upload_video], lines 112-124. *)
Definition new_job (job_id filename file_path : string) (now : Z)
  : gmap string value :=
  {[ "job_id" := VStr job_id;
     "status" := VStatus PENDING;
     "progress" := VInt 0;
     "message" := VStr "Video uploaded successfully";
     "created_at" := VTime now;
     "updated_at" := VTime now;
     "video_filename" := VStr filename;
     "video_path" := VStr file_path;
     "transcript" := VNone;
     "output_url" := VNone;
     "error" := VNone ]}.

(** Lines 81-133.  [uuid4] is the value drawn by [uuid.uuid4()]. *)
Definition upload_video (filename : string) (content : list Byte.byte)
    (uuid4 : string) (now : Z) : io UploadResponse :=
  let ext := lower (path_suffix filename) in
  if negb (bool_decide (ext ∈ ALLOWED_VIDEO_EXTENSIONS)) then
    raise (HTTPException 400)
  else
    let job_id := uuid4 in
    let job_dir := path_join UPLOADS_DIR job_id in
    _ ← mkdir job_dir;
    let file_path := path_join job_dir ("original" +:+ ext) in
    if MAX_UPLOAD_SIZE <? len content then raise (HTTPException 400)
    else
      _ ← write_file file_path (FBytes content);
      _ ← store_job job_id (new_job job_id filename file_path now);
      mret {| up_job_id := job_id; up_filename := filename;
              up_size_bytes := len content;
              up_message := "Video uploaded successfully. Ready for transcription." |}.

(** [job["status"] in allowed] *)
Definition status_in (status : value) (allowed : list JobStatus) : bool :=
  match status with
  | VStatus s => bool_decide (s ∈ allowed)
  | _ => false
  end.

(** [job.get("transcript")], a missing key and [None] both being falsy. *)
Definition get_transcript (job : gmap string value) : option Transcript :=
  match job !! "transcript" with
  | Some (VTranscript t) => Some t
  | _ => None
  end.

(** The keyword arguments of the [update_job] calls, one definition per
    call site. *)
Definition kw_transcribing : gmap string value :=
  {[ "status" := VStatus TRANSCRIBING; "progress" := VInt 10;
     "message" := VStr "Starting transcription..." ]}.
Definition kw_extracting : gmap string value :=
  {[ "progress" := VInt 20; "message" := VStr "Extracting audio..." ]}.
Definition kw_transcribing_audio : gmap string value :=
  {[ "progress" := VInt 40; "message" := VStr "Transcribing audio..." ]}.
Definition kw_generating_srt : gmap string value :=
  {[ "progress" := VInt 80; "message" := VStr "Generating SRT..." ]}.
Definition kw_transcribed (transcript : Transcript) (audio_path : string)
  : gmap string value :=
  {[ "status" := VStatus TRANSCRIBED; "progress" := VInt 100;
     "message" := VStr "Transcription complete";
     "transcript" := VTranscript transcript; "audio_path" := VStr audio_path ]}.
Definition kw_failed (e : exn) (message : string) : gmap string value :=
  {[ "status" := VStatus FAILED; "error" := VStr (exn_str e);
     "message" := VStr message ]}.
Definition kw_transcript (transcript : Transcript) : gmap string value :=
  {[ "transcript" := VTranscript transcript ]}.
Definition kw_generating_voice : gmap string value :=
  {[ "status" := VStatus GENERATING_VOICE; "progress" := VInt 10;
     "message" := VStr "Starting voice generation..." ]}.
Definition kw_init_tts : gmap string value :=
  {[ "progress" := VInt 20; "message" := VStr "Initializing TTS..." ]}.

(** Line 358: [20 + int((i / total_segments) * 60)] *)
Definition segment_progress (i total_segments : Z) : Z :=
  20 + py_int ((inject_Z i / inject_Z total_segments) * 60)%Q.

Definition kw_segment (i total_segments : Z) : gmap string value :=
  {[ "progress" := VInt (segment_progress i total_segments);
     "message" := VStr ("Generating segment " +:+ str_of_Z (i + 1) +:+ "/"
                          +:+ str_of_Z total_segments +:+ "...") ]}.
Definition kw_concatenating : gmap string value :=
  {[ "progress" := VInt 85; "message" := VStr "Concatenating audio segments..." ]}.
Definition kw_voice_generated (voiceover_path lang_code voice : string) (speed : Q)
  : gmap string value :=
  {[ "status" := VStatus VOICE_GENERATED; "progress" := VInt 100;
     "message" := VStr "Voice generation complete";
     "voiceover_path" := VStr voiceover_path;
     "voice_settings" := VSettings lang_code voice speed ]}.
Definition kw_merging : gmap string value :=
  {[ "status" := VStatus MERGING; "progress" := VInt 10;
     "message" := VStr "Starting video merge..." ]}.
Definition kw_merging_audio : gmap string value :=
  {[ "progress" := VInt 30; "message" := VStr "Merging audio with video..." ]}.
Definition kw_completed (job_id output_path : string) : gmap string value :=
  {[ "status" := VStatus COMPLETED; "progress" := VInt 100;
     "message" := VStr "Dubbing complete!";
     "output_path" := VStr output_path;
     "output_url" := VStr ("/api/download/" +:+ job_id) ]}.

(** Lines 136-161. *)
Definition start_transcription (job_id : string) (language : option string)
    (now : Z) : io StageResponse :=
  job ← get_job job_id;
  status ← getitem job "status";
  if negb (status_in status [PENDING; TRANSCRIBED]) then raise (HTTPException 400)
  else
    _ ← update_job job_id kw_transcribing now;
    video_path ← getitem job "video_path" ≫= as_str;
    _ ← add_task (RunTranscription job_id video_path language);
    mret {| sr_message := "Transcription started"; sr_job_id := job_id |}.

(** Lines 164-254. *)
Definition run_transcription (C : collaborators) (job_id video_path : string)
    (language : option string) (now : Z) : io unit :=
  try_except
    (_ ← update_job job_id kw_extracting now;
     _ ← new_VideoService C;
     let audio_path := path_join (path_parent video_path) "audio.wav" in
     _ ← extract_audio C video_path audio_path;
     _ ← update_job job_id kw_transcribing_audio now;
     '(text, segments, detected) ← transcribe C audio_path language;
     _ ← update_job job_id kw_generating_srt now;
     let srt_content := segments_to_srt segments in
     let srt_path := path_join (path_parent video_path) "transcript.srt" in
     _ ← write_file srt_path (FText srt_content);
     let transcript :=
       {| tr_language := detected; tr_full_text := text;
          tr_segments := segments; tr_srt := srt_content |} in
     update_job job_id (kw_transcribed transcript audio_path) now)
    (λ e, update_job job_id (kw_failed e "Transcription failed") now).

(** Lines 277-296.  The handler edits the transcript dictionary of the
    stored job and passes that same dictionary to [update_job]. *)
Definition update_transcript (job_id : string) (segments : list TranscriptSegment)
    (now : Z) : io StageResponse :=
  job ← get_job job_id;
  match get_transcript job with
  | None => raise (HTTPException 400)
  | Some t =>
    let transcript :=
      {| tr_language := tr_language t;
         tr_full_text := join " " (ts_text <$> segments);
         tr_segments := segments;
         tr_srt := segments_to_srt segments |} in
    _ ← update_job job_id (kw_transcript transcript) now;
    mret {| sr_message := "Transcript updated"; sr_job_id := job_id |}
  end.

(** Lines 299-333. *)
Definition generate_voice (job_id : string) (request : GenerateVoiceRequest)
    (now : Z) : io StageResponse :=
  job ← get_job job_id;
  status ← getitem job "status";
  if negb (status_in status [TRANSCRIBED; VOICE_GENERATED]) then
    raise (HTTPException 400)
  else
    match get_transcript job with
    | None => raise (HTTPException 400)
    | Some t =>
      _ ← update_job job_id kw_generating_voice now;
      _ ← add_task (RunVoiceGeneration job_id (tr_segments t)
                      (language_code request) (voice request) (speed request));
      mret {| sr_message := "Voice generation started"; sr_job_id := job_id |}
    end.

(** Lines 357-378: the body of the loop over [enumerate(segments)]. *)
Definition voice_loop_body (C : collaborators) (job_id lang_code voice : string)
    (speed : Q) (segments_dir : string) (total_segments : Z) (now : Z)
    (generated_segments : list SynthSegment) (ix : Z * TranscriptSegment)
  : io (list SynthSegment) :=
  let '(i, seg) := ix in
  _ ← update_job job_id (kw_segment i total_segments) now;
  let text := strip (ts_text seg) in
  if decide (text = "") then mret generated_segments
  else
    _ ← mkdir segments_dir;
    synthesize_one C (LANG_MAP lang_code) segments_dir voice speed
                   generated_segments i seg text.

(** Lines 354-378: the loop over [enumerate(segments)]. *)
Definition voice_loop (C : collaborators) (job_id : string)
    (segments : list TranscriptSegment) (lang_code voice : string) (speed : Q)
    (segments_dir : string) (now : Z) : io (list SynthSegment) :=
  let total_segments := len segments in
  for_each (voice_loop_body C job_id lang_code voice speed segments_dir
                            total_segments now)
           (enumerate 0 segments) [].

(** Lines 380-393: the assembly of the generated segments into the
    voice-over track; the result is the path of the track. *)
Definition voice_assemble (C : collaborators) (job_id video_path job_dir : string)
    (generated_segments : list SynthSegment) (now : Z) : io string :=
  _ ← update_job job_id kw_concatenating now;
  _ ← new_VideoService C;
  duration ← get_video_duration C video_path;
  let output_audio := path_join job_dir "voiceover.wav" in
  write_concatenated_audio generated_segments duration output_audio 24000.

(** Lines 345-393: the stage up to and including the assembly. *)
Definition voice_stage (C : collaborators) (job_id : string)
    (segments : list TranscriptSegment) (lang_code voice : string) (speed : Q)
    (now : Z) : io (list SynthSegment * string) :=
  job ← lookup_job job_id;
  video_path ← getitem job "video_path" ≫= as_str;
  let job_dir := path_parent video_path in
  let segments_dir := path_join job_dir "segments" in
  _ ← update_job job_id kw_init_tts now;
  generated_segments ←
    voice_loop C job_id segments lang_code voice speed segments_dir now;
  output_audio ← voice_assemble C job_id video_path job_dir generated_segments now;
  mret (generated_segments, output_audio).

(** Lines 336-413. *)
Definition run_voice_generation (C : collaborators) (job_id : string)
    (segments : list TranscriptSegment) (lang_code voice : string) (speed : Q)
    (now : Z) : io unit :=
  try_except
    ('(_, output_audio) ← voice_stage C job_id segments lang_code voice speed now;
     update_job job_id (kw_voice_generated output_audio lang_code voice speed) now)
    (λ e, update_job job_id (kw_failed e "Voice generation failed") now).

(** Lines 416-434. *)
Definition merge_video (job_id : string) (now : Z) : io StageResponse :=
  job ← get_job job_id;
  status ← getitem job "status";
  if negb (status_in status [VOICE_GENERATED]) then raise (HTTPException 400)
  else
    match job !! "voiceover_path" with
    | Some (VStr (String _ _)) =>
      _ ← update_job job_id kw_merging now;
      _ ← add_task (RunVideoMerge job_id);
      mret {| sr_message := "Video merge started"; sr_job_id := job_id |}
    | _ => raise (HTTPException 400)
    end.

(** Lines 437-478. *)
Definition run_video_merge (C : collaborators) (job_id : string) (now : Z)
  : io unit :=
  try_except
    (job ← lookup_job job_id;
     _ ← update_job job_id kw_merging_audio now;
     let output_dir := path_join OUTPUTS_DIR job_id in
     _ ← mkdir output_dir;
     video_filename ← getitem job "video_filename" ≫= as_str;
     let output_path :=
       path_join output_dir (path_stem video_filename +:+ "_dubbed.mp4") in
     _ ← new_VideoService C;
     video_path ← getitem job "video_path" ≫= as_str;
     voiceover_path ← getitem job "voiceover_path" ≫= as_str;
     _ ← replace_audio C video_path voiceover_path output_path;
     update_job job_id (kw_completed job_id output_path) now)
    (λ e, update_job job_id (kw_failed e "Video merge failed") now).

(* ===================================================================== *)
(** ** The job store as a transition system *)
(* ===================================================================== *)

(** The [update_job] calls made by the three background tasks.  In the
    voice-generation loop [i] ranges over [enumerate(segments)] and
    [total_segments] is [len(segments)]. *)
Inductive task_update : gmap string value → Prop :=
  | tu_extracting : task_update kw_extracting
  | tu_transcribing_audio : task_update kw_transcribing_audio
  | tu_generating_srt : task_update kw_generating_srt
  | tu_transcribed t p : task_update (kw_transcribed t p)
  | tu_failed e m : task_update (kw_failed e m)
  | tu_init_tts : task_update kw_init_tts
  | tu_segment i total : 0 ≤ i < total → task_update (kw_segment i total)
  | tu_concatenating : task_update kw_concatenating
  | tu_voice_generated p l v s : task_update (kw_voice_generated p l v s)
  | tu_merging_audio : task_update kw_merging_audio
  | tu_completed j p : task_update (kw_completed j p).

(** One atomic change of the process state: a request handled by an
    endpoint, one store update of a running background task, or an effect
    on the files and the task queue alone.  Updates of different tasks
    interleave freely. *)
Inductive step : world → world → Prop :=
  | step_upload filename content uuid4 now w :
      step w (upload_video filename content uuid4 now w).2
  | step_start_transcription job_id language now w :
      step w (start_transcription job_id language now w).2
  | step_update_transcript job_id segments now w :
      step w (update_transcript job_id segments now w).2
  | step_generate_voice job_id request now w :
      step w (generate_voice job_id request now w).2
  | step_merge_video job_id now w :
      step w (merge_video job_id now w).2
  | step_task_update job_id kwargs now w :
      task_update kwargs → step w (update_job job_id kwargs now w).2
  | step_files fs tasks w :
      step w (World (w_jobs w) fs tasks).

(** Every stored job has an integer progress between 0 and 100. *)
Definition progress_in_range (w : world) : Prop :=
  ∀ job_id job, w_jobs w !! job_id = Some job →
    ∃ p, job !! "progress" = Some (VInt p) ∧ 0 ≤ p ≤ 100.

(** Keyword arguments that leave the progress alone or set it to an
    integer between 0 and 100. *)
Definition kw_progress_ok (kwargs : gmap string value) : Prop :=
  match kwargs !! "progress" with
  | None => True
  | Some (VInt p) => 0 ≤ p ≤ 100
  | Some _ => False
  end.

(** The state an action leaves is related by [R] to the state it started
    from, whether it returns or raises. *)
Definition respects {A} (R : relation world) (m : io A) : Prop :=
  ∀ w, R w (m w).2.

(** The relation "if the progress invariant holds before, it holds after". *)
Definition keeps_progress : relation world :=
  λ w w', progress_in_range w → progress_in_range w'.

(** The relation "if the job [job_id] is stored before, it is stored after". *)
Definition keeps_job (job_id : string) : relation world :=
  λ w w', is_Some (w_jobs w !! job_id) → is_Some (w_jobs w' !! job_id).

(* ===================================================================== *)
(** ** Reference formulations used in the statements *)
(* ===================================================================== *)


(** Nothing but a directory is in the way at [dir]. *)
Definition dir_free (fs : gmap string file) (dir : string) : Prop :=
  fs !! dir = None ∨ fs !! dir = Some FDir.

(** What one transcript segment yields in the result list of the synthesis
    driver: nothing when its stripped text is empty or its synthesis
    raises, its entry otherwise. *)
Definition synthesized (C : collaborators) (lang dir voice : string) (speed : Q)
    (ix : Z * TranscriptSegment) : option SynthSegment :=
  let '(i, seg) := ix in
  let text := strip (ts_text seg) in
  if decide (text = "") then None
  else match generate C lang text voice speed with
       | Ok _ => Some (synth_entry seg (segment_file dir i) text)
       | Raise _ => None
       end.



(** The source position read for the output position [i] when a clip of
    [n] samples is resampled to [m] samples: the [i]-th of [m] evenly
    spaced positions from [0] to [n - 1], truncated. *)
Definition source_index (n m i : Z) : Z :=
  py_int (linspace_at 0 (inject_Z (n - 1)) m i).

(** The destination cells of a clip of [n] samples starting at cell
    [start] of a buffer of [total] cells. *)
Definition in_dest (start n total : Z) (p : Z) : Prop :=
  start ≤ p ∧ p < start + n ∧ p < total.

(* ===================================================================== *)
(** ** Concrete scenarios used in the examples *)
(* ===================================================================== *)

(** Four clips: five samples at 8 Hz, four samples at 4 Hz, one sample at
    4 Hz, three samples at 8 Hz. *)
Definition demo_fs : gmap string file :=
  {[ "a.wav" := FAudio [11; 12; 13; 14; 15] 8;
     "b.wav" := FAudio [21; 22; 23; 24] 4;
     "c.wav" := FAudio [5] 4;
     "d.wav" := FAudio [31; 32; 33] 8 ]}.

Definition seg_at (audio_path : string) (start : Q) : SynthSegment :=
  {| ss_id := 0; ss_start := start; ss_end := (start + 1)%Q;
     ss_audio_path := Some audio_path; ss_text := "" |}.

(** A voice-generation scenario: five transcript segments 1/256 s apart, a
    TTS engine that raises on the text of the second and returns a
    four-sample clip at 24 kHz for every other text, a media toolkit that
    reports a duration of 1/32 s (750 samples at 24 kHz), and a job uploaded
    as [job-1]. *)
Definition demo_C : collaborators := {|
  ffmpeg_available := true;
  ffmpeg_extract_audio := λ _, Ok ([1; 2; 3], 16000);
  ffmpeg_probe_duration := λ _, Ok (1 # 32);
  ffmpeg_replace_audio := λ v _, Ok v;
  whisper_transcribe := λ _ _, Ok ([], None);
  kokoro_create := λ text _ _ _,
    if decide (text = "two") then Raise SynthesisError
    else Ok ([7; 8; 9; 10], 24000)
|}.

Definition demo_segment (i : Z) (text : string) : TranscriptSegment :=
  {| ts_id := i + 1; ts_start := inject_Z i / 256;
     ts_end := (inject_Z i + 1) / 256; ts_text := text |}.

Definition demo_segments : list TranscriptSegment :=
  [demo_segment 0 "one"; demo_segment 1 "two"; demo_segment 2 " three ";
   demo_segment 3 "four"; demo_segment 4 "five"].

Definition demo_world : world :=
  (upload_video "movie.mp4" [] "job-1" 100 init_world).2.

(** A transcript segment that starts at 513/16384 s, that is at sample
    751, one sample after the end of the 750-sample voice-over of the
    scenario. *)
Definition late_segment : TranscriptSegment :=
  {| ts_id := 6; ts_start := 513 # 16384; ts_end := 1 # 16;
     ts_text := "six" |}.

(** The one-segment transcript of the specification's subtitle example. *)
Definition bonjour : TranscriptSegment :=
  {| ts_id := 0; ts_start := 0; ts_end := 3 # 2; ts_text := "Bonjour" |}.

(* ===================================================================== *)
(** ** routers/dubbing.py: the read-only endpoints *)
(* ===================================================================== *)

(** Lines 257-274, the endpoint [get_transcript]: the transcript of a job,
    as the response model holds it. *)
Definition get_transcript_endpoint (job_id : string) : io Transcript :=
  job ← get_job job_id;
  match get_transcript job with
  | None => raise (HTTPException 400)
  | Some t => mret t
  end.

(** [JobResponse] of [models/schemas.py]. *)
Record JobResponse : Type := {
  jr_job_id : string;
  jr_status : JobStatus;
  jr_progress : Z;
  jr_message : option string;
  jr_created_at : Z;
  jr_updated_at : Z;
  jr_video_filename : option string;
  jr_transcript : option Transcript;
  jr_output_url : option string;
  jr_error : option string
}.

(** Validation of the fields of [JobResponse]; a [ValidationError] of the
    schema library is a [ValueError].  A field holding a value of another
    type than the declared one is refused. *)
Definition as_optional_str (v : option value) : result (option string) :=
  match v with
  | None | Some VNone => Ok None
  | Some (VStr s) => Ok (Some s)
  | Some _ => Raise ValueError
  end.

Definition validate_JobResponse (job_id status progress : value)
    (message : option value) (created_at updated_at : value)
    (video_filename : option value) (transcript : option Transcript)
    (output_url error : option value) : result JobResponse :=
  match job_id, status, progress, created_at, updated_at with
  | VStr j, VStatus s, VInt p, VTime c, VTime u =>
    if (0 <=? p) && (p <=? 100) then
      m ← as_optional_str message;
      f ← as_optional_str video_filename;
      o ← as_optional_str output_url;
      e ← as_optional_str error;
      Ok {| jr_job_id := j; jr_status := s; jr_progress := p; jr_message := m;
            jr_created_at := c; jr_updated_at := u; jr_video_filename := f;
            jr_transcript := transcript; jr_output_url := o; jr_error := e |}
    else Raise ValueError
  | _, _, _, _, _ => Raise ValueError
  end.

(** Lines 481-507. *)
Definition get_job_status (job_id : string) : io JobResponse :=
  job ← get_job job_id;
  let transcript := get_transcript job in
  jid ← getitem job "job_id";
  status ← getitem job "status";
  progress ← getitem job "progress";
  created_at ← getitem job "created_at";
  updated_at ← getitem job "updated_at";
  lift (validate_JobResponse jid status progress (job !! "message")
          created_at updated_at (job !! "video_filename") transcript
          (job !! "output_url") (job !! "error")).

(** [FileResponse(path, media_type=..., filename=...)] *)
Record FileResponse : Type := {
  fr_path : string;
  fr_media_type : string;
  fr_filename : string
}.

(** Lines 510-527.  Line 465 is the only writer of [output_path] and
    stores a string; a value of another type is taken to make
    [Path(output_path)] raise [TypeError]. *)
Definition download_video (job_id : string) : io FileResponse :=
  job ← get_job job_id;
  status ← getitem job "status";
  if negb (status_in status [COMPLETED]) then raise (HTTPException 400)
  else
    match job !! "output_path" with
    | Some (VStr (String c rest)) =>
      let output_path := String c rest in
      found ← path_exists output_path;
      if negb found then raise (HTTPException 404)
      else
        video_filename ← getitem job "video_filename" ≫= as_str;
        mret {| fr_path := output_path; fr_media_type := "video/mp4";
                fr_filename := path_stem video_filename +:+ "_dubbed.mp4" |}
    | None | Some VNone | Some (VStr EmptyString) => raise (HTTPException 404)
    | Some _ => raise TypeError
    end.

(** Lines 530-547. *)
Definition download_srt (job_id : string) : io FileResponse :=
  job ← get_job job_id;
  match get_transcript job with
  | None => raise (HTTPException 400)
  | Some _ =>
    video_path ← getitem job "video_path" ≫= as_str;
    let srt_path := path_join (path_parent video_path) "transcript.srt" in
    found ← path_exists srt_path;
    if negb found then raise (HTTPException 404)
    else
      video_filename ← getitem job "video_filename" ≫= as_str;
      mret {| fr_path := srt_path; fr_media_type := "text/plain";
              fr_filename := path_stem video_filename +:+ ".srt" |}
  end.

(** The three stage requests of the orchestrator. *)
Inductive request : Type :=
  | ReqTranscribe (language : option string)
  | ReqGenerateVoice (body : GenerateVoiceRequest)
  | ReqMergeVideo.

Definition handle (job_id : string) (r : request) (now : Z) : io StageResponse :=
  match r with
  | ReqTranscribe language => start_transcription job_id language now
  | ReqGenerateVoice body => generate_voice job_id body now
  | ReqMergeVideo => merge_video job_id now
  end.

(* ===================================================================== *)
(** ** Further reference formulations *)
(* ===================================================================== *)

#[global] Instance in_dest_dec start n total p : Decision (in_dest start n total p).
Proof. unfold in_dest. apply _. Defined.

(** The sample found at cell [p] once the segments [segs] have been placed
    in order over a cell holding [v]: each segment whose clip covers [p]
    replaces the value by its own sample. *)
Fixpoint cell_after (fs : gmap string file) (rate total : Z)
    (segs : list SynthSegment) (p : Z) (v : sample) : sample :=
  match segs with
  | [] => v
  | seg :: segs' =>
    let v' :=
      match load_clip fs rate seg with
      | Ok (Some clip) =>
        let start := start_sample_of (ss_start seg) rate in
        if decide (in_dest start (len clip) total p)
        then default v (clip !! Z.to_nat (p - start))
        else v
      | _ => v
      end in
    cell_after fs rate total segs' p v'
  end.

(** The segment names a path at which there is something. *)
Definition has_audio_file (fs : gmap string file) (seg : SynthSegment) : Prop :=
  ∃ path, ss_audio_path seg = Some path ∧ path ≠ "" ∧ is_Some (fs !! path).

#[global] Instance has_audio_file_dec fs seg : Decision (has_audio_file fs seg).
Proof.
  unfold has_audio_file. destruct (ss_audio_path seg) as [path|].
  - destruct (decide (path ≠ "" ∧ is_Some (fs !! path))) as [H|H].
    + left. by exists path.
    + right. intros (path' & [= <-] & H'). by apply H.
  - right. by intros (path' & [=] & _).
Defined.

(** The job [job_id] is stored with the status [s]. *)
Definition status_is (job_id : string) (s : JobStatus) (w : world) : Prop :=
  ∃ job, w_jobs w !! job_id = Some job ∧ job !! "status" = Some (VStatus s).

(** Whenever the action returns normally from a state in which the job
    [job_id] is stored, the state it leaves satisfies [P]. *)
Definition ensures {A} (job_id : string) (P : world → Prop) (m : io A) : Prop :=
  ∀ w a w', is_Some (w_jobs w !! job_id) → m w = (Ok a, w') → P w'.

(** A job dictionary whose fields have the types that [JobResponse]
    declares, with the job's own id and a progress between 0 and 100. *)
Definition optional_str (v : option value) : Prop :=
  match v with
  | None | Some VNone | Some (VStr _) => True
  | Some _ => False
  end.

Definition job_wf (job_id : string) (job : gmap string value) : Prop :=
  job !! "job_id" = Some (VStr job_id)
  ∧ (∃ s, job !! "status" = Some (VStatus s))
  ∧ (∃ p, job !! "progress" = Some (VInt p) ∧ 0 ≤ p ≤ 100)
  ∧ (∃ t, job !! "created_at" = Some (VTime t))
  ∧ (∃ t, job !! "updated_at" = Some (VTime t))
  ∧ optional_str (job !! "message")
  ∧ optional_str (job !! "video_filename")
  ∧ optional_str (job !! "output_url")
  ∧ optional_str (job !! "error").

Definition jobs_wf (w : world) : Prop :=
  ∀ job_id job, w_jobs w !! job_id = Some job → job_wf job_id job.

(** Keyword arguments that keep a job dictionary well formed. *)
Definition kw_wf (kwargs : gmap string value) : Prop :=
  kwargs !! "job_id" = None
  ∧ kwargs !! "created_at" = None
  ∧ match kwargs !! "status" with None | Some (VStatus _) => True | _ => False end
  ∧ kw_progress_ok kwargs
  ∧ match kwargs !! "message" with None | Some (VStr _) => True | _ => False end
  ∧ match kwargs !! "video_filename" with None => True | _ => False end
  ∧ match kwargs !! "output_url" with None | Some (VStr _) => True | _ => False end
  ∧ match kwargs !! "error" with None | Some (VStr _) => True | _ => False end.

Definition keeps_wf : relation world := λ w w', jobs_wf w → jobs_wf w'.

(** The local variables of [_seconds_to_srt_time]. *)
Definition srt_hours (seconds : Q) : Z := py_int (py_floordiv seconds 3600).
Definition srt_minutes (seconds : Q) : Z :=
  py_int (py_floordiv (py_mod seconds 3600) 60).
Definition srt_secs (seconds : Q) : Z := py_int (py_mod seconds 60).
Definition srt_millis (seconds : Q) : Z := py_int (py_mod seconds 1 * 1000)%Q.

(** The number a string of decimal digits denotes, continuing from [v]. *)
Fixpoint digits_value (s : string) (v : Z) : Z :=
  match s with
  | EmptyString => v
  | String c s' => digits_value s' (v * 10 + (Z.of_nat (nat_of_ascii c) - 48))
  end.

(** An unknown job id stays unknown. *)
Definition keeps_absent (job_id : string) : relation world :=
  λ w w', w_jobs w !! job_id = None → w_jobs w' !! job_id = None.

(** The entry names a file that holds the audio synthesized from the
    entry's text. *)
Definition audio_written (C : collaborators) (lang voice : string) (speed : Q)
    (fs : gmap string file) (s : SynthSegment) : Prop :=
  ∃ path audio sr,
    ss_audio_path s = Some path ∧ path ≠ ""
    ∧ generate C lang (ss_text s) voice speed = Ok (audio, sr)
    ∧ fs !! path = Some (FAudio audio sr).

(* ===================================================================== *)
(** * Properties *)
(* ===================================================================== *)

(** ** Truncation *)

Lemma py_int_nonneg (x : Q) : (0 <= x)%Q → 0 ≤ py_int x.
Proof.
  intros Hx. unfold py_int. apply Z.quot_pos; [|lia].
  unfold Qle in Hx. simpl in Hx. lia.
Qed.

Lemma py_int_floor (x : Q) : (0 <= x)%Q → py_int x = Qfloor x.
Proof.
  intros Hx. destruct x as [n d]. unfold py_int, Qfloor. simpl.
  apply Z.quot_div_nonneg; [|lia].
  unfold Qle in Hx. simpl in Hx. lia.
Qed.

Lemma py_int_le (x : Q) (k : Z) : (0 <= x)%Q → (x <= inject_Z k)%Q → py_int x ≤ k.
Proof.
  intros H0 Hk. rewrite py_int_floor by done.
  rewrite <- (Qfloor_Z k). by apply Qfloor_resp_le.
Qed.

Lemma py_int_lt (x : Q) (k : Z) : (0 <= x)%Q → (x < inject_Z k)%Q → py_int x < k.
Proof.
  intros H0 Hk. rewrite py_int_floor by done.
  destruct (Z.lt_ge_cases (Qfloor x) k) as [|Hge]; [done|exfalso].
  rewrite Zle_Qle in Hge. pose proof (Qfloor_le x) as Hf.
  apply (Qlt_irrefl x). eapply Qlt_le_trans; [apply Hk|].
  by eapply Qle_trans.
Qed.

Lemma py_int_mono (x y : Q) : (0 <= x)%Q → (x <= y)%Q → py_int x ≤ py_int y.
Proof.
  intros H0 Hxy. rewrite !py_int_floor; [by apply Qfloor_resp_le| |done].
  by eapply Qle_trans.
Qed.

(** ** Slices *)

Lemma len_nonneg {A} (l : list A) : 0 ≤ len l.
Proof. unfold len. lia. Qed.

Lemma len_replicate {A} (n : Z) (x : A) : 0 ≤ n → len (replicate (Z.to_nat n) x) = n.
Proof. intros. unfold len. rewrite length_replicate. lia. Qed.

Lemma py_prefix_take {A} (l : list A) (k : Z) :
  0 ≤ k → py_prefix l k = take (Z.to_nat k) l.
Proof.
  intros Hk. unfold py_prefix, py_slice, slice_index, len.
  replace (0 <? 0) with false by done.
  destruct (Z.ltb_spec k 0); [lia|].
  rewrite (Z.min_l 0) by lia. simpl. rewrite drop_0.
  destruct (decide (k ≤ Z.of_nat (length l))).
  - rewrite Z.min_l by lia. f_equal. lia.
  - rewrite Z.min_r by lia. rewrite Z.sub_0_r, Nat2Z.id.
    rewrite !take_ge by lia. done.
Qed.

(** The slice assignment of the assembler when the start lies inside the
    buffer: the cut clip overwrites the cells from [start] on. *)
Lemma set_slice_inside (out src : list sample) (start e : Z) :
  0 ≤ start → start ≤ e → e ≤ len out → len src = e - start →
  set_slice out start e src
  = Ok (take (Z.to_nat start) out ++ src ++ drop (Z.to_nat e) out).
Proof.
  intros H0 H1 H2 H3. unfold set_slice, slice_index.
  destruct (Z.ltb_spec start 0); [lia|].
  destruct (Z.ltb_spec e 0); [lia|].
  rewrite !Z.min_l by lia.
  unfold len in *.
  rewrite decide_True by lia.
  replace (Z.to_nat start + Z.to_nat (e - start))%nat with (Z.to_nat e) by lia.
  done.
Qed.

Lemma write_clip_inside (rate total : Z) (out clip : list sample) (start_time : Q) :
  let start := start_sample_of start_time rate in
  let e := Z.min (start + len clip) total in
  len out = total → 0 ≤ start ≤ total →
  write_clip rate total out start_time clip
  = Ok (take (Z.to_nat start) out ++ take (Z.to_nat (e - start)) clip
          ++ drop (Z.to_nat e) out).
Proof.
  intros start e Hlen Hs. unfold write_clip. fold start. fold e.
  pose proof (len_nonneg clip) as Hc.
  rewrite py_prefix_take by lia.
  apply set_slice_inside; try lia.
  unfold len in *. rewrite length_take. lia.
Qed.

Lemma write_clip_length (rate total : Z) (out out' clip : list sample) (start_time : Q) :
  write_clip rate total out start_time clip = Ok out' → length out' = length out.
Proof.
  unfold write_clip, set_slice.
  set (hi := slice_index (len out) (Z.min _ _)).
  set (lo := slice_index (len out) _).
  set (src := py_prefix _ _).
  assert (Hlo : 0 ≤ lo ≤ len out).
  { unfold lo, slice_index. pose proof (len_nonneg out). case_match; lia. }
  assert (Hhi : 0 ≤ hi ≤ len out).
  { unfold hi, slice_index. pose proof (len_nonneg out). case_match; lia. }
  assert (Hgen : ∀ mid : list sample, length mid = Z.to_nat (hi - lo) →
            length (take (Z.to_nat lo) out ++ mid
                    ++ drop (Z.to_nat lo + Z.to_nat (hi - lo)) out) = length out).
  { intros mid Hmid. rewrite !length_app, length_take, length_drop, Hmid.
    unfold len in *. lia. }
  case_decide as Hd.
  - intros [= <-]. by apply Hgen.
  - destruct src as [|v [|]]; try done.
    intros [= <-]. apply Hgen. by rewrite length_replicate.
Qed.

(** ** Resampling *)

Lemma py_int_inject_Z (n : Z) : py_int (inject_Z n) = n.
Proof. unfold py_int. simpl. apply Z.quot_1_r. Qed.

Lemma inject_Z_nonneg (n : Z) : 0 ≤ n → (0 <= inject_Z n)%Q.
Proof. intros. change 0%Q with (inject_Z 0). by rewrite <- Zle_Qle. Qed.

Lemma inject_Z_pos (n : Z) : 0 < n → (0 < inject_Z n)%Q.
Proof. intros. change 0%Q with (inject_Z 0). by rewrite <- Zlt_Qlt. Qed.

Lemma ratio_nonneg (a b : Z) : 0 ≤ a → 0 < b → (0 <= inject_Z a / inject_Z b)%Q.
Proof.
  intros Ha Hb. apply Qle_shift_div_l; [by apply inject_Z_pos|].
  rewrite Qmult_0_l. by apply inject_Z_nonneg.
Qed.

(** The positions produced by [np.linspace(0, n - 1, m)] for a non-empty
    clip stay within the clip. *)
Lemma linspace_at_bounds (n m i : Z) :
  1 ≤ n → 0 ≤ i < m →
  (0 <= linspace_at 0 (inject_Z (n - 1)) m i)%Q
  ∧ (linspace_at 0 (inject_Z (n - 1)) m i <= inject_Z (n - 1))%Q.
Proof.
  intros Hn Hi. unfold linspace_at.
  assert (Hb : (0 <= inject_Z (n - 1))%Q) by (apply inject_Z_nonneg; lia).
  destruct ((1 <? m) && (i =? m - 1)) eqn:Elast.
  { split; [done|apply Qle_refl]. }
  destruct (Z.ltb_spec 0 (m - 1)) as [Hdiv|Hdiv].
  - set (a := inject_Z i). set (b := inject_Z (n - 1)) in *.
    set (c := inject_Z (m - 1)).
    assert (Hc : (0 < c)%Q) by (apply inject_Z_pos; lia).
    assert (Ha : (0 <= a)%Q) by (apply inject_Z_nonneg; lia).
    assert (Hac : (a <= c)%Q) by (unfold a, c; rewrite <- Zle_Qle; lia).
    assert (Heq : (a * ((b - 0) / c) + 0 == (a * b) / c)%Q).
    { field. intros Hz. rewrite Hz in Hc. by apply Qlt_irrefl in Hc. }
    rewrite Heq. split.
    + apply Qle_shift_div_l; [done|]. rewrite Qmult_0_l.
      by apply Qmult_le_0_compat.
    + apply Qle_shift_div_r; [done|].
      rewrite (Qmult_comm b c). by apply Qmult_le_compat_r.
  - assert (i = 0) as -> by lia.
    assert (Heq : (inject_Z 0 * (inject_Z (n - 1) - 0) + 0 == 0)%Q) by ring.
    rewrite Heq. split; [apply Qle_refl|done].
Qed.

Lemma source_index_bounds (n m i : Z) :
  1 ≤ n → 0 ≤ i < m → 0 ≤ source_index n m i < n.
Proof.
  intros Hn Hi. unfold source_index.
  destruct (linspace_at_bounds n m i Hn Hi) as [H0 H1]. split.
  - by apply py_int_nonneg.
  - pose proof (py_int_le _ _ H0 H1). lia.
Qed.

Lemma py_getitem_inside {A} (l : list A) (k : Z) :
  0 ≤ k < len l → ∃ v, py_getitem l k = Ok v ∧ l !! Z.to_nat k = Some v.
Proof.
  intros Hk. unfold py_getitem.
  destruct (Z.ltb_spec k 0); [lia|]. destruct (Z.ltb_spec k 0); [lia|].
  destruct (l !! Z.to_nat k) as [v|] eqn:E; [by exists v|].
  apply lookup_ge_None in E. unfold len in Hk. lia.
Qed.

Lemma np_take_inside {A} (l : list A) (indices : list Z) :
  Forall (λ k, 0 ≤ k < len l) indices →
  ∃ vs, np_take l indices = Ok vs ∧ length vs = length indices
        ∧ ∀ (j : nat) k, indices !! j = Some k → vs !! j = l !! Z.to_nat k.
Proof.
  induction 1 as [|k ks Hk _ (vs & Hvs & Hlen & Hget)]; simpl.
  - exists []. split_and!; [done..|]. intros j k. by rewrite lookup_nil.
  - destruct (py_getitem_inside l k Hk) as (v & -> & Hv). simpl.
    rewrite Hvs. simpl. exists (v :: vs). split_and!; [done|simpl; lia|].
    intros [|j] k'; simpl; [|by apply Hget].
    intros [= <-]. done.
Qed.

Lemma new_length_nonneg (n sr rate : Z) :
  0 ≤ n → 0 < sr → 0 < rate →
  0 ≤ py_int (inject_Z n * (inject_Z rate / inject_Z sr))%Q.
Proof.
  intros. apply py_int_nonneg, Qmult_le_0_compat.
  - by apply inject_Z_nonneg.
  - apply ratio_nonneg; lia.
Qed.

Lemma new_length_empty (sr rate : Z) :
  py_int (inject_Z 0 * (inject_Z rate / inject_Z sr))%Q = 0.
Proof. unfold py_int. simpl. apply Z.quot_0_l. lia. Qed.

(** Resampling between positive rates never fails: the result has
    [int(len * (rate / sr))] samples, and sample [i] is the source sample at
    the truncated [i]-th linearly spaced position. *)
Lemma resample_ok (data : list sample) (sr rate : Z) :
  0 < sr → 0 < rate →
  ∃ clip,
    resample data sr rate = Ok clip
    ∧ len clip = py_int (inject_Z (len data) * (inject_Z rate / inject_Z sr))%Q
    ∧ ∀ i, 0 ≤ i < len clip →
        0 ≤ source_index (len data) (len clip) i < len data
        ∧ clip !! Z.to_nat i
          = data !! Z.to_nat (source_index (len data) (len clip) i).
Proof.
  intros Hsr Hrate. unfold resample.
  destruct (Z.eqb_spec sr 0); [lia|].
  set (m := py_int _).
  assert (Hm : 0 ≤ m) by (apply new_length_nonneg; [apply len_nonneg|done..]).
  destruct (Z.ltb_spec m 0); [lia|].
  assert (Hn : 0 < m → 1 ≤ len data).
  { intros Hpos. pose proof (len_nonneg data).
    destruct (decide (len data = 0)) as [E|]; [|lia].
    unfold m in Hpos. rewrite E, new_length_empty in Hpos. lia. }
  set (indices := py_int <$> np_linspace 0 (inject_Z (len data - 1)) m).
  assert (Hidx : ∀ (j : nat) k, indices !! j = Some k →
            Z.of_nat j < m ∧ k = source_index (len data) m (Z.of_nat j)).
  { intros j k. unfold indices, np_linspace. rewrite !list_lookup_fmap.
    destruct (seqZ 0 m !! j) as [i|] eqn:E; [|done]. simpl.
    apply lookup_seqZ in E as [-> ?]. intros [= <-]. split; [lia|].
    unfold source_index. do 2 f_equal. }
  destruct (np_take_inside data indices) as (clip & Hclip & Hlen & Hget).
  { apply Forall_lookup. intros j k Hjk. apply Hidx in Hjk as [Hj ->].
    apply source_index_bounds; lia. }
  assert (Hlen' : len clip = m).
  { unfold len. rewrite Hlen. unfold indices, np_linspace.
    rewrite !length_fmap, length_seqZ. lia. }
  exists clip. split_and!; [done..|].
  rewrite Hlen'. intros i Hi. split; [apply source_index_bounds; lia|].
  assert (Hl : indices !! Z.to_nat i = Some (source_index (len data) m i)).
  { unfold indices, np_linspace. rewrite !list_lookup_fmap.
    rewrite lookup_seqZ_lt by lia. simpl. unfold source_index.
    do 3 f_equal. lia. }
  by apply Hget in Hl.
Qed.

(** ** The timeline assembler *)

Lemma place_segment_length fs rate total (out out' : list sample) seg :
  place_segment fs rate total out seg = Ok out' → length out' = length out.
Proof.
  unfold place_segment.
  destruct (load_clip fs rate seg) as [[clip|]|]; simpl; [|by intros [= <-]|done].
  apply write_clip_length.
Qed.

Lemma for_each_place_length fs rate total segs (out out' : list sample) :
  for_each (place_segment fs rate total) segs out = Ok out' →
  length out' = length out.
Proof.
  revert out. induction segs as [|seg segs IH]; intros out; simpl.
  - by intros [= <-].
  - destruct (place_segment fs rate total out seg) as [out1|] eqn:E; simpl; [|done].
    intros Hrest. apply IH in Hrest. apply place_segment_length in E. congruence.
Qed.

(** Whenever the assembler returns, the buffer has [total_samples] cells. *)
Lemma assembled_length fs segs d rate (buf : list sample) :
  concatenate_audio_with_timing fs segs d rate = Ok buf →
  len buf = total_samples_of d rate.
Proof.
  unfold concatenate_audio_with_timing.
  destruct (Z.ltb_spec (total_samples_of d rate) 0); [done|].
  intros Hbuf. apply for_each_place_length in Hbuf.
  unfold len. rewrite Hbuf, length_replicate. lia.
Qed.








(** ** Where the samples of a clip land *)

Lemma splice_lookup (out clip : list sample) (s k p : nat) :
  (s + k ≤ length out)%nat → (k ≤ length clip)%nat →
  (take s out ++ take k clip ++ drop (s + k) out) !! p
  = if decide (s ≤ p < s + k)%nat then clip !! (p - s)%nat else out !! p.
Proof.
  intros Hs Hk. case_decide as Hp.
  - rewrite lookup_app_r by (rewrite length_take; lia).
    rewrite length_take, Nat.min_l by lia.
    rewrite lookup_app_l by (rewrite length_take; lia).
    apply lookup_take_lt. lia.
  - destruct (decide (p < s)%nat).
    + rewrite lookup_app_l by (rewrite length_take; lia).
      apply lookup_take_lt. lia.
    + rewrite lookup_app_r by (rewrite length_take; lia).
      rewrite length_take, Nat.min_l by lia.
      rewrite lookup_app_r by (rewrite length_take; lia).
      rewrite length_take, Nat.min_l by lia.
      rewrite lookup_drop. f_equal. lia.
Qed.

(** A clip written at a start position inside the buffer fills its
    destination cells and leaves every other cell as it was. *)
Lemma write_clip_lookup (rate total : Z) (out clip : list sample) (start_time : Q) :
  let start := start_sample_of start_time rate in
  len out = total → 0 ≤ start ≤ total →
  ∃ out', write_clip rate total out start_time clip = Ok out'
    ∧ len out' = total
    ∧ (∀ p, in_dest start (len clip) total p →
            out' !! Z.to_nat p = clip !! Z.to_nat (p - start))
    ∧ (∀ p, 0 ≤ p → ¬ in_dest start (len clip) total p →
            out' !! Z.to_nat p = out !! Z.to_nat p).
Proof.
  intros start Hlen Hs. rewrite write_clip_inside by done. fold start.
  set (e := Z.min (start + len clip) total).
  pose proof (len_nonneg clip) as Hc.
  assert (He : start ≤ e ≤ total) by lia.
  replace (Z.to_nat e) with (Z.to_nat start + Z.to_nat (e - start))%nat by lia.
  eexists. split; [done|].
  assert (H1 : (Z.to_nat start + Z.to_nat (e - start) ≤ length out)%nat)
    by (unfold len in *; lia).
  assert (H2 : (Z.to_nat (e - start) ≤ length clip)%nat)
    by (unfold len in *; lia).
  split_and!.
  - unfold len in *. rewrite !length_app, !length_take, length_drop. lia.
  - intros p (Hp1 & Hp2 & Hp3). rewrite splice_lookup by done.
    rewrite decide_True by lia. f_equal. lia.
  - intros p Hp Hout. rewrite splice_lookup by done.
    rewrite decide_False; [done|]. unfold in_dest in Hout. lia.
Qed.




(** ** Segments that start after the end of the buffer *)

(** A clip that starts exactly at the end of the buffer leaves the buffer
    as it is. *)
Lemma write_clip_at_end (rate total : Z) (out clip : list sample) (start_time : Q) :
  len out = total → start_sample_of start_time rate = total → 0 ≤ total →
  write_clip rate total out start_time clip = Ok out.
Proof.
  intros Hlen Hs Ht. rewrite write_clip_inside by lia. rewrite Hs.
  pose proof (len_nonneg clip). rewrite Z.min_r by lia.
  rewrite Z.sub_diag. simpl.
  unfold len in Hlen. rewrite take_ge, drop_ge by lia. by rewrite app_nil_r.
Qed.

(** A clip that starts at or after the end of the buffer changes nothing
    when the slice assignment does not raise. *)
Lemma write_clip_late_unchanged (rate total : Z) (out out' clip : list sample)
    (start_time : Q) :
  len out = total → total ≤ start_sample_of start_time rate →
  write_clip rate total out start_time clip = Ok out' → out' = out.
Proof.
  intros Hlen Hs. unfold write_clip, set_slice, slice_index.
  pose proof (len_nonneg out) as Hout. pose proof (len_nonneg clip) as Hclip.
  rewrite Hlen. set (s := start_sample_of start_time rate) in *.
  rewrite (Z.min_r (s + len clip) total) by lia.
  destruct (Z.ltb_spec s 0); [lia|]. destruct (Z.ltb_spec total 0); [lia|].
  rewrite (Z.min_r s total), (Z.min_l total total) by lia.
  replace (Z.to_nat (total - total)) with 0%nat by lia.
  rewrite Nat.add_0_r. unfold len in Hlen.
  rewrite take_ge, drop_ge by lia.
  case_decide as Hd.
  - apply nil_length_inv in Hd. rewrite Hd. intros [= <-]. by rewrite app_nil_r.
  - destruct (py_prefix clip (total - s)) as [|v [|]]; try done.
    intros [= <-]. by rewrite app_nil_r.
Qed.

(** A clip that starts [k >= 1] cells after the end of the buffer and has
    at least [k + 2] samples makes the slice assignment raise: the cut
    [clip[:-k]] keeps [len - k >= 2] samples and the destination slice is
    empty. *)
Lemma write_clip_late_raises (rate total : Z) (out clip : list sample)
    (start_time : Q) (k : Z) :
  len out = total → 1 ≤ k → k + 2 ≤ len clip →
  start_sample_of start_time rate = total + k →
  write_clip rate total out start_time clip = Raise ValueError.
Proof.
  intros Hlen Hk Hn Hs. unfold write_clip. rewrite Hs.
  pose proof (len_nonneg out) as Hout.
  rewrite Z.min_r by lia.
  replace (total - (total + k)) with (- k) by lia.
  unfold set_slice, slice_index. rewrite Hlen.
  destruct (Z.ltb_spec (total + k) 0); [lia|].
  destruct (Z.ltb_spec total 0); [lia|].
  rewrite (Z.min_r (total + k) total), (Z.min_l total total) by lia.
  replace (Z.to_nat (total - total)) with 0%nat by lia.
  assert (Hsrc : length (py_prefix clip (- k)) = Z.to_nat (len clip - k)).
  { unfold py_prefix, py_slice, slice_index.
    replace (0 <? 0) with false by done.
    destruct (Z.ltb_spec (- k) 0); [|lia].
    rewrite Z.min_l, Z.max_l by lia. simpl. rewrite drop_0, length_take.
    unfold len. lia. }
  rewrite decide_False by lia.
  destruct (py_prefix clip (- k)) as [|v1 [|v2 src]]; simpl in Hsrc; [done|lia|done].
Qed.

(** C3, at the failing input.  One five-sample clip at 8 Hz starting at
    1.25 s, for a total duration of 1 s at 8 Hz: the start position 10 lies
    two cells after the end of the eight-cell buffer, and the assembler
    raises [ValueError] instead of returning the silent buffer that the
    assembly of the remaining (no) segments gives. *)
Theorem C3_late_segment_raises :
  (1 <= ss_start (seg_at "a.wav" (5 # 4)))%Q
  ∧ concatenate_audio_with_timing demo_fs [seg_at "a.wav" (5 # 4)] 1 8
    = Raise ValueError
  ∧ concatenate_audio_with_timing demo_fs [] 1 8 = Ok [0; 0; 0; 0; 0; 0; 0; 0].
Proof. vm_compute. repeat split. discriminate. Qed.

(** In the pipeline the exception reaches the handler of the stage: one
    transcript segment starting one sample after the end of the video, with
    its four-sample clip, makes the whole voice generation end [failed]. *)
Lemma late_segment_fails_stage :
  w_jobs (run_voice_generation demo_C "job-1" [late_segment] "a" "af_heart" 1
            200 demo_world).2 !! "job-1" ≫= (.!! "status")
  = Some (VStatus FAILED)
  ∧ w_jobs (run_voice_generation demo_C "job-1" [late_segment] "a" "af_heart" 1
              200 demo_world).2 !! "job-1" ≫= (.!! "error")
    = Some (VStr "ValueError").
Proof. split; vm_compute; reflexivity. Qed.

(** ** Overlapping segments *)

Lemma for_each_app {A S} (body : S → A → result S) (xs ys : list A) (acc : S) :
  for_each body (xs ++ ys) acc = for_each body xs acc ≫= for_each body ys.
Proof.
  revert acc. induction xs as [|x xs IH]; intros acc; simpl; [done|].
  destruct (body acc x); simpl; [apply IH|done].
Qed.

(** The segments are placed in list order: assembling [pre ++ [seg]] is
    assembling [pre] and then placing [seg]. *)
Lemma assemble_snoc fs pre seg d rate :
  concatenate_audio_with_timing fs (pre ++ [seg]) d rate
  = concatenate_audio_with_timing fs pre d rate
      ≫= λ out, place_segment fs rate (total_samples_of d rate) out seg.
Proof.
  unfold concatenate_audio_with_timing.
  destruct (Z.ltb_spec (total_samples_of d rate) 0); [done|].
  rewrite for_each_app.
  destruct (for_each _ pre _) as [out|]; simpl; [|done].
  by destruct (place_segment _ _ _ out seg).
Qed.

(** C4.  Segments are placed in input order, and a segment placed after
    others overwrites them: once the segments [pre] are assembled into
    [out0], assembling [pre ++ [seg]] yields a buffer that holds the samples
    of [seg]'s clip throughout the destination range of [seg] (so in every
    region where that range overlaps the range of an earlier segment) and
    the cells of [out0] everywhere else. *)
Theorem C4_last_write_wins fs d rate pre seg clip (out0 : list sample) :
  concatenate_audio_with_timing fs pre d rate = Ok out0 →
  load_clip fs rate seg = Ok (Some clip) →
  0 ≤ start_sample_of (ss_start seg) rate ≤ total_samples_of d rate →
  ∃ out,
    concatenate_audio_with_timing fs (pre ++ [seg]) d rate = Ok out
    ∧ (∀ p, in_dest (start_sample_of (ss_start seg) rate) (len clip)
                    (total_samples_of d rate) p →
            out !! Z.to_nat p
            = clip !! Z.to_nat (p - start_sample_of (ss_start seg) rate))
    ∧ (∀ p, 0 ≤ p →
            ¬ in_dest (start_sample_of (ss_start seg) rate) (len clip)
                      (total_samples_of d rate) p →
            out !! Z.to_nat p = out0 !! Z.to_nat p).
Proof.
  intros Hpre Hclip Hstart.
  pose proof (assembled_length _ _ _ _ _ Hpre) as Hlen.
  destruct (write_clip_lookup rate _ out0 clip (ss_start seg) Hlen Hstart)
    as (out & Hout & _ & Hin & Hrest).
  exists out. split_and!; [|done..].
  rewrite assemble_snoc, Hpre. simpl.
  unfold place_segment. rewrite Hclip. simpl. done.
Qed.

(** The first clip covers the cells 2 to 6, the second the cells 4 to 6:
    the overlap holds the second clip, the cells 2 and 3 keep the first. *)
Lemma C4_last_write_wins_witness :
  ∃ out,
    concatenate_audio_with_timing demo_fs
      [seg_at "a.wav" (1 # 4); seg_at "d.wav" (1 # 2)] 1 8 = Ok out
    ∧ out !! 4%nat = Some 31 ∧ out !! 5%nat = Some 32 ∧ out !! 6%nat = Some 33
    ∧ out !! 2%nat = Some 11 ∧ out !! 3%nat = Some 12.
Proof.
  destruct (C4_last_write_wins demo_fs 1 8 [seg_at "a.wav" (1 # 4)]
              (seg_at "d.wav" (1 # 2)) [31; 32; 33] [0; 0; 11; 12; 13; 14; 15; 0])
    as (out & Hout & Hin & Hrest);
    [reflexivity | reflexivity | vm_compute; split; discriminate |].
  exists out. split_and!; [exact Hout | | | | |].
  - apply (Hin 4). vm_compute. done.
  - apply (Hin 5). vm_compute. done.
  - apply (Hin 6). vm_compute. done.
  - apply (Hrest 2); [lia|]. vm_compute. intros (? & ? & ?). done.
  - apply (Hrest 3); [lia|]. vm_compute. intros (? & ? & ?). done.
Defined.

(** ** Strings *)

Lemma str_app_cons (x : ascii) (a b : string) :
  String x a +:+ b = String x (a +:+ b).
Proof. done. Qed.

Lemma str_app_assoc (a b c : string) : (a +:+ b) +:+ c = a +:+ (b +:+ c).
Proof.
  induction a as [|x a IH]; [done|]. rewrite !str_app_cons. by f_equal.
Qed.

Lemma str_app_nil_r (a : string) : a +:+ "" = a.
Proof.
  induction a as [|x a IH]; [done|]. rewrite str_app_cons. by f_equal.
Qed.

(** ** Subtitle rendering *)





(** ** The job store *)

Ltac io_unfold :=
  unfold mbind, io_bind, mret, io_ret, raise, lift, try_except in *.

Lemma update_job_unknown job_id kwargs now w :
  w_jobs w !! job_id = None → update_job job_id kwargs now w = (Ok (), w).
Proof. intros H. unfold update_job. by rewrite H. Qed.

Lemma update_job_known job_id kwargs now w job :
  w_jobs w !! job_id = Some job →
  update_job job_id kwargs now w
  = (Ok (), set_jobs (<[job_id := <["updated_at" := VTime now]> (kwargs ∪ job)]>
                        (w_jobs w)) w).
Proof. intros H. unfold update_job. by rewrite H. Qed.

(** [update_job] never raises and touches nothing but the job store. *)
Lemma update_job_total job_id kwargs now w :
  ∃ jobs, update_job job_id kwargs now w = (Ok (), set_jobs jobs w).
Proof.
  unfold update_job. destruct (w_jobs w !! job_id); [by eexists|].
  exists (w_jobs w). by destruct w.
Qed.

(** C8 (as amended).  [update_job] on an unknown job id does nothing and
    reports nothing: it returns normally and leaves the whole state as it
    was.  On a known id it returns normally, sets every given field to the
    given value, keeps every other field, stamps [updated_at] with the
    current time whatever the given fields say, and leaves the other jobs,
    the files and the task queue alone. *)
Theorem C8_update_job job_id kwargs now w :
  (w_jobs w !! job_id = None → update_job job_id kwargs now w = (Ok (), w))
  ∧ (∀ job, w_jobs w !! job_id = Some job →
      ∃ job',
        update_job job_id kwargs now w
        = (Ok (), set_jobs (<[job_id := job']> (w_jobs w)) w)
        ∧ job' !! "updated_at" = Some (VTime now)
        ∧ (∀ k v, k ≠ "updated_at" → kwargs !! k = Some v → job' !! k = Some v)
        ∧ (∀ k, k ≠ "updated_at" → kwargs !! k = None → job' !! k = job !! k)).
Proof.
  split; [apply update_job_unknown|].
  intros job Hjob. eexists. split; [by apply update_job_known|].
  split_and!.
  - apply lookup_insert_eq.
  - intros k v Hk Hv. rewrite lookup_insert_ne by done.
    by apply lookup_union_Some_l.
  - intros k Hk Hv. rewrite lookup_insert_ne by done.
    by apply lookup_union_r.
Qed.

(** The state right after the upload of an empty file named [movie.mp4]
    under the id [job-1] at time 100. *)
Lemma uploaded_world_eq :
  (upload_video "movie.mp4" [] "job-1" 100 init_world).2
  = World {[ "job-1" := new_job "job-1" "movie.mp4"
                          "storage/uploads/job-1/original.mp4" 100 ]}
          {[ "storage/uploads/job-1" := FDir;
             "storage/uploads/job-1/original.mp4" := FBytes [] ]}
          [].
Proof. reflexivity. Qed.

Lemma C8_update_job_witness :
  ∃ job',
    (update_job "job-1" kw_transcribing 200
       (upload_video "movie.mp4" [] "job-1" 100 init_world).2).1 = Ok ()
    ∧ (w_jobs (update_job "job-1" kw_transcribing 200
         (upload_video "movie.mp4" [] "job-1" 100 init_world).2).2) !! "job-1"
      = Some job'
    ∧ job' !! "updated_at" = Some (VTime 200)
    ∧ job' !! "status" = Some (VStatus TRANSCRIBING)
    ∧ job' !! "video_filename" = Some (VStr "movie.mp4")
    ∧ update_job "job-2" kw_transcribing 200 init_world = (Ok (), init_world).
Proof.
  destruct (C8_update_job "job-1" kw_transcribing 200
              (upload_video "movie.mp4" [] "job-1" 100 init_world).2)
    as [_ Hknown].
  destruct (Hknown (new_job "job-1" "movie.mp4"
                      "storage/uploads/job-1/original.mp4" 100))
    as (job' & Hrun & Hstamp & Hset & Hkeep); [reflexivity|].
  exists job'. rewrite Hrun. split_and!.
  - reflexivity.
  - simpl. apply lookup_insert_eq.
  - exact Hstamp.
  - apply Hset; [discriminate|reflexivity].
  - rewrite Hkeep; [reflexivity|discriminate|reflexivity].
  - apply (C8_update_job "job-2" kw_transcribing 200 init_world).
    reflexivity.
Defined.

(** C8 (as stated) fails: on an unknown job id [update_job] returns
    normally, where [get_job] on the same id reports not-found. *)
Lemma C8_counterexample :
  update_job "job-2" kw_transcribing 200 init_world = (Ok (), init_world)
  ∧ get_job "job-2" init_world = (Raise (HTTPException 404), init_world).
Proof. split; reflexivity. Qed.

(** ** Requests refused by the orchestrator *)

(** C6.  A generate-voice request on a job whose status is [pending] fails
    at once with the invalid-transition error (HTTP 400) and leaves the
    whole state as it was: the job's status, progress and every other
    field, the other jobs, the files and the task queue. *)
Theorem C6_generate_voice_pending job_id request now w job :
  w_jobs w !! job_id = Some job →
  job !! "status" = Some (VStatus PENDING) →
  generate_voice job_id request now w = (Raise (HTTPException 400), w).
Proof.
  intros Hjob Hstatus. unfold generate_voice, get_job, getitem. io_unfold.
  rewrite Hjob, Hstatus. reflexivity.
Qed.

Lemma C6_generate_voice_pending_witness :
  generate_voice "job-1"
    {| language_code := "a"; voice := "af_heart"; speed := 1 |} 200
    (upload_video "movie.mp4" [] "job-1" 100 init_world).2
  = (Raise (HTTPException 400),
     (upload_video "movie.mp4" [] "job-1" 100 init_world).2).
Proof.
  apply (C6_generate_voice_pending "job-1" _ 200 _
           (new_job "job-1" "movie.mp4" "storage/uploads/job-1/original.mp4" 100));
    reflexivity.
Defined.

(** ** Upload *)

(** The three outcomes of [upload_video]: refused for its extension with
    nothing changed; refused after the job directory was made (a file in
    the way of the directory, or the content too large) with the job store
    unchanged; or accepted, with the file saved and the job stored. *)
Lemma upload_video_cases filename content uuid4 now w :
  let ext := lower (path_suffix filename) in
  let job_dir := path_join UPLOADS_DIR uuid4 in
  let file_path := path_join job_dir ("original" +:+ ext) in
  ((ext ∉ ALLOWED_VIDEO_EXTENSIONS)
   ∧ upload_video filename content uuid4 now w = (Raise (HTTPException 400), w))
  ∨ (∃ e w', upload_video filename content uuid4 now w = (Raise e, w')
             ∧ w_jobs w' = w_jobs w
             ∧ (e = OSError ∨ MAX_UPLOAD_SIZE < len content))
  ∨ (ext ∈ ALLOWED_VIDEO_EXTENSIONS ∧ len content ≤ MAX_UPLOAD_SIZE
     ∧ ∃ r fs',
         upload_video filename content uuid4 now w
         = (Ok r, World (<[uuid4 := new_job uuid4 filename file_path now]> (w_jobs w))
                        (<[file_path := FBytes content]> fs') (w_tasks w))
         ∧ up_job_id r = uuid4).
Proof.
  intros ext job_dir file_path. unfold upload_video. fold ext.
  destruct (decide (ext ∈ ALLOWED_VIDEO_EXTENSIONS)) as [Hext|Hext].
  2: { left. split; [done|]. by rewrite bool_decide_eq_false_2. }
  right. rewrite bool_decide_eq_true_2 by done. simpl.
  fold job_dir. fold file_path. io_unfold. unfold mkdir.
  destruct (w_fs w !! job_dir) as [[| | |]|] eqn:Hdir;
    try (left; eexists _, _; split_and!; [done..|by left]).
  - destruct (Z.ltb_spec MAX_UPLOAD_SIZE (len content)).
    + left. eexists _, _. split_and!; [done..|by right].
    + right. split_and!; [done..|]. eexists _, _. split; [done|done].
  - destruct (Z.ltb_spec MAX_UPLOAD_SIZE (len content)).
    + left. eexists _, _. split_and!; [done..|by right].
    + right. split_and!; [done..|]. eexists _, _. split; [done|done].
Qed.

(** C10.  A refused upload creates no job: whenever [upload_video] fails,
    the job store is what it was, and it does fail when the extension is
    not an allowed one or the content exceeds the maximum size.
    Conversely the job id returned by an accepted upload names a stored
    job whose status is [pending] and whose video path holds the uploaded
    content. *)
Theorem C10_upload filename content uuid4 now w :
  (∀ e w', upload_video filename content uuid4 now w = (Raise e, w') →
           w_jobs w' = w_jobs w)
  ∧ ((lower (path_suffix filename) ∉ ALLOWED_VIDEO_EXTENSIONS)
     ∨ MAX_UPLOAD_SIZE < len content →
     ∃ e w', upload_video filename content uuid4 now w = (Raise e, w')
             ∧ w_jobs w' = w_jobs w)
  ∧ (∀ r w', upload_video filename content uuid4 now w = (Ok r, w') →
     ∃ job path,
       w_jobs w' !! up_job_id r = Some job
       ∧ job !! "status" = Some (VStatus PENDING)
       ∧ job !! "video_path" = Some (VStr path)
       ∧ w_fs w' !! path = Some (FBytes content)).
Proof.
  destruct (upload_video_cases filename content uuid4 now w)
    as [[Hext Hrun]|[(e0 & w0 & Hrun & Hjobs & Hwhy)|(Hext & Hsize & r0 & fs0 & Hrun & Hid)]];
    rewrite Hrun; split_and!.
  - by intros e w' [= <- <-].
  - intros _. by eexists _, _.
  - done.
  - by intros e w' [= <- <-].
  - intros _. by eexists _, _.
  - done.
  - done.
  - intros [Hbad|Hbig]; [done|lia].
  - intros r w' [= <- <-]. rewrite Hid. simpl.
    eexists _, _. split_and!.
    + apply lookup_insert_eq.
    + reflexivity.
    + reflexivity.
    + apply lookup_insert_eq.
Qed.

Lemma C10_upload_witness :
  (∃ e w', upload_video "notes.txt" [] "job-9" 100 init_world = (Raise e, w')
           ∧ w_jobs w' = ∅)
  ∧ (∃ job path,
       w_jobs (upload_video "movie.mp4" [] "job-1" 100 init_world).2 !! "job-1"
       = Some job
       ∧ job !! "status" = Some (VStatus PENDING)
       ∧ job !! "video_path" = Some (VStr path)
       ∧ w_fs (upload_video "movie.mp4" [] "job-1" 100 init_world).2 !! path
         = Some (FBytes [])).
Proof.
  split.
  - destruct (C10_upload "notes.txt" [] "job-9" 100 init_world) as (_ & Hrej & _).
    apply Hrej. left. vm_compute. intros H.
    repeat (apply elem_of_cons in H as [H|H]; [discriminate H|]).
    by apply elem_of_nil in H.
  - destruct (C10_upload "movie.mp4" [] "job-1" 100 init_world) as (_ & _ & Hacc).
    destruct (Hacc {| up_job_id := "job-1"; up_filename := "movie.mp4";
                      up_size_bytes := 0;
                      up_message := "Video uploaded successfully. Ready for transcription." |}
                   (upload_video "movie.mp4" [] "job-1" 100 init_world).2)
      as (job & path & H); [reflexivity|].
    exists job, path. exact H.
Defined.

(** ** Actions and relations on the process state *)

Section respects.
Context (R : relation world) `{!PreOrder R}.

Lemma respects_ret {A} (a : A) : respects R (mret a).
Proof. intros w. simpl. reflexivity. Qed.

Lemma respects_raise {A} (e : exn) : respects R (@raise A e).
Proof. intros w. simpl. reflexivity. Qed.

Lemma respects_lift {A} (r : result A) : respects R (lift r).
Proof. intros w. simpl. reflexivity. Qed.

Lemma respects_bind {A B} (m : io A) (f : A → io B) :
  respects R m → (∀ a, respects R (f a)) → respects R (m ≫= f).
Proof.
  intros Hm Hf w. unfold mbind, io_bind. specialize (Hm w).
  destruct (m w) as [[a|e] w1]; simpl in *; [|done].
  etrans; [done|apply Hf].
Qed.

Lemma respects_try_except {A} (body : io A) (handler : exn → io A) :
  respects R body → (∀ e, respects R (handler e)) →
  respects R (try_except body handler).
Proof.
  intros Hm Hh w. unfold try_except. specialize (Hm w).
  destruct (body w) as [[a|e] w1]; simpl in *; [done|].
  etrans; [done|apply Hh].
Qed.

Lemma respects_for_each {A S} (body : S → A → io S) (xs : list A) (acc : S) :
  (∀ acc x, x ∈ xs → respects R (body acc x)) →
  respects R (for_each body xs acc).
Proof.
  revert acc. induction xs as [|x xs IH]; intros acc Hbody; simpl.
  - apply respects_ret.
  - apply respects_bind.
    + apply Hbody. by left.
    + intros acc'. apply IH. intros acc'' y Hy. apply Hbody. by right.
Qed.

(** Actions that only read the state. *)
Lemma respects_get_job job_id : respects R (get_job job_id).
Proof. intros w. unfold get_job. destruct (_ !! _); simpl; reflexivity. Qed.

Lemma respects_lookup_job job_id : respects R (lookup_job job_id).
Proof. intros w. unfold lookup_job. destruct (_ !! _); simpl; reflexivity. Qed.

Lemma respects_getitem d key : respects R (getitem d key).
Proof.
  unfold getitem. destruct (_ !! _); [apply respects_ret|apply respects_raise].
Qed.

Lemma respects_as_str v : respects R (as_str v).
Proof. destruct v; first [apply respects_ret|apply respects_raise]. Qed.

Lemma respects_with_file {A} path e (k : file → result A) :
  respects R (with_file path e k).
Proof. intros w. unfold with_file. destruct (_ !! _); simpl; reflexivity. Qed.

Lemma respects_reading {A} (k : gmap string file → result A) :
  respects R (reading k).
Proof. intros w. simpl. reflexivity. Qed.

Lemma respects_new_VideoService C : respects R (new_VideoService C).
Proof.
  unfold new_VideoService.
  destruct (ffmpeg_available C); [apply respects_ret|apply respects_raise].
Qed.

(** Actions that change the files or the task queue only. *)
Context (Hfiles : ∀ w fs tasks, R w (World (w_jobs w) fs tasks)).

Lemma respects_add_task t : respects R (add_task t).
Proof. intros w. apply Hfiles. Qed.

Lemma respects_mkdir path : respects R (mkdir path).
Proof.
  intros w. unfold mkdir.
  destruct (_ !! _) as [[| | |]|]; simpl; first [reflexivity|apply Hfiles].
Qed.

Lemma respects_write_file path f : respects R (write_file path f).
Proof. intros w. apply Hfiles. Qed.
End respects.

#[global] Instance keeps_progress_preorder : PreOrder keeps_progress.
Proof.
  split.
  - by intros w Hw.
  - intros w1 w2 w3 H12 H23 Hw. by apply H23, H12.
Qed.

(** ** The progress invariant *)

Lemma segment_progress_bounds (i total : Z) :
  0 ≤ i < total → 20 ≤ segment_progress i total ≤ 79.
Proof.
  intros Hi. unfold segment_progress.
  set (x := (inject_Z i / inject_Z total * 60)%Q).
  assert (Hr0 : (0 <= inject_Z i / inject_Z total)%Q)
    by (apply ratio_nonneg; lia).
  assert (Hr1 : (inject_Z i / inject_Z total < 1)%Q).
  { apply Qlt_shift_div_r; [apply inject_Z_pos; lia|].
    rewrite Qmult_1_l, <- Zlt_Qlt. lia. }
  assert (Hx0 : (0 <= x)%Q) by (by apply Qmult_le_0_compat).
  assert (Hx1 : (x < inject_Z 60)%Q).
  { unfold x. change (inject_Z 60) with (1 * 60)%Q.
    by apply Qmult_lt_compat_r. }
  pose proof (py_int_nonneg x Hx0). pose proof (py_int_lt x 60 Hx0 Hx1). lia.
Qed.

Lemma task_update_progress_ok kwargs : task_update kwargs → kw_progress_ok kwargs.
Proof.
  destruct 1 as [| | | | | |i total Hi| | | |];
    try (vm_compute; try split; discriminate).
  unfold kw_progress_ok, kw_segment. rewrite lookup_insert_eq.
  pose proof (segment_progress_bounds i total Hi). lia.
Qed.

Lemma update_job_keeps_progress job_id kwargs now :
  kw_progress_ok kwargs → respects keeps_progress (update_job job_id kwargs now).
Proof.
  intros Hkw w Hw. unfold update_job.
  destruct (w_jobs w !! job_id) as [job|] eqn:Hjob; [|done].
  intros id job'. simpl. destruct (decide (id = job_id)) as [->|Hne].
  - rewrite lookup_insert_eq. intros [= <-].
    rewrite lookup_insert_ne by done. rewrite lookup_union.
    unfold kw_progress_ok in Hkw. destruct (Hw job_id job Hjob) as (p & -> & Hp).
    destruct (kwargs !! "progress") as [[]|]; simpl; try done; by eexists.
  - rewrite lookup_insert_ne by done. apply Hw.
Qed.

Lemma files_keep_progress w fs tasks :
  keeps_progress w (World (w_jobs w) fs tasks).
Proof. intros Hw. exact Hw. Qed.

Lemma store_new_job_keeps_progress job_id filename file_path now :
  respects keeps_progress (store_job job_id (new_job job_id filename file_path now)).
Proof.
  intros w Hw id job. simpl. destruct (decide (id = job_id)) as [->|Hne].
  - rewrite lookup_insert_eq. intros [= <-]. exists 0. split; [reflexivity|lia].
  - rewrite lookup_insert_ne by done. apply Hw.
Qed.

Ltac respects_step R Hfiles :=
  lazymatch goal with
  | |- respects _ (mbind _ _) => apply (respects_bind R); [|intros ?]
  | |- respects _ (try_except _ _) => apply (respects_try_except R); [|intros ?]
  | |- respects _ (mret _) => apply (respects_ret R)
  | |- respects _ (raise _) => apply (respects_raise R)
  | |- respects _ (lift _) => apply (respects_lift R)
  | |- respects _ (get_job _) => apply (respects_get_job R)
  | |- respects _ (lookup_job _) => apply (respects_lookup_job R)
  | |- respects _ (getitem _ _) => apply (respects_getitem R)
  | |- respects _ (as_str _) => apply (respects_as_str R)
  | |- respects _ (with_file _ _ _) => apply (respects_with_file R)
  | |- respects _ (reading _) => apply (respects_reading R)
  | |- respects _ (new_VideoService _) => apply (respects_new_VideoService R)
  | |- respects _ (add_task _) => apply (respects_add_task R Hfiles)
  | |- respects _ (mkdir _) => apply (respects_mkdir R Hfiles)
  | |- respects _ (write_file _ _) => apply (respects_write_file R Hfiles)
  | |- respects _ (match ?x with _ => _ end) => destruct x
  end.

Lemma upload_video_keeps_progress filename content uuid4 now :
  respects keeps_progress (upload_video filename content uuid4 now).
Proof.
  unfold upload_video.
  repeat lazymatch goal with
    | |- respects _ (store_job _ _) => apply store_new_job_keeps_progress
    | |- _ => respects_step keeps_progress files_keep_progress
    end.
Qed.

Lemma start_transcription_keeps_progress job_id language now :
  respects keeps_progress (start_transcription job_id language now).
Proof.
  unfold start_transcription.
  repeat lazymatch goal with
    | |- respects _ (update_job _ _ _) =>
        apply update_job_keeps_progress; vm_compute; split; discriminate
    | |- _ => respects_step keeps_progress files_keep_progress
    end.
Qed.

Lemma update_transcript_keeps_progress job_id segments now :
  respects keeps_progress (update_transcript job_id segments now).
Proof.
  unfold update_transcript.
  repeat lazymatch goal with
    | |- respects _ (update_job _ _ _) =>
        apply update_job_keeps_progress; vm_compute; done
    | |- _ => respects_step keeps_progress files_keep_progress
    end.
Qed.

Lemma generate_voice_keeps_progress job_id request now :
  respects keeps_progress (generate_voice job_id request now).
Proof.
  unfold generate_voice.
  repeat lazymatch goal with
    | |- respects _ (update_job _ _ _) =>
        apply update_job_keeps_progress; vm_compute; split; discriminate
    | |- _ => respects_step keeps_progress files_keep_progress
    end.
Qed.

Lemma merge_video_keeps_progress job_id now :
  respects keeps_progress (merge_video job_id now).
Proof.
  unfold merge_video.
  repeat lazymatch goal with
    | |- respects _ (update_job _ _ _) =>
        apply update_job_keeps_progress; vm_compute; split; discriminate
    | |- _ => respects_step keeps_progress files_keep_progress
    end.
Qed.

Lemma step_keeps_progress w w' : step w w' → keeps_progress w w'.
Proof.
  destruct 1.
  - apply upload_video_keeps_progress.
  - apply start_transcription_keeps_progress.
  - apply update_transcript_keeps_progress.
  - apply generate_voice_keeps_progress.
  - apply merge_video_keeps_progress.
  - by apply update_job_keeps_progress, task_update_progress_ok.
  - apply files_keep_progress.
Qed.

Lemma init_world_progress : progress_in_range init_world.
Proof. intros id job. simpl. by rewrite lookup_empty. Qed.

(** C9.  In every state the process can reach from the empty job store by
    requests and by the store updates of its background tasks, in any
    interleaving, every job has an integer progress between 0 and 100; and
    the progress [20 + int((i / total_segments) * 60)] written for the
    segment at position [i < total_segments] lies between 20 and 79, so it
    never exceeds 80. *)
Theorem C9_progress_in_range w i total_segments :
  rtc step init_world w → 0 ≤ i < total_segments →
  progress_in_range w
  ∧ 20 ≤ segment_progress i total_segments ≤ 80.
Proof.
  intros Hreach Hi. split.
  - assert (H : keeps_progress init_world w).
    { induction Hreach as [|w1 w2 w3 H12 _ IH]; [done|].
      etrans; [by apply step_keeps_progress|done]. }
    apply H, init_world_progress.
  - pose proof (segment_progress_bounds i total_segments Hi). lia.
Qed.

Lemma C9_progress_in_range_witness :
  progress_in_range (upload_video "movie.mp4" [] "job-1" 100 init_world).2
  ∧ 20 ≤ segment_progress 1 5 ≤ 80.
Proof.
  apply (C9_progress_in_range _ 1 5); [|lia].
  apply rtc_once, step_upload.
Defined.

(** ** The background tasks run by steps of the transition system *)

Lemma files_steps w fs tasks : rtc step w (World (w_jobs w) fs tasks).
Proof. apply rtc_once, step_files. Qed.

Lemma update_job_steps job_id kwargs now :
  task_update kwargs → respects (rtc step) (update_job job_id kwargs now).
Proof. intros Hkw w. by apply rtc_once, step_task_update. Qed.

Lemma enumerate_elem {A} (k i : Z) (x : A) (l : list A) :
  (i, x) ∈ enumerate k l → k ≤ i < k + len l.
Proof.
  revert k. induction l as [|y l IH]; intros k; simpl.
  - by intros ?%elem_of_nil.
  - unfold len in *. simpl length.
    intros [[= -> ->]|Hin%IH]%elem_of_cons; lia.
Qed.

Ltac task_update_tac :=
  lazymatch goal with
  | |- task_update kw_extracting => apply tu_extracting
  | |- task_update kw_transcribing_audio => apply tu_transcribing_audio
  | |- task_update kw_generating_srt => apply tu_generating_srt
  | |- task_update (kw_transcribed _ _) => apply tu_transcribed
  | |- task_update (kw_failed _ _) => apply tu_failed
  | |- task_update kw_init_tts => apply tu_init_tts
  | |- task_update kw_concatenating => apply tu_concatenating
  | |- task_update (kw_voice_generated _ _ _ _) => apply tu_voice_generated
  | |- task_update kw_merging_audio => apply tu_merging_audio
  | |- task_update (kw_completed _ _) => apply tu_completed
  end.

Ltac steps_tac :=
  repeat lazymatch goal with
    | |- respects _ (update_job _ _ _) => apply update_job_steps; task_update_tac
    | |- _ => respects_step (rtc step) files_steps
    end.

Lemma run_transcription_steps C job_id video_path language now :
  respects (rtc step) (run_transcription C job_id video_path language now).
Proof. unfold run_transcription, extract_audio, transcribe. steps_tac. Qed.

Lemma voice_loop_body_steps C job_id lang_code voice speed dir total now acc i seg :
  0 ≤ i < total →
  respects (rtc step)
    (voice_loop_body C job_id lang_code voice speed dir total now acc (i, seg)).
Proof.
  intros Hi. unfold voice_loop_body, synthesize_one, generate_to_file.
  apply (respects_bind (rtc step)).
  { by apply update_job_steps, tu_segment. }
  intros _. steps_tac.
Qed.

Lemma run_voice_generation_steps C job_id segments lang_code voice speed now :
  respects (rtc step)
    (run_voice_generation C job_id segments lang_code voice speed now).
Proof.
  unfold run_voice_generation, voice_stage, voice_loop, voice_assemble,
    get_video_duration, write_concatenated_audio.
  repeat lazymatch goal with
    | |- respects _ (update_job _ _ _) => apply update_job_steps; task_update_tac
    | |- respects _ (for_each _ _ _) =>
        apply (respects_for_each (rtc step));
        intros acc [i seg] Hin%enumerate_elem;
        apply voice_loop_body_steps; lia
    | |- _ => respects_step (rtc step) files_steps
    end.
Qed.

Lemma run_video_merge_steps C job_id now :
  respects (rtc step) (run_video_merge C job_id now).
Proof. unfold run_video_merge, replace_audio. steps_tac. Qed.

(** ** Paths of the segment files *)

Lemma str_length_app (a b : string) :
  String.length (a +:+ b) = (String.length a + String.length b)%nat.
Proof.
  induction a as [|x a IH]; [done|]. rewrite str_app_cons. simpl. by rewrite IH.
Qed.

Lemma rfind_app_None c (a b : string) :
  rfind c a = None → rfind c b = None → rfind c (a +:+ b) = None.
Proof.
  intros Ha Hb. induction a as [|x a IH]; [done|].
  rewrite str_app_cons. simpl in *.
  destruct (rfind c a); [done|]. rewrite IH by done.
  by destruct (decide (x = c)).
Qed.

Lemma rfind_app_Some c (a b : string) (k : nat) :
  rfind c b = Some k → rfind c (a +:+ b) = Some (String.length a + k)%nat.
Proof.
  intros Hb. induction a as [|x a IH]; [done|].
  rewrite str_app_cons. simpl. by rewrite IH.
Qed.

Lemma str_take_app (a b : string) : str_take (String.length a) (a +:+ b) = a.
Proof.
  unfold str_take. induction a as [|x a IH].
  - simpl. by destruct b.
  - rewrite str_app_cons. simpl. by f_equal.
Qed.

Lemma path_parent_join (dir name : string) :
  rfind "/" name = None → path_parent (path_join dir name) = dir.
Proof.
  intros Hname. unfold path_parent, path_join.
  rewrite (rfind_app_Some _ dir _ 0).
  - rewrite Nat.add_0_r. apply str_take_app.
  - change (rfind "/" (String "/" name) = Some 0%nat). simpl.
    rewrite Hname. done.
Qed.

Lemma path_join_ne (dir name : string) : path_join dir name ≠ dir.
Proof.
  intros H%(f_equal String.length). unfold path_join in H.
  rewrite !str_length_app in H. simpl in H. lia.
Qed.

Lemma digit_char_no_slash (d : Z) : 0 ≤ d < 10 → digit_char d ≠ "/"%char.
Proof.
  intros Hd.
  assert (d = 0 ∨ d = 1 ∨ d = 2 ∨ d = 3 ∨ d = 4 ∨ d = 5 ∨ d = 6 ∨ d = 7
          ∨ d = 8 ∨ d = 9) as Hcases by lia.
  repeat destruct Hcases as [->|Hcases]; try subst d; discriminate.
Qed.

Lemma rfind_cons_None c x (s : string) :
  x ≠ c → rfind c s = None → rfind c (String x s) = None.
Proof. intros Hx Hs. cbn [rfind]. rewrite Hs. by rewrite decide_False. Qed.

Lemma dec_digits_no_slash fuel n acc :
  rfind "/" acc = None → rfind "/" (dec_digits fuel n acc) = None.
Proof.
  revert n acc. induction fuel as [|fuel IH]; intros n acc Hacc; [done|].
  cbn [dec_digits].
  assert (Hd : rfind "/" (String (digit_char (n `mod` 10)) acc) = None).
  { apply rfind_cons_None; [|done].
    apply digit_char_no_slash, Z.mod_pos_bound. lia. }
  destruct (n <? 10); [done|]. by apply IH.
Qed.

Lemma zeros_no_slash k : rfind "/" (zeros k) = None.
Proof. induction k as [|k IH]; [done|]. simpl. by rewrite IH. Qed.

Lemma format_0d_no_slash width n : rfind "/" (format_0d width n) = None.
Proof.
  unfold format_0d, str_of_nat. destruct (n <? 0).
  - apply rfind_app_None; [done|].
    apply rfind_app_None; [apply zeros_no_slash|by apply dec_digits_no_slash].
  - apply rfind_app_None; [apply zeros_no_slash|by apply dec_digits_no_slash].
Qed.

Lemma path_parent_segment_file dir i : path_parent (segment_file dir i) = dir.
Proof.
  apply path_parent_join.
  apply rfind_app_None; [done|].
  apply rfind_app_None; [apply format_0d_no_slash|done].
Qed.

(** ** The segment synthesis driver *)

Lemma dir_free_insert fs dir path f :
  path ≠ dir → dir_free fs dir → dir_free (<[path := f]> fs) dir.
Proof. intros Hne H. unfold dir_free. by rewrite lookup_insert_ne. Qed.

(** One synthesis inside its [try]: whatever the engine does, the action
    returns normally; the entry is appended exactly when the synthesis did
    not raise. *)
Lemma synthesize_one_result C lang dir voice speed acc i seg w :
  strip (ts_text seg) ≠ "" →
  w_fs w !! dir = Some FDir →
  ∃ w', synthesize_one C lang dir voice speed acc i seg (strip (ts_text seg)) w
        = (Ok (acc ++ option_list (synthesized C lang dir voice speed (i, seg))), w')
        ∧ w_fs w' !! dir = Some FDir.
Proof.
  intros Htext Hdir. unfold synthesize_one, generate_to_file, synthesized.
  rewrite decide_False by done. io_unfold.
  destruct (generate C lang (strip (ts_text seg)) voice speed) as [[audio sr]|e];
    simpl.
  - rewrite path_parent_segment_file. unfold mkdir. rewrite Hdir. simpl.
    eexists. split; [reflexivity|]. simpl.
    rewrite lookup_insert_ne by apply path_join_ne. done.
  - eexists. split; [by rewrite app_nil_r|exact Hdir].
Qed.


Lemma omap_option_list {A B} (f : A → option B) (x : A) (xs : list A) :
  omap f (x :: xs) = option_list (f x) ++ omap f xs.
Proof. simpl. by destruct (f x). Qed.


(** The driver of [services/tts.py] returns the same list. *)
Lemma generate_segments_result C lang segments dir voice speed w :
  dir_free (w_fs w) dir →
  ∃ w', generate_segments C lang segments dir voice speed w
        = (Ok (omap (synthesized C lang dir voice speed) (enumerate 0 segments)), w').
Proof.
  intros Hdir. unfold generate_segments.
  assert (Hloop : ∀ xs acc w1, w_fs w1 !! dir = Some FDir →
    ∃ w', for_each
            (λ results '(i, seg),
               let text := strip (ts_text seg) in
               if decide (text = "") then mret results
               else synthesize_one C lang dir voice speed results i seg text)
            xs acc w1
          = (Ok (acc ++ omap (synthesized C lang dir voice speed) xs), w')).
  { induction xs as [|[i seg] xs IH]; intros acc w1 Hw1.
    - eexists. simpl. by rewrite app_nil_r.
    - cbn [for_each]. unfold mbind at 1. unfold io_bind.
      rewrite omap_option_list, app_assoc. cbn zeta.
      destruct (decide (strip (ts_text seg) = "")) as [Hempty|Htext].
      + replace (synthesized C lang dir voice speed (i, seg)) with (@None SynthSegment)
          by (unfold synthesized; by rewrite decide_True).
        simpl. rewrite app_nil_r. by apply IH.
      + destruct (synthesize_one_result C lang dir voice speed acc i seg w1 Htext Hw1)
          as (w2 & -> & Hw2).
        by apply IH. }
  unfold mbind at 1. unfold io_bind, mkdir.
  destruct Hdir as [Hdir|Hdir]; rewrite Hdir.
  - destruct (Hloop (enumerate 0 segments) [] (set_fs (<[dir:=FDir]> (w_fs w)) w))
      as (w' & Hw'); [simpl; apply lookup_insert_eq|].
    exists w'. exact Hw'.
  - destruct (Hloop (enumerate 0 segments) [] w) as (w' & Hw'); [done|].
    exists w'. exact Hw'.
Qed.

(** ** The voice-generation stage *)

Lemma io_bind_run {A B} (m : io A) (f : A → io B) (w : world) :
  (m ≫= f) w
  = match m w with
    | (Ok a, w') => f a w'
    | (Raise e, w') => (Raise e, w')
    end.
Proof. reflexivity. Qed.

#[global] Instance keeps_job_preorder job_id : PreOrder (keeps_job job_id).
Proof.
  split.
  - by intros w Hw.
  - intros w1 w2 w3 H12 H23 Hw. by apply H23, H12.
Qed.

Lemma files_keep_job job_id w fs tasks :
  keeps_job job_id w (World (w_jobs w) fs tasks).
Proof. intros Hw. exact Hw. Qed.

Lemma update_job_keeps_job job_id id kwargs now :
  respects (keeps_job job_id) (update_job id kwargs now).
Proof.
  intros w Hw. unfold update_job.
  destruct (w_jobs w !! id) as [job|] eqn:Hjob; [|done]. simpl.
  destruct (decide (job_id = id)) as [->|Hne].
  - rewrite lookup_insert_eq. by eexists.
  - by rewrite lookup_insert_ne.
Qed.

Ltac keeps_job_tac id :=
  repeat lazymatch goal with
    | |- respects _ (update_job _ _ _) => apply update_job_keeps_job
    | |- _ => respects_step (keeps_job id) (files_keep_job id)
    end.

Lemma voice_loop_keeps_job C id job_id segments lang_code voice speed dir now :
  respects (keeps_job id)
    (voice_loop C job_id segments lang_code voice speed dir now).
Proof.
  unfold voice_loop. apply (respects_for_each (keeps_job id)).
  intros acc [i seg] _.
  unfold voice_loop_body, synthesize_one, generate_to_file. keeps_job_tac id.
Qed.

Lemma voice_assemble_keeps_job C id job_id video_path job_dir generated now :
  respects (keeps_job id)
    (voice_assemble C job_id video_path job_dir generated now).
Proof.
  unfold voice_assemble, get_video_duration, write_concatenated_audio.
  keeps_job_tac id.
Qed.



(* ===================================================================== *)
(** * Further properties of the code *)
(* ===================================================================== *)

(** ** The content of the assembled buffer *)

Lemma place_segment_cell fs rate total (out out' : list sample) seg p v :
  len out = total → 0 ≤ p < total → 0 ≤ start_sample_of (ss_start seg) rate →
  out !! Z.to_nat p = Some v →
  place_segment fs rate total out seg = Ok out' →
  out' !! Z.to_nat p = Some (cell_after fs rate total [seg] p v).
Proof.
  intros Hlen Hp Hstart Hv. unfold place_segment. cbn [cell_after].
  destruct (load_clip fs rate seg) as [[clip|]|]; simpl; [|by intros [= <-]|done].
  destruct (Z.le_gt_cases (start_sample_of (ss_start seg) rate) total) as [Hin|Hlate].
  - destruct (write_clip_lookup rate total out clip (ss_start seg) Hlen)
      as (out1 & -> & _ & Hcov & Hrest); [lia|].
    intros [= <-]. case_decide as Hd.
    + rewrite (Hcov p Hd). destruct Hd as (H1 & H2 & H3).
      destruct (clip !! Z.to_nat (p - start_sample_of (ss_start seg) rate))
        as [x|] eqn:Hx; [done|].
      apply lookup_ge_None in Hx. unfold len in H2. lia.
    + rewrite (Hrest p) by (done || lia). done.
  - intros Hw. apply write_clip_late_unchanged in Hw; [|done|lia]. subst out'.
    rewrite decide_False; [done|]. unfold in_dest. lia.
Qed.

Lemma for_each_place_cell fs rate total segs (out out' : list sample) p v :
  len out = total → 0 ≤ p < total →
  Forall (λ seg, 0 ≤ start_sample_of (ss_start seg) rate) segs →
  out !! Z.to_nat p = Some v →
  for_each (place_segment fs rate total) segs out = Ok out' →
  out' !! Z.to_nat p = Some (cell_after fs rate total segs p v).
Proof.
  intros Hlen Hp Hall. revert out v Hlen.
  induction Hall as [|seg segs Hseg _ IH]; intros out v Hlen Hv; simpl.
  - by intros [= <-].
  - destruct (place_segment fs rate total out seg) as [out1|] eqn:Hplace;
      simpl; [|done].
    intros Hrest. eapply IH; [| |exact Hrest].
    + pose proof (place_segment_length _ _ _ _ _ _ Hplace). unfold len in *. lia.
    + by eapply (place_segment_cell _ _ _ out out1).
Qed.

(** X1.  Every cell of the assembled buffer holds the sample of the last segment
    in list order whose clip covers the cell, and silence when no clip
    covers it. *)
Theorem assembled_cells fs segs d rate (out : list sample) p :
  concatenate_audio_with_timing fs segs d rate = Ok out →
  Forall (λ seg, 0 ≤ start_sample_of (ss_start seg) rate) segs →
  0 ≤ p < total_samples_of d rate →
  out !! Z.to_nat p = Some (cell_after fs rate (total_samples_of d rate) segs p 0).
Proof.
  unfold concatenate_audio_with_timing.
  destruct (Z.ltb_spec (total_samples_of d rate) 0); [done|].
  intros Hout Hall Hp.
  apply (for_each_place_cell fs rate (total_samples_of d rate) segs
           (replicate (Z.to_nat (total_samples_of d rate)) 0) out p 0).
  - apply len_replicate. lia.
  - exact Hp.
  - exact Hall.
  - apply lookup_replicate_2. lia.
  - exact Hout.
Qed.

Lemma assembled_cells_witness :
  ∃ out,
    concatenate_audio_with_timing demo_fs
      [seg_at "a.wav" (1 # 4); seg_at "d.wav" (1 # 2)] 1 8 = Ok out
    ∧ out !! 5%nat = Some 32 ∧ out !! 7%nat = Some 0.
Proof.
  exists [0; 0; 11; 12; 31; 32; 33; 0]. split; [reflexivity|].
  split.
  - apply (assembled_cells demo_fs [seg_at "a.wav" (1 # 4); seg_at "d.wav" (1 # 2)]
             1 8 _ 5); [reflexivity| |vm_compute; split; [discriminate|reflexivity]].
    repeat constructor; vm_compute; discriminate.
  - apply (assembled_cells demo_fs [seg_at "a.wav" (1 # 4); seg_at "d.wav" (1 # 2)]
             1 8 _ 7); [reflexivity| |vm_compute; split; [discriminate|reflexivity]].
    repeat constructor; vm_compute; discriminate.
Defined.

Lemma cell_after_uncovered fs rate total segs p v :
  (∀ seg clip, seg ∈ segs → load_clip fs rate seg = Ok (Some clip) →
     ¬ in_dest (start_sample_of (ss_start seg) rate) (len clip) total p) →
  cell_after fs rate total segs p v = v.
Proof.
  induction segs as [|seg segs IH]; intros Hfree; [done|]. cbn [cell_after].
  destruct (load_clip fs rate seg) as [[clip|]|] eqn:Hclip.
  - rewrite decide_False by (eapply Hfree; [by left|done]).
    apply IH. intros seg' clip' Hin. apply Hfree. by right.
  - apply IH. intros seg' clip' Hin. apply Hfree. by right.
  - apply IH. intros seg' clip' Hin. apply Hfree. by right.
Qed.

(** X2.  Time that no clip covers is silent: a cell outside the destination
    range of every segment holds 0. *)
Theorem assembled_silence fs segs d rate (out : list sample) p :
  concatenate_audio_with_timing fs segs d rate = Ok out →
  Forall (λ seg, 0 ≤ start_sample_of (ss_start seg) rate) segs →
  0 ≤ p < total_samples_of d rate →
  (∀ seg clip, seg ∈ segs → load_clip fs rate seg = Ok (Some clip) →
     ¬ in_dest (start_sample_of (ss_start seg) rate) (len clip)
               (total_samples_of d rate) p) →
  out !! Z.to_nat p = Some 0.
Proof.
  unfold concatenate_audio_with_timing.
  destruct (Z.ltb_spec (total_samples_of d rate) 0); [done|].
  intros Hout Hall Hp Hfree.
  rewrite <- (cell_after_uncovered fs rate (total_samples_of d rate) segs p 0 Hfree).
  apply (for_each_place_cell fs rate (total_samples_of d rate) segs
           (replicate (Z.to_nat (total_samples_of d rate)) 0) out p 0);
    [apply len_replicate; lia|done|done|apply lookup_replicate_2; lia|done].
Qed.

Lemma assembled_silence_witness :
  ∃ out,
    concatenate_audio_with_timing demo_fs
      [seg_at "a.wav" (1 # 4); seg_at "d.wav" (1 # 2)] 1 8 = Ok out
    ∧ out !! 1%nat = Some 0.
Proof.
  exists [0; 0; 11; 12; 31; 32; 33; 0]. split; [reflexivity|].
  apply (assembled_silence demo_fs [seg_at "a.wav" (1 # 4); seg_at "d.wav" (1 # 2)]
           1 8 _ 1); [reflexivity| |vm_compute; split; [discriminate|reflexivity]|].
  - repeat constructor; vm_compute; discriminate.
  - intros seg clip Hin Hclip.
    apply elem_of_cons in Hin as [->|Hin];
      [|apply list_elem_of_singleton in Hin as ->];
      vm_compute in Hclip; injection Hclip as <-;
      intros (H1 & _); vm_compute in H1; by apply H1.
Defined.

(** ** Skipped and unreadable segments *)

Lemma place_segment_skipped fs rate total (out : list sample) seg :
  ¬ has_audio_file fs seg → place_segment fs rate total out seg = Ok out.
Proof.
  intros Hno. unfold place_segment, load_clip.
  destruct (ss_audio_path seg) as [path|] eqn:Hpath; [|done].
  destruct (decide (path = "")) as [->|Hne]; [done|].
  destruct (fs !! path) as [f|] eqn:Hf; [|done].
  exfalso. apply Hno. exists path. by rewrite Hf.
Qed.

(** X3.  A segment without a path, with an empty path or with a path at which
    there is no file is skipped: the assembly is that of the list without
    such segments. *)
Theorem skipped_segments_ignored fs segs d rate :
  concatenate_audio_with_timing fs segs d rate
  = concatenate_audio_with_timing fs (filter (has_audio_file fs) segs) d rate.
Proof.
  unfold concatenate_audio_with_timing.
  destruct (Z.ltb_spec (total_samples_of d rate) 0); [done|].
  set (out0 := replicate _ _). clearbody out0. revert out0.
  induction segs as [|seg segs IH]; intros out; [done|].
  destruct (decide (has_audio_file fs seg)) as [Hyes|Hno].
  - rewrite filter_cons_True by done. cbn [for_each].
    destruct (place_segment fs rate _ out seg); simpl; [apply IH|done].
  - rewrite filter_cons_False by done. cbn [for_each].
    rewrite place_segment_skipped by done. simpl. apply IH.
Qed.

(** X4.  A segment whose path leads to something that is not an audio file (a
    directory, a text or a video file) is not skipped: reading it raises,
    and the whole assembly is lost, whatever follows in the list. *)
Theorem unreadable_segment_aborts fs pre seg post d rate path f (out0 : list sample) :
  concatenate_audio_with_timing fs pre d rate = Ok out0 →
  ss_audio_path seg = Some path → path ≠ "" → fs !! path = Some f →
  (∀ data sr, f ≠ FAudio data sr) →
  concatenate_audio_with_timing fs (pre ++ seg :: post) d rate
  = Raise SoundFileError.
Proof.
  unfold concatenate_audio_with_timing.
  destruct (Z.ltb_spec (total_samples_of d rate) 0); [done|].
  intros Hpre Hpath Hne Hf Hbad. rewrite for_each_app, Hpre. simpl.
  unfold place_segment, load_clip. rewrite Hpath, decide_False, Hf by done.
  destruct f as [| | |data sr]; try done. by destruct (Hbad data sr).
Qed.

Lemma unreadable_segment_aborts_witness :
  concatenate_audio_with_timing (<["notes.txt" := FText "hello"]> demo_fs)
    ([seg_at "a.wav" (1 # 4)] ++ seg_at "notes.txt" 0 :: [seg_at "d.wav" (1 # 2)])
    1 8
  = Raise SoundFileError.
Proof.
  apply (unreadable_segment_aborts _ _ _ _ _ _ "notes.txt" (FText "hello")
           [0; 0; 11; 12; 13; 14; 15; 0]);
    [reflexivity | reflexivity | discriminate | reflexivity | discriminate].
Defined.

(** ** Resampling: length, ends and order *)




Lemma py_int_zero (x : Q) : (x == 0)%Q → py_int x = 0.
Proof.
  intros Hx.
  assert (H0 : (0 <= x)%Q) by (rewrite Hx; apply Qle_refl).
  assert (H1 : (x <= inject_Z 0)%Q) by (rewrite Hx; apply Qle_refl).
  pose proof (py_int_nonneg x H0). pose proof (py_int_le x 0 H0 H1). lia.
Qed.

Lemma source_index_first (n m : Z) : 1 ≤ n → 1 ≤ m → source_index n m 0 = 0.
Proof.
  intros Hn Hm. unfold source_index, linspace_at.
  destruct (Z.eqb_spec 0 (m - 1)) as [H0|H0].
  - destruct (Z.ltb_spec 1 m); [lia|]. cbn [andb].
    destruct (Z.ltb_spec 0 (m - 1)); [lia|].
    apply py_int_zero. change (inject_Z 0) with 0%Q. ring.
  - rewrite andb_false_r.
    destruct (Z.ltb_spec 0 (m - 1)); apply py_int_zero;
      change (inject_Z 0) with 0%Q; ring.
Qed.

Lemma source_index_last (n m : Z) : 2 ≤ m → source_index n m (m - 1) = n - 1.
Proof.
  intros Hm. unfold source_index, linspace_at.
  destruct (Z.ltb_spec 1 m); [|lia]. rewrite Z.eqb_refl. cbn [andb].
  apply py_int_inject_Z.
Qed.

Lemma source_index_mono (n m i j : Z) :
  1 ≤ n → 0 ≤ i → i ≤ j → j < m → source_index n m i ≤ source_index n m j.
Proof.
  intros Hn Hi Hij Hj.
  destruct (decide (j = m - 1)) as [->|Hjm].
  - destruct (decide (i = m - 1)) as [->|Him]; [done|].
    rewrite source_index_last by lia.
    pose proof (source_index_bounds n m i). lia.
  - unfold source_index. apply py_int_mono.
    + apply linspace_at_bounds; lia.
    + unfold linspace_at.
      destruct (Z.eqb_spec i (m - 1)); [lia|].
      destruct (Z.eqb_spec j (m - 1)); [lia|].
      rewrite !andb_false_r.
      destruct (Z.ltb_spec 0 (m - 1)); [|lia].
      apply Qplus_le_l, Qmult_le_compat_r.
      * rewrite <- Zle_Qle. lia.
      * apply Qle_shift_div_l; [apply inject_Z_pos; lia|].
        rewrite Qmult_0_l. unfold Qminus. rewrite Qplus_0_r.
        apply inject_Z_nonneg. lia.
Qed.

(** X6.  Resampling keeps the ends and the order of the clip: the first output
    sample is the first source sample, the last output sample (when there
    are at least two) is the last source sample, and the source positions
    read never go backwards. *)
Theorem resample_ends_and_order (data : list sample) (sr rate : Z) clip :
  0 < sr → 0 < rate → resample data sr rate = Ok clip →
  (1 ≤ len clip → clip !! 0%nat = data !! 0%nat)
  ∧ (2 ≤ len clip → last clip = last data)
  ∧ (∀ i j, 0 ≤ i → i ≤ j → j < len clip →
       source_index (len data) (len clip) i ≤ source_index (len data) (len clip) j).
Proof.
  intros Hsr Hrate Hclip.
  destruct (resample_ok data sr rate Hsr Hrate) as (clip' & Hclip' & Hlen & Hsrc).
  rewrite Hclip in Hclip'. injection Hclip' as <-.
  assert (Hdata : 1 ≤ len clip → 1 ≤ len data).
  { intros H1. destruct (Hsrc 0) as [Hb _]; lia. }
  split_and!.
  - intros H1. destruct (Hsrc 0) as [_ H0]; [lia|].
    rewrite source_index_first in H0 by lia. exact H0.
  - intros H2. destruct (Hsrc (len clip - 1)) as [_ Hl]; [lia|].
    rewrite source_index_last in Hl by lia.
    rewrite !last_lookup.
    replace (Nat.pred (length clip)) with (Z.to_nat (len clip - 1))
      by (unfold len; lia).
    replace (Nat.pred (length data)) with (Z.to_nat (len data - 1))
      by (unfold len; lia).
    exact Hl.
  - intros i j Hi Hij Hj. apply source_index_mono; lia.
Qed.

Lemma resample_ends_and_order_witness :
  [21; 22; 24] !! 0%nat = [21; 22; 23; 24] !! 0%nat
  ∧ last [21; 22; 24] = last [21; 22; 23; 24].
Proof.
  destruct (resample_ends_and_order [21; 22; 23; 24] 4 3 [21; 22; 24])
    as (H1 & H2 & _); [lia|lia|reflexivity|].
  split; [apply H1|apply H2]; vm_compute; discriminate.
Defined.

(** ** Segments that start before time zero *)

(** X7.  A clip that starts before time zero and also ends before it is written
    counted from the end of the buffer: Python reads the negative slice
    bounds as distances from the end. *)
Theorem negative_start_wraps (rate total : Z) (out clip : list sample)
    (start_time : Q) :
  len out = total →
  start_sample_of start_time rate + len clip < 0 →
  0 ≤ total + start_sample_of start_time rate →
  write_clip rate total out start_time clip
  = Ok (take (Z.to_nat (total + start_sample_of start_time rate)) out
          ++ clip
          ++ drop (Z.to_nat (total + start_sample_of start_time rate + len clip)) out).
Proof.
  intros Hlen Hend Hwrap. unfold write_clip.
  set (s := start_sample_of start_time rate) in *.
  pose proof (len_nonneg clip) as Hn.
  rewrite (Z.min_l (s + len clip) total) by lia.
  replace (s + len clip - s) with (len clip) by lia.
  rewrite py_prefix_take by lia.
  rewrite take_ge by (unfold len; lia).
  unfold set_slice, slice_index. rewrite Hlen.
  destruct (Z.ltb_spec s 0); [|lia].
  destruct (Z.ltb_spec (s + len clip) 0); [|lia].
  rewrite !Z.max_l by lia.
  rewrite decide_True by (unfold len in *; lia).
  replace (s + total) with (total + s) by lia.
  replace (Z.to_nat (total + s) + Z.to_nat (s + len clip + total - (total + s)))%nat
    with (Z.to_nat (total + s + len clip)) by lia.
  done.
Qed.

Lemma negative_start_wraps_witness :
  write_clip 8 8 [0; 0; 0; 0; 0; 0; 0; 0] (- (5 # 8)) [31; 32; 33]
  = Ok [0; 0; 0; 31; 32; 33; 0; 0].
Proof.
  apply (negative_start_wraps 8 8 [0; 0; 0; 0; 0; 0; 0; 0] [31; 32; 33] (- (5 # 8)));
    vm_compute; first [reflexivity | discriminate].
Defined.

(** ** What the synthesis driver returns *)

Lemma enumerate_fmap_snd {A} (k : Z) (l : list A) : (enumerate k l).*2 = l.
Proof.
  revert k. induction l as [|x l IH]; intros k; [done|]. simpl. by rewrite IH.
Qed.

Lemma synthesized_Some C lang dir voice speed i seg entry :
  synthesized C lang dir voice speed (i, seg) = Some entry →
  entry = synth_entry seg (segment_file dir i) (strip (ts_text seg))
  ∧ strip (ts_text seg) ≠ ""
  ∧ is_Ok (generate C lang (strip (ts_text seg)) voice speed) = true.
Proof.
  unfold synthesized. case_decide as Htext; [done|].
  destruct (generate C lang (strip (ts_text seg)) voice speed); [|done].
  by intros [= <-].
Qed.

Lemma omap_sublist_fmap {A B K} (f : A → option B) (g : B → K) (h : A → K)
    (l : list A) :
  (∀ x y, f x = Some y → g y = h x) → (g <$> omap f l) `sublist_of` (h <$> l).
Proof.
  intros Hfg. induction l as [|x l IH]; [constructor|].
  simpl. destruct (f x) as [y|] eqn:Hy; simpl.
  - rewrite (Hfg x y Hy). by constructor.
  - by constructor.
Qed.

Lemma enumerate_lookup {A} (k i : Z) (x : A) (l : list A) :
  (i, x) ∈ enumerate k l → l !! Z.to_nat (i - k) = Some x ∧ k ≤ i.
Proof.
  revert k. induction l as [|y l IH]; intros k; simpl.
  - by intros ?%elem_of_nil.
  - intros [[= -> ->]|Hin%IH]%elem_of_cons.
    + by rewrite Z.sub_diag.
    + destruct Hin as [Hl Hk]. split; [|lia].
      replace (Z.to_nat (i - k)) with (S (Z.to_nat (i - (k + 1)))) by lia.
      done.
Qed.

(** X8.  The result list of the TTS driver is drawn from the transcript in its
    order: the (id, start, end) triples of the entries are a sublist of those
    of the transcript segments, no entry has an empty text, every entry's
    text is the stripped text of its segment, and every entry names the
    segment-indexed file of its position in the transcript. *)
Theorem generate_segments_sublist C lang segments dir voice speed w :
  dir_free (w_fs w) dir →
  ∃ generated,
    (generate_segments C lang segments dir voice speed w).1 = Ok generated
    ∧ ((λ s, (ss_id s, ss_start s, ss_end s)) <$> generated)
        `sublist_of` ((λ t, (ts_id t, ts_start t, ts_end t)) <$> segments)
    ∧ Forall (λ s, ss_text s ≠ ""
                   ∧ ∃ i seg, segments !! Z.to_nat i = Some seg ∧ 0 ≤ i
                       ∧ ss_text s = strip (ts_text seg)
                       ∧ ss_audio_path s = Some (segment_file dir i)) generated.
Proof.
  intros Hdir.
  destruct (generate_segments_result C lang segments dir voice speed w Hdir)
    as (w' & ->).
  eexists. split; [done|]. split.
  - rewrite <- (enumerate_fmap_snd 0 segments) at 2.
    rewrite <- list_fmap_compose.
    apply omap_sublist_fmap. intros [i seg] entry Hentry.
    apply synthesized_Some in Hentry as (-> & _). done.
  - apply Forall_forall. intros entry Hin.
    apply list_elem_of_omap in Hin as ([i seg] & Hin & Hentry).
    apply synthesized_Some in Hentry as (-> & Htext & _).
    split; [done|]. exists i, seg.
    apply enumerate_lookup in Hin as [Hl Hk]. rewrite Z.sub_0_r in Hl.
    split_and!; done.
Qed.

Lemma generate_segments_sublist_witness :
  ∃ generated,
    (generate_segments demo_C "en-us" demo_segments
       "storage/uploads/job-1/segments" "af_heart" 1 demo_world).1 = Ok generated
    ∧ ((λ s, (ss_id s, ss_start s, ss_end s)) <$> generated)
        `sublist_of` ((λ t, (ts_id t, ts_start t, ts_end t)) <$> demo_segments).
Proof.
  destruct (generate_segments_sublist demo_C "en-us" demo_segments
              "storage/uploads/job-1/segments" "af_heart" 1 demo_world)
    as (generated & Hrun & Hsub & _); [left; reflexivity|].
  exists generated. by split.
Defined.

(** X9.  When no text is blank and no synthesis raises, nothing is dropped: the
    driver returns one entry per transcript segment, in order. *)
Theorem generate_segments_complete C lang segments dir voice speed w :
  dir_free (w_fs w) dir →
  Forall (λ seg, strip (ts_text seg) ≠ ""
                 ∧ is_Ok (generate C lang (strip (ts_text seg)) voice speed) = true)
         segments →
  ∃ generated,
    (generate_segments C lang segments dir voice speed w).1 = Ok generated
    ∧ (λ s, (ss_id s, ss_start s, ss_end s, ss_text s)) <$> generated
      = (λ t, (ts_id t, ts_start t, ts_end t, strip (ts_text t))) <$> segments.
Proof.
  intros Hdir Hall.
  destruct (generate_segments_result C lang segments dir voice speed w Hdir)
    as (w' & ->).
  eexists. split; [done|]. generalize 0 as k.
  induction Hall as [|seg segs [Htext Hgen] _ IH]; intros k; [done|].
  cbn [enumerate]. rewrite omap_option_list, fmap_app, IH.
  unfold synthesized. rewrite decide_False by done.
  by destruct (generate C lang (strip (ts_text seg)) voice speed).
Qed.

Lemma generate_segments_complete_witness :
  ∃ generated,
    (generate_segments demo_C "en-us" [demo_segment 0 "one"; demo_segment 1 " three "]
       "storage/uploads/job-1/segments" "af_heart" 1 demo_world).1 = Ok generated
    ∧ ss_text <$> generated = ["one"; "three"].
Proof.
  destruct (generate_segments_complete demo_C "en-us"
              [demo_segment 0 "one"; demo_segment 1 " three "]
              "storage/uploads/job-1/segments" "af_heart" 1 demo_world)
    as (generated & Hrun & Heq); [left; reflexivity| |].
  - repeat constructor; vm_compute; try discriminate; reflexivity.
  - exists generated. split; [exact Hrun|].
    apply (f_equal (fmap (λ x : Z * Q * Q * string, x.2))) in Heq.
    rewrite <- !list_fmap_compose in Heq. exact Heq.
Defined.

(** ** The job store: composition of updates *)

Lemma set_jobs_set_jobs jobs1 jobs2 w :
  set_jobs jobs2 (set_jobs jobs1 w) = set_jobs jobs2 w.
Proof. done. Qed.

(** X10.  Two updates of the same job in a row amount to one update with the
    fields of both, the later ones winning, stamped with the later time. *)
Theorem update_job_compose job_id kw1 kw2 t1 t2 w :
  (update_job job_id kw2 t2 (update_job job_id kw1 t1 w).2).2
  = (update_job job_id (kw2 ∪ kw1) t2 w).2.
Proof.
  unfold update_job.
  destruct (w_jobs w !! job_id) as [job|] eqn:Hjob; simpl.
  - rewrite lookup_insert_eq. simpl. rewrite set_jobs_set_jobs. f_equal.
    rewrite insert_insert_eq. f_equal.
    apply map_eq. intros k. destruct (decide (k = "updated_at")) as [->|Hk].
    + by rewrite !lookup_insert_eq.
    + rewrite !lookup_insert_ne by done. rewrite !lookup_union.
      rewrite lookup_insert_ne by done. rewrite lookup_union.
      by destruct (kw2 !! k), (kw1 !! k), (job !! k).
  - by rewrite Hjob.
Qed.

(** ** The orchestrator: which requests are accepted *)

Lemma status_in_spec s allowed :
  status_in (VStatus s) allowed = bool_decide (s ∈ allowed).
Proof. done. Qed.

(** A transcription request is accepted exactly when the job is [pending]
    or [transcribed]: the job then becomes [transcribing] with progress 10
    and one transcription task for its video is queued.  From any other
    status the request gets HTTP 400 and nothing changes. *)
Lemma start_transcription_legal job_id language now w job s video_path :
  w_jobs w !! job_id = Some job →
  job !! "status" = Some (VStatus s) →
  job !! "video_path" = Some (VStr video_path) →
  start_transcription job_id language now w
  = if bool_decide (s ∈ [PENDING; TRANSCRIBED]) then
      (Ok {| sr_message := "Transcription started"; sr_job_id := job_id |},
       World (<[job_id := <["updated_at" := VTime now]> (kw_transcribing ∪ job)]>
                (w_jobs w))
             (w_fs w)
             (w_tasks w ++ [RunTranscription job_id video_path language]))
    else (Raise (HTTPException 400), w).
Proof.
  intros Hjob Hstatus Hpath.
  unfold start_transcription, get_job, getitem, as_str, add_task.
  unfold mbind, io_bind, mret, io_ret, raise.
  rewrite Hjob, Hstatus, status_in_spec.
  destruct (bool_decide (s ∈ [PENDING; TRANSCRIBED])); [|done]. cbn [negb].
  rewrite (update_job_known _ _ _ _ _ Hjob), Hpath. done.
Qed.


(** A voice-generation request is accepted exactly when the job is
    [transcribed] or [voice_generated] and has a transcript: the job then
    becomes [generating_voice] with progress 10 and one task carrying the
    segments of the transcript as they are at that moment is queued.
    Otherwise the request gets HTTP 400 and nothing changes. *)
Lemma generate_voice_legal job_id request now w job s :
  w_jobs w !! job_id = Some job →
  job !! "status" = Some (VStatus s) →
  generate_voice job_id request now w
  = match bool_decide (s ∈ [TRANSCRIBED; VOICE_GENERATED]), get_transcript job with
    | true, Some t =>
      (Ok {| sr_message := "Voice generation started"; sr_job_id := job_id |},
       World (<[job_id := <["updated_at" := VTime now]> (kw_generating_voice ∪ job)]>
                (w_jobs w))
             (w_fs w)
             (w_tasks w ++ [RunVoiceGeneration job_id (tr_segments t)
                              (language_code request) (voice request)
                              (speed request)]))
    | _, _ => (Raise (HTTPException 400), w)
    end.
Proof.
  intros Hjob Hstatus.
  unfold generate_voice, get_job, getitem, add_task.
  unfold mbind, io_bind, mret, io_ret, raise.
  rewrite Hjob, Hstatus, status_in_spec.
  destruct (bool_decide (s ∈ [TRANSCRIBED; VOICE_GENERATED])); cbn [negb]; [|done].
  destruct (get_transcript job) as [t|]; [|done].
  rewrite (update_job_known _ _ _ _ _ Hjob). done.
Qed.


(** A merge request is accepted exactly when the job is [voice_generated]
    and has a non-empty voice-over path: the job then becomes [merging] with
    progress 10 and one merge task is queued.  Otherwise the request is
    refused and nothing changes. *)
Lemma merge_video_legal job_id now w job s :
  w_jobs w !! job_id = Some job →
  job !! "status" = Some (VStatus s) →
  merge_video job_id now w
  = match bool_decide (s = VOICE_GENERATED), job !! "voiceover_path" with
    | true, Some (VStr (String _ _)) =>
      (Ok {| sr_message := "Video merge started"; sr_job_id := job_id |},
       World (<[job_id := <["updated_at" := VTime now]> (kw_merging ∪ job)]>
                (w_jobs w))
             (w_fs w) (w_tasks w ++ [RunVideoMerge job_id]))
    | _, _ => (Raise (HTTPException 400), w)
    end.
Proof.
  intros Hjob Hstatus.
  unfold merge_video, get_job, getitem, add_task.
  unfold mbind, io_bind, mret, io_ret, raise.
  rewrite Hjob, Hstatus, status_in_spec.
  destruct (decide (s = VOICE_GENERATED)) as [->|Hs].
  - rewrite bool_decide_eq_true_2 by (by apply list_elem_of_singleton).
    rewrite bool_decide_eq_true_2 by done. cbn [negb].
    destruct (job !! "voiceover_path") as [[| [|c rest] | | | | |]|]; try done.
    rewrite (update_job_known _ _ _ _ _ Hjob). done.
  - rewrite bool_decide_eq_false_2 by (by rewrite list_elem_of_singleton).
    rewrite bool_decide_eq_false_2 by done. cbn [negb].
    by destruct (job !! "voiceover_path") as [[| [|c rest] | | | | |]|].
Qed.


Lemma handle_refuses job_id r now w job s :
  w_jobs w !! job_id = Some job →
  job !! "status" = Some (VStatus s) →
  s ∉ [PENDING; TRANSCRIBED; VOICE_GENERATED] →
  handle job_id r now w = (Raise (HTTPException 400), w).
Proof.
  intros Hjob Hstatus Hs.
  assert (Hcases : s = UPLOADING ∨ s = TRANSCRIBING ∨ s = GENERATING_VOICE
                   ∨ s = MERGING ∨ s = COMPLETED ∨ s = FAILED).
  { destruct s; try tauto; destruct Hs; repeat constructor. }
  destruct r as [language|body|]; unfold handle.
  - unfold start_transcription, get_job, getitem.
    unfold mbind, io_bind, mret, io_ret, raise.
    rewrite Hjob, Hstatus.
    by destruct Hcases as [->|[->|[->|[->|[->| ->]]]]].
  - rewrite (generate_voice_legal _ _ _ _ _ _ Hjob Hstatus).
    by destruct Hcases as [->|[->|[->|[->|[->| ->]]]]].
  - rewrite (merge_video_legal _ _ _ _ _ Hjob Hstatus).
    by destruct Hcases as [->|[->|[->|[->|[->| ->]]]]].
Qed.

(** X11.  From the statuses [uploading], [transcribing], [generating_voice],
    [merging], [completed] and [failed] no stage request is accepted: each
    of the three gets HTTP 400 and nothing changes.  In particular a failed
    or a completed job cannot be restarted. *)
Theorem closed_status_refuses job_id r now w job s :
  w_jobs w !! job_id = Some job →
  job !! "status" = Some (VStatus s) →
  s ∈ [UPLOADING; TRANSCRIBING; GENERATING_VOICE; MERGING; COMPLETED; FAILED] →
  handle job_id r now w = (Raise (HTTPException 400), w).
Proof.
  intros Hjob Hstatus Hs. apply (handle_refuses job_id r now w job s Hjob Hstatus).
  intros Hopen.
  repeat (apply elem_of_cons in Hs as [->|Hs];
          [by repeat (apply elem_of_cons in Hopen as [?|Hopen];
                      [discriminate|]); apply elem_of_nil in Hopen|]).
  by apply elem_of_nil in Hs.
Qed.

Lemma closed_status_refuses_witness :
  handle "job-1" ReqMergeVideo 300 (start_transcription "job-1" None 200 demo_world).2
  = (Raise (HTTPException 400), (start_transcription "job-1" None 200 demo_world).2).
Proof.
  apply (closed_status_refuses "job-1" ReqMergeVideo 300 _
           (<["updated_at" := VTime 200]>
              (kw_transcribing
               ∪ new_job "job-1" "movie.mp4" "storage/uploads/job-1/original.mp4" 100))
           TRANSCRIBING); [reflexivity|reflexivity|repeat constructor].
Defined.




(** X13.  On an unknown job id every endpoint answers HTTP 404 and changes
    nothing. *)
Theorem unknown_job_not_found job_id w :
  w_jobs w !! job_id = None →
  (∀ r now, handle job_id r now w = (Raise (HTTPException 404), w))
  ∧ (∀ segments now,
       update_transcript job_id segments now w = (Raise (HTTPException 404), w))
  ∧ get_transcript_endpoint job_id w = (Raise (HTTPException 404), w)
  ∧ get_job_status job_id w = (Raise (HTTPException 404), w)
  ∧ download_video job_id w = (Raise (HTTPException 404), w)
  ∧ download_srt job_id w = (Raise (HTTPException 404), w).
Proof.
  intros Hjob.
  assert (Hget : get_job job_id w = (Raise (HTTPException 404), w))
    by (unfold get_job; by rewrite Hjob).
  split_and!.
  - intros [language|body|] now; unfold handle, start_transcription,
      generate_voice, merge_video; by rewrite io_bind_run, Hget.
  - intros segments now. unfold update_transcript. by rewrite io_bind_run, Hget.
  - unfold get_transcript_endpoint. by rewrite io_bind_run, Hget.
  - unfold get_job_status. by rewrite io_bind_run, Hget.
  - unfold download_video. by rewrite io_bind_run, Hget.
  - unfold download_srt. by rewrite io_bind_run, Hget.
Qed.

Lemma unknown_job_not_found_witness :
  download_video "job-2" demo_world = (Raise (HTTPException 404), demo_world).
Proof.
  destruct (unknown_job_not_found "job-2" demo_world) as (_ & _ & _ & _ & H & _);
    [reflexivity|exact H].
Defined.

(** ** Invariants of the job store *)

Lemma store_job_keeps_job id job_id job :
  respects (keeps_job id) (store_job job_id job).
Proof.
  intros w Hw. simpl. destruct (decide (id = job_id)) as [->|Hne].
  - rewrite lookup_insert_eq. by eexists.
  - by rewrite lookup_insert_ne.
Qed.

Ltac keeps_job_handler id :=
  repeat lazymatch goal with
    | |- respects _ (update_job _ _ _) => apply update_job_keeps_job
    | |- respects _ (store_job _ _) => apply store_job_keeps_job
    | |- _ => respects_step (keeps_job id) (files_keep_job id)
    end.

Lemma upload_video_keeps_job id filename content uuid4 now :
  respects (keeps_job id) (upload_video filename content uuid4 now).
Proof. unfold upload_video. keeps_job_handler id. Qed.

Lemma start_transcription_keeps_job id job_id language now :
  respects (keeps_job id) (start_transcription job_id language now).
Proof. unfold start_transcription. keeps_job_handler id. Qed.

Lemma update_transcript_keeps_job id job_id segments now :
  respects (keeps_job id) (update_transcript job_id segments now).
Proof. unfold update_transcript. keeps_job_handler id. Qed.

Lemma generate_voice_keeps_job id job_id request now :
  respects (keeps_job id) (generate_voice job_id request now).
Proof. unfold generate_voice. keeps_job_handler id. Qed.

Lemma merge_video_keeps_job id job_id now :
  respects (keeps_job id) (merge_video job_id now).
Proof. unfold merge_video. keeps_job_handler id. Qed.

Lemma step_keeps_job id w w' : step w w' → keeps_job id w w'.
Proof.
  destruct 1.
  - apply upload_video_keeps_job.
  - apply start_transcription_keeps_job.
  - apply update_transcript_keeps_job.
  - apply generate_voice_keeps_job.
  - apply merge_video_keeps_job.
  - apply update_job_keeps_job.
  - apply files_keep_job.
Qed.

(** X14.  The store never forgets a job: whatever requests and task updates
    follow, in any order, a stored job id stays stored. *)
Theorem jobs_never_deleted job_id w w' :
  rtc step w w' → is_Some (w_jobs w !! job_id) → is_Some (w_jobs w' !! job_id).
Proof.
  induction 1 as [|w1 w2 w3 H12 _ IH]; [done|].
  intros Hw. by apply IH, (step_keeps_job job_id w1 w2).
Qed.

Lemma jobs_never_deleted_witness :
  is_Some (w_jobs (run_voice_generation demo_C "job-1" demo_segments "a" "af_heart"
                     1 200 demo_world).2 !! "job-1").
Proof.
  apply (jobs_never_deleted "job-1" demo_world).
  - apply run_voice_generation_steps.
  - eexists. reflexivity.
Defined.

(** *** Well-formed job dictionaries *)

#[global] Instance keeps_wf_preorder : PreOrder keeps_wf.
Proof.
  split.
  - by intros w Hw.
  - intros w1 w2 w3 H12 H23 Hw. by apply H23, H12.
Qed.

Lemma files_keep_wf w fs tasks : keeps_wf w (World (w_jobs w) fs tasks).
Proof. intros Hw. exact Hw. Qed.

Lemma updated_lookup (kwargs job : gmap string value) now k :
  k ≠ "updated_at" →
  (<["updated_at" := VTime now]> (kwargs ∪ job)) !! k
  = match kwargs !! k with Some v => Some v | None => job !! k end.
Proof.
  intros Hk. rewrite lookup_insert_ne by done. rewrite lookup_union.
  by destruct (kwargs !! k), (job !! k).
Qed.

Lemma update_job_keeps_wf job_id kwargs now :
  kw_wf kwargs → respects keeps_wf (update_job job_id kwargs now).
Proof.
  intros (K1 & K2 & K3 & K4 & K5 & K6 & K7 & K8) w Hw. unfold update_job.
  destruct (w_jobs w !! job_id) as [job|] eqn:Hjob; [|done].
  intros id job'. simpl. destruct (decide (id = job_id)) as [->|Hne];
    [|rewrite lookup_insert_ne by done; apply Hw].
  rewrite lookup_insert_eq. intros [= <-].
  destruct (Hw job_id job Hjob)
    as (W1 & (s & W2) & (p & W3 & W3') & (c & W4) & (u & W5) & W6 & W7 & W8 & W9).
  unfold job_wf, kw_progress_ok in *.
  rewrite lookup_insert_eq. rewrite !updated_lookup by done.
  rewrite K1, K2, W1, W4.
  split_and!; [done| | |by eexists|by eexists| | | |].
  - destruct (kwargs !! "status") as [[]|]; try done; by eexists.
  - destruct (kwargs !! "progress") as [[]|]; try done; by eexists.
  - by destruct (kwargs !! "message") as [[]|].
  - by destruct (kwargs !! "video_filename").
  - by destruct (kwargs !! "output_url") as [[]|].
  - by destruct (kwargs !! "error") as [[]|].
Qed.

Lemma kw_segment_progress i total :
  kw_segment i total !! "progress" = Some (VInt (segment_progress i total)).
Proof. unfold kw_segment. apply lookup_insert_eq. Qed.

Lemma kw_segment_message i total :
  ∃ m, kw_segment i total !! "message" = Some (VStr m).
Proof.
  unfold kw_segment. rewrite lookup_insert_ne by done.
  rewrite lookup_singleton_eq. by eexists.
Qed.

Lemma kw_segment_other i total k :
  k ≠ "progress" → k ≠ "message" → kw_segment i total !! k = None.
Proof.
  intros H1 H2. unfold kw_segment. rewrite lookup_insert_ne by done.
  by rewrite lookup_singleton_ne.
Qed.

Lemma task_update_wf kwargs : task_update kwargs → kw_wf kwargs.
Proof.
  destruct 1 as [| | | | | |i total Hi| | | |];
    try (unfold kw_wf, kw_progress_ok; vm_compute; repeat split; discriminate).
  pose proof (segment_progress_bounds i total Hi).
  destruct (kw_segment_message i total) as [m Hm].
  unfold kw_wf, kw_progress_ok.
  rewrite kw_segment_progress, Hm, !kw_segment_other by done.
  repeat split; lia.
Qed.

Lemma store_new_job_wf job_id filename file_path now :
  respects keeps_wf (store_job job_id (new_job job_id filename file_path now)).
Proof.
  intros w Hw id job. simpl. destruct (decide (id = job_id)) as [->|Hne].
  - rewrite lookup_insert_eq. intros [= <-].
    unfold job_wf.
    split_and!; [done | by exists PENDING | exists 0; split; [done|lia]
                | by exists now | by exists now | done..].
  - rewrite lookup_insert_ne by done. apply Hw.
Qed.

Ltac keeps_wf_handler :=
  repeat lazymatch goal with
    | |- respects _ (update_job _ _ _) =>
        apply update_job_keeps_wf;
        unfold kw_wf, kw_progress_ok; vm_compute; repeat split; discriminate
    | |- respects _ (store_job _ _) => apply store_new_job_wf
    | |- _ => respects_step keeps_wf files_keep_wf
    end.

Lemma upload_video_keeps_wf filename content uuid4 now :
  respects keeps_wf (upload_video filename content uuid4 now).
Proof. unfold upload_video. keeps_wf_handler. Qed.

Lemma start_transcription_keeps_wf job_id language now :
  respects keeps_wf (start_transcription job_id language now).
Proof. unfold start_transcription. keeps_wf_handler. Qed.

Lemma update_transcript_keeps_wf job_id segments now :
  respects keeps_wf (update_transcript job_id segments now).
Proof. unfold update_transcript. keeps_wf_handler. Qed.

Lemma generate_voice_keeps_wf job_id request now :
  respects keeps_wf (generate_voice job_id request now).
Proof. unfold generate_voice. keeps_wf_handler. Qed.

Lemma merge_video_keeps_wf job_id now :
  respects keeps_wf (merge_video job_id now).
Proof. unfold merge_video. keeps_wf_handler. Qed.

Lemma step_keeps_wf w w' : step w w' → keeps_wf w w'.
Proof.
  destruct 1.
  - apply upload_video_keeps_wf.
  - apply start_transcription_keeps_wf.
  - apply update_transcript_keeps_wf.
  - apply generate_voice_keeps_wf.
  - apply merge_video_keeps_wf.
  - by apply update_job_keeps_wf, task_update_wf.
  - apply files_keep_wf.
Qed.

Lemma reachable_jobs_wf w : rtc step init_world w → jobs_wf w.
Proof.
  intros Hreach.
  assert (H : keeps_wf init_world w).
  { induction Hreach as [|w1 w2 w3 H12 _ IH]; [done|].
    etrans; [by apply step_keeps_wf|done]. }
  apply H. intros id job. simpl. by rewrite lookup_empty.
Qed.

Lemma get_job_status_wf job_id w job :
  w_jobs w !! job_id = Some job → job_wf job_id job →
  ∃ resp,
    get_job_status job_id w = (Ok resp, w)
    ∧ jr_job_id resp = job_id
    ∧ job !! "status" = Some (VStatus (jr_status resp))
    ∧ job !! "progress" = Some (VInt (jr_progress resp))
    ∧ 0 ≤ jr_progress resp ≤ 100
    ∧ jr_transcript resp = get_transcript job.
Proof.
  intros Hjob
    (W1 & (s & W2) & (p & W3 & W3') & (c & W4) & (u & W5) & W6 & W7 & W8 & W9).
  unfold get_job_status, get_job, getitem.
  unfold mbind, io_bind, mret, io_ret, raise, lift.
  rewrite Hjob, W1, W2, W3, W4, W5. unfold validate_JobResponse.
  destruct (Z.leb_spec 0 p); [|lia]. destruct (Z.leb_spec p 100); [|lia].
  cbn [andb]. unfold optional_str in *.
  destruct (job !! "message") as [[]|]; try done;
    destruct (job !! "video_filename") as [[]|]; try done;
    destruct (job !! "output_url") as [[]|]; try done;
    destruct (job !! "error") as [[]|]; try done;
    eexists; (split; [reflexivity|]); simpl; done.
Qed.

(** X15.  The status query never fails on a stored job: in every state the
    process can reach, the job dictionary passes the validation of the
    response model, and the response carries the job's own id, its stored
    status and its stored progress, which lies between 0 and 100. *)
Theorem job_status_always_available job_id w job :
  rtc step init_world w → w_jobs w !! job_id = Some job →
  ∃ resp,
    get_job_status job_id w = (Ok resp, w)
    ∧ jr_job_id resp = job_id
    ∧ job !! "status" = Some (VStatus (jr_status resp))
    ∧ job !! "progress" = Some (VInt (jr_progress resp))
    ∧ 0 ≤ jr_progress resp ≤ 100
    ∧ jr_transcript resp = get_transcript job.
Proof.
  intros Hreach Hjob. apply get_job_status_wf; [done|].
  by apply (reachable_jobs_wf w Hreach).
Qed.

Lemma job_status_always_available_witness :
  ∃ resp,
    get_job_status "job-1" demo_world = (Ok resp, demo_world)
    ∧ jr_status resp = PENDING ∧ jr_progress resp = 0.
Proof.
  destruct (job_status_always_available "job-1" demo_world
              (new_job "job-1" "movie.mp4" "storage/uploads/job-1/original.mp4" 100))
    as (resp & Hrun & _ & Hs & Hp & _); [apply rtc_once, step_upload|reflexivity|].
  exists resp. split; [exact Hrun|].
  split.
  - change (new_job "job-1" "movie.mp4" "storage/uploads/job-1/original.mp4" 100
              !! "status") with (Some (VStatus PENDING)) in Hs. congruence.
  - change (new_job "job-1" "movie.mp4" "storage/uploads/job-1/original.mp4" 100
              !! "progress") with (Some (VInt 0)) in Hp. congruence.
Defined.

(** ** The background tasks: how a stage ends *)

Lemma ensures_bind {A B} job_id (P : world → Prop) (m : io A) (f : A → io B) :
  respects (keeps_job job_id) m → (∀ a, ensures job_id P (f a)) →
  ensures job_id P (m ≫= f).
Proof.
  intros Hm Hf w b w' Hw. rewrite io_bind_run. specialize (Hm w).
  destruct (m w) as [[a|e] w1]; [|done]. simpl in Hm.
  intros Hrun. by eapply Hf; [apply Hm|].
Qed.

Lemma update_job_status job_id kwargs now s w :
  kwargs !! "status" = Some (VStatus s) →
  is_Some (w_jobs w !! job_id) →
  status_is job_id s (update_job job_id kwargs now w).2.
Proof.
  intros Hkw [job Hjob]. rewrite (update_job_known _ _ _ _ _ Hjob). simpl.
  eexists. split; [apply lookup_insert_eq|].
  rewrite lookup_insert_ne by done. by apply lookup_union_Some_l.
Qed.

Lemma ensures_update_job job_id kwargs now s :
  kwargs !! "status" = Some (VStatus s) →
  ensures job_id (status_is job_id s) (update_job job_id kwargs now).
Proof.
  intros Hkw w [] w' Hw Hrun.
  pose proof (update_job_status job_id kwargs now s w Hkw Hw) as H.
  by rewrite Hrun in H.
Qed.

(** A task body that keeps the job stored and, when it returns normally,
    leaves it with the status [s], wrapped in the [try]/[except] of the
    background tasks. *)
Lemma task_outcome job_id (body : io unit) message now s w :
  respects (keeps_job job_id) body →
  ensures job_id (status_is job_id s) body →
  is_Some (w_jobs w !! job_id) →
  let r := try_except body
             (λ e, update_job job_id (kw_failed e message) now) w in
  r.1 = Ok () ∧ (status_is job_id s r.2 ∨ status_is job_id FAILED r.2).
Proof.
  intros Hkeep Hens Hw. unfold try_except. specialize (Hkeep w).
  destruct (body w) as [[[]|e] w1] eqn:Hbody; simpl in *.
  - split; [done|]. left. by eapply Hens.
  - destruct (update_job_total job_id (kw_failed e message) now w1) as [jobs Hupd].
    split; [by rewrite Hupd|].
    right. apply update_job_status; [done|by apply Hkeep].
Qed.

Ltac ensures_tac id :=
  repeat lazymatch goal with
    | |- ensures _ _ (mbind _ _) => apply ensures_bind; [keeps_job_tac id|intros ?]
    | |- ensures _ _ (update_job _ _ _) => apply ensures_update_job; reflexivity
    | |- ensures _ _ (match ?x with _ => _ end) => destruct x
    end.

(** X16.  The transcription task never raises, and it never leaves a stored job
    in the status [transcribing]: when it returns the job is [transcribed]
    or [failed]. *)
Theorem run_transcription_outcome C job_id video_path language now w :
  is_Some (w_jobs w !! job_id) →
  let r := run_transcription C job_id video_path language now w in
  r.1 = Ok ()
  ∧ (status_is job_id TRANSCRIBED r.2 ∨ status_is job_id FAILED r.2).
Proof.
  intros Hw. unfold run_transcription. apply task_outcome; [| |done].
  - unfold extract_audio, transcribe. keeps_job_tac job_id.
  - unfold extract_audio, transcribe. ensures_tac job_id.
Qed.

Lemma voice_stage_keeps_job C id job_id segments lang_code voice speed now :
  respects (keeps_job id)
    (voice_stage C job_id segments lang_code voice speed now).
Proof.
  unfold voice_stage.
  repeat lazymatch goal with
    | |- respects _ (voice_loop _ _ _ _ _ _ _ _) => apply voice_loop_keeps_job
    | |- respects _ (voice_assemble _ _ _ _ _ _) => apply voice_assemble_keeps_job
    | |- respects _ (update_job _ _ _) => apply update_job_keeps_job
    | |- _ => respects_step (keeps_job id) (files_keep_job id)
    end.
Qed.

(** X17.  The voice-generation task never raises, and it never leaves a stored
    job in the status [generating_voice]: when it returns the job is
    [voice_generated] or [failed]. *)
Theorem run_voice_generation_outcome C job_id segments lang_code voice speed now w :
  is_Some (w_jobs w !! job_id) →
  let r := run_voice_generation C job_id segments lang_code voice speed now w in
  r.1 = Ok ()
  ∧ (status_is job_id VOICE_GENERATED r.2 ∨ status_is job_id FAILED r.2).
Proof.
  intros Hw. unfold run_voice_generation. apply task_outcome; [| |done].
  - apply (respects_bind (keeps_job job_id)); [apply voice_stage_keeps_job|].
    intros [generated output_audio]. apply update_job_keeps_job.
  - apply ensures_bind; [apply voice_stage_keeps_job|].
    intros [generated output_audio]. by apply ensures_update_job.
Qed.

(** X18.  The merge task never raises, and it never leaves a stored job in the
    status [merging]: when it returns the job is [completed] or
    [failed]. *)
Theorem run_video_merge_outcome C job_id now w :
  is_Some (w_jobs w !! job_id) →
  let r := run_video_merge C job_id now w in
  r.1 = Ok ()
  ∧ (status_is job_id COMPLETED r.2 ∨ status_is job_id FAILED r.2).
Proof.
  intros Hw. unfold run_video_merge. apply task_outcome; [| |done].
  - unfold replace_audio. keeps_job_tac job_id.
  - unfold replace_audio. ensures_tac job_id.
Qed.

Lemma run_transcription_outcome_witness :
  (run_transcription demo_C "job-1" "storage/uploads/job-1/original.mp4" None 200
     demo_world).1 = Ok ().
Proof.
  destruct (run_transcription_outcome demo_C "job-1"
              "storage/uploads/job-1/original.mp4" None 200 demo_world) as [H _];
    [eexists; reflexivity|exact H].
Defined.

Lemma run_voice_generation_outcome_witness :
  (run_voice_generation demo_C "job-1" demo_segments "a" "af_heart" 1 200
     demo_world).1 = Ok ().
Proof.
  destruct (run_voice_generation_outcome demo_C "job-1" demo_segments "a" "af_heart"
              1 200 demo_world) as [H _];
    [eexists; reflexivity|exact H].
Defined.

Lemma run_video_merge_outcome_witness :
  (run_video_merge demo_C "job-1" 200 demo_world).1 = Ok ().
Proof.
  destruct (run_video_merge_outcome demo_C "job-1" 200 demo_world) as [H _];
    [eexists; reflexivity|exact H].
Defined.

(** ** Successful runs, step by step *)

Lemma bind_Ok_inv {A B} (m : io A) (f : A → io B) w b w' :
  (m ≫= f) w = (Ok b, w') →
  ∃ a w1, m w = (Ok a, w1) ∧ f a w1 = (Ok b, w').
Proof.
  rewrite io_bind_run. destruct (m w) as [[a|e] w1]; [|done].
  intros H. by exists a, w1.
Qed.

Lemma lookup_job_Ok_inv job_id w job w' :
  lookup_job job_id w = (Ok job, w') → w_jobs w !! job_id = Some job ∧ w' = w.
Proof. unfold lookup_job. destruct (_ !! _); [|done]. by intros [= -> ->]. Qed.

Lemma get_job_Ok_inv job_id w job w' :
  get_job job_id w = (Ok job, w') → w_jobs w !! job_id = Some job ∧ w' = w.
Proof. unfold get_job. destruct (_ !! _); [|done]. by intros [= -> ->]. Qed.

Lemma getitem_str_Ok_inv job key w s w' :
  (getitem job key ≫= as_str) w = (Ok s, w') →
  job !! key = Some (VStr s) ∧ w' = w.
Proof.
  unfold getitem. rewrite io_bind_run. destruct (job !! key) as [[]|]; try done.
  by intros [= -> ->].
Qed.

Lemma getitem_Ok_inv job key w v w' :
  getitem job key w = (Ok v, w') → job !! key = Some v ∧ w' = w.
Proof. unfold getitem. destruct (job !! key); [|done]. by intros [= -> ->]. Qed.

Lemma mkdir_Ok_inv path w u w' :
  mkdir path w = (Ok u, w') →
  w_jobs w' = w_jobs w ∧ w_tasks w' = w_tasks w
  ∧ ∀ p, p ≠ path → w_fs w' !! p = w_fs w !! p.
Proof.
  unfold mkdir. destruct (w_fs w !! path) as [[]|]; try done.
  - by intros [= _ <-].
  - intros [= _ <-]. split_and!; [done..|].
    intros p Hp. simpl. by rewrite lookup_insert_ne.
Qed.

Lemma new_VideoService_Ok_inv C w u w' :
  new_VideoService C w = (Ok u, w') → w' = w.
Proof. unfold new_VideoService. destruct (ffmpeg_available C); [|done]. by intros [= _ <-]. Qed.

Lemma update_job_Ok_inv job_id kwargs now w u w' job :
  update_job job_id kwargs now w = (Ok u, w') →
  w_jobs w !! job_id = Some job →
  w_jobs w' !! job_id = Some (<["updated_at" := VTime now]> (kwargs ∪ job))
  ∧ w_fs w' = w_fs w ∧ w_tasks w' = w_tasks w.
Proof.
  intros Hrun Hjob. rewrite (update_job_known _ _ _ _ _ Hjob) in Hrun.
  injection Hrun as _ <-. simpl. by rewrite lookup_insert_eq.
Qed.

Lemma replace_audio_Ok_inv C video_path audio_path output_path w p w' :
  replace_audio C video_path audio_path output_path w = (Ok p, w') →
  p = output_path ∧ w_jobs w' = w_jobs w ∧ w_tasks w' = w_tasks w
  ∧ is_Some (w_fs w' !! output_path).
Proof.
  unfold replace_audio. intros H.
  apply bind_Ok_inv in H as ([] & w1 & Hmk & H).
  apply mkdir_Ok_inv in Hmk as (Hj1 & Ht1 & _).
  apply bind_Ok_inv in H as (out & w2 & Hread & H).
  unfold reading in Hread. injection Hread as _ <-.
  apply bind_Ok_inv in H as ([] & w3 & Hwr & H).
  unfold write_file in Hwr. injection Hwr as <-.
  injection H as <- <-. simpl. split_and!; [done..|].
  rewrite lookup_insert_eq. by eexists.
Qed.

Lemma failed_is_not s job_id e message now w :
  s ≠ FAILED →
  ¬ status_is job_id s (update_job job_id (kw_failed e message) now w).2.
Proof.
  intros Hs (job' & Hjob' & Hstatus).
  destruct (w_jobs w !! job_id) as [job|] eqn:Hjob.
  - rewrite (update_job_known _ _ _ _ _ Hjob) in Hjob'. simpl in Hjob'.
    rewrite lookup_insert_eq in Hjob'. injection Hjob' as <-.
    rewrite lookup_insert_ne in Hstatus by done.
    erewrite lookup_union_Some_l in Hstatus by reflexivity. congruence.
  - rewrite (update_job_unknown _ _ _ _ Hjob) in Hjob'. simpl in Hjob'. congruence.
Qed.

Lemma path_join_nonempty (dir name : string) : path_join dir name ≠ "".
Proof.
  intros H%(f_equal String.length). unfold path_join in H.
  rewrite !str_length_app in H. simpl in H. lia.
Qed.

Lemma path_exists_run path w :
  path_exists path w = (Ok (bool_decide (is_Some (w_fs w !! path))), w).
Proof. done. Qed.

(** The download of a completed job whose output file is there. *)
Lemma download_video_ready job_id w job output_path video_filename :
  w_jobs w !! job_id = Some job →
  job !! "status" = Some (VStatus COMPLETED) →
  job !! "output_path" = Some (VStr output_path) →
  output_path ≠ "" →
  is_Some (w_fs w !! output_path) →
  job !! "video_filename" = Some (VStr video_filename) →
  download_video job_id w
  = (Ok {| fr_path := output_path; fr_media_type := "video/mp4";
           fr_filename := path_stem video_filename +:+ "_dubbed.mp4" |}, w).
Proof.
  intros Hjob Hstatus Hout Hne Hfile Hname.
  unfold download_video, get_job, getitem.
  rewrite io_bind_run, Hjob, io_bind_run, Hstatus. cbn [mret io_ret status_in].
  rewrite bool_decide_eq_true_2 by repeat constructor. cbn [negb].
  rewrite Hout. destruct output_path as [|c rest]; [done|].
  rewrite io_bind_run, path_exists_run, bool_decide_eq_true_2 by done.
  cbn [negb]. rewrite Hname. reflexivity.
Qed.

(** What a merge that ended with the status [completed] has done. *)
Lemma run_video_merge_completed C job_id now w :
  status_is job_id COMPLETED (run_video_merge C job_id now w).2 →
  ∃ job job' video_filename,
    w_jobs w !! job_id = Some job
    ∧ job !! "video_filename" = Some (VStr video_filename)
    ∧ w_jobs (run_video_merge C job_id now w).2 !! job_id = Some job'
    ∧ job' !! "status" = Some (VStatus COMPLETED)
    ∧ job' !! "video_filename" = Some (VStr video_filename)
    ∧ job' !! "output_path"
      = Some (VStr (path_join (path_join OUTPUTS_DIR job_id)
                      (path_stem video_filename +:+ "_dubbed.mp4")))
    ∧ is_Some (w_fs (run_video_merge C job_id now w).2
                 !! path_join (path_join OUTPUTS_DIR job_id)
                      (path_stem video_filename +:+ "_dubbed.mp4")).
Proof.
  unfold run_video_merge, try_except.
  match goal with |- context [match ?b w with _ => _ end] => set (body := b) end.
  destruct (body w) as [[[]|e] w'] eqn:Hbody; simpl;
    [|intros H; by apply failed_is_not in H].
  intros _. subst body.
  apply bind_Ok_inv in Hbody as (job & w0 & Hjob & H).
  apply lookup_job_Ok_inv in Hjob as [Hjob ->].
  apply bind_Ok_inv in H as ([] & w1 & Hupd & H).
  apply (update_job_Ok_inv _ _ _ _ _ _ job) in Hupd as (Hjob1 & _ & _); [|done].
  apply bind_Ok_inv in H as ([] & w2 & Hmk & H).
  apply mkdir_Ok_inv in Hmk as (Hj2 & _ & _).
  apply bind_Ok_inv in H as (video_filename & w3 & Hname & H).
  apply getitem_str_Ok_inv in Hname as [Hname ->].
  apply bind_Ok_inv in H as ([] & w3 & Hvs & H).
  apply new_VideoService_Ok_inv in Hvs as ->.
  apply bind_Ok_inv in H as (video_path & w3 & Hvp & H).
  apply getitem_str_Ok_inv in Hvp as [Hvp ->].
  apply bind_Ok_inv in H as (voiceover_path & w3 & Hvo & H).
  apply getitem_str_Ok_inv in Hvo as [Hvo ->].
  apply bind_Ok_inv in H as (p & w3 & Hrep & H).
  apply replace_audio_Ok_inv in Hrep as (-> & Hj3 & _ & Hfile).
  rewrite <- Hj2, <- Hj3 in Hjob1.
  apply (update_job_Ok_inv _ _ _ _ _ _ _ H) in Hjob1 as (Hjob' & Hfs & _).
  eexists job, _, video_filename. split_and!; [done|done|exact Hjob'|..].
  - rewrite lookup_insert_ne by done. by apply lookup_union_Some_l.
  - rewrite lookup_insert_ne by done.
    rewrite lookup_union_r by done.
    rewrite lookup_insert_ne by done.
    by rewrite lookup_union_r.
  - rewrite lookup_insert_ne by done. by apply lookup_union_Some_l.
  - by rewrite Hfs.
Qed.

(** X19.  Merge, then download: once the merge task has left the job
    [completed], the download endpoint answers with the dubbed video in
    the job's output directory, named after the uploaded file, and that
    file exists. *)
Theorem merged_video_downloadable C job_id now w :
  status_is job_id COMPLETED (run_video_merge C job_id now w).2 →
  ∃ job video_filename,
    w_jobs w !! job_id = Some job
    ∧ job !! "video_filename" = Some (VStr video_filename)
    ∧ let w' := (run_video_merge C job_id now w).2 in
      let output_path :=
        path_join (path_join OUTPUTS_DIR job_id)
                  (path_stem video_filename +:+ "_dubbed.mp4") in
      is_Some (w_fs w' !! output_path)
      ∧ download_video job_id w'
        = (Ok {| fr_path := output_path; fr_media_type := "video/mp4";
                 fr_filename := path_stem video_filename +:+ "_dubbed.mp4" |}, w').
Proof.
  intros Hdone.
  destruct (run_video_merge_completed C job_id now w Hdone)
    as (job & job' & video_filename & Hjob & Hname & Hjob' & Hstatus & Hname'
        & Hout & Hfile).
  exists job, video_filename. split_and!; [done..|].
  split; [done|].
  by apply (download_video_ready _ _ job'); [..|apply path_join_nonempty| |].
Qed.

Lemma merged_video_downloadable_witness :
  let w0 := World {[ "job-1" := <["voiceover_path" := VStr "b.wav"]>
                                   (new_job "job-1" "movie.mp4" "a.wav" 100) ]}
                  demo_fs [] in
  let w' := (run_video_merge demo_C "job-1" 200 w0).2 in
  download_video "job-1" w'
  = (Ok {| fr_path := "storage/outputs/job-1/movie_dubbed.mp4";
           fr_media_type := "video/mp4"; fr_filename := "movie_dubbed.mp4" |}, w').
Proof.
  intros w0 w'.
  destruct (merged_video_downloadable demo_C "job-1" 200 w0)
    as (job & video_filename & Hjob & Hname & _ & Hdl).
  - eexists. split; reflexivity.
  - injection Hjob as <-. injection Hname as <-. exact Hdl.
Defined.

(** ** The transcript: from the task to the endpoints *)

Lemma extract_audio_Ok_inv C video_path output_path w p w' :
  extract_audio C video_path output_path w = (Ok p, w') →
  p = output_path ∧ w_jobs w' = w_jobs w.
Proof.
  unfold extract_audio. intros H.
  apply bind_Ok_inv in H as ([] & w1 & Hmk & H).
  apply mkdir_Ok_inv in Hmk as (Hj1 & _ & _).
  apply bind_Ok_inv in H as ([data sr] & w2 & Hread & H).
  unfold with_file in Hread. destruct (w_fs w1 !! video_path); [|done].
  injection Hread as _ <-.
  apply bind_Ok_inv in H as ([] & w3 & Hwr & H).
  unfold write_file in Hwr. injection Hwr as <-.
  by injection H as <- <-.
Qed.

Lemma transcribe_Ok_inv C audio_path language w text segments detected w' :
  transcribe C audio_path language w = (Ok (text, segments, detected), w') →
  w' = w
  ∧ text = join " " (ts_text <$> segments)
  ∧ ∃ raw, segments = format_segments 0 raw.
Proof.
  unfold transcribe. intros H.
  apply bind_Ok_inv in H as ([raw info] & w1 & Hread & H).
  unfold with_file in Hread. destruct (w_fs w !! audio_path); [|done].
  injection Hread as _ <-. injection H as <- <- _ <-.
  split_and!; [done..|by exists raw].
Qed.

#[global] Instance keeps_absent_preorder job_id : PreOrder (keeps_absent job_id).
Proof.
  split.
  - by intros w Hw.
  - intros w1 w2 w3 H12 H23 Hw. by apply H23, H12.
Qed.

Lemma files_keep_absent job_id w fs tasks :
  keeps_absent job_id w (World (w_jobs w) fs tasks).
Proof. intros Hw. exact Hw. Qed.

Lemma update_job_keeps_absent job_id kwargs now :
  respects (keeps_absent job_id) (update_job job_id kwargs now).
Proof. intros w Hw. by rewrite (update_job_unknown _ _ _ _ Hw). Qed.

Lemma run_transcription_keeps_absent C job_id video_path language now :
  respects (keeps_absent job_id)
    (run_transcription C job_id video_path language now).
Proof.
  unfold run_transcription, extract_audio, transcribe.
  repeat lazymatch goal with
    | |- respects _ (update_job _ _ _) => apply update_job_keeps_absent
    | |- _ => respects_step (keeps_absent job_id) (files_keep_absent job_id)
    end.
Qed.

(** What a transcription that ended with the status [transcribed] has
    stored and written. *)
Lemma run_transcription_transcribed C job_id video_path language now w :
  status_is job_id TRANSCRIBED (run_transcription C job_id video_path language now w).2 →
  ∃ job job' t raw,
    w_jobs w !! job_id = Some job
    ∧ w_jobs (run_transcription C job_id video_path language now w).2 !! job_id
      = Some job'
    ∧ job' !! "transcript" = Some (VTranscript t)
    ∧ (∀ k, k ∈ ["video_path"; "video_filename"] → job' !! k = job !! k)
    ∧ tr_segments t = format_segments 0 raw
    ∧ tr_full_text t = join " " (ts_text <$> tr_segments t)
    ∧ tr_srt t = segments_to_srt (tr_segments t)
    ∧ w_fs (run_transcription C job_id video_path language now w).2
        !! path_join (path_parent video_path) "transcript.srt"
      = Some (FText (tr_srt t)).
Proof.
  unfold run_transcription, try_except.
  match goal with |- context [match ?b w with _ => _ end] => set (body := b) end.
  destruct (body w) as [[[]|e] w'] eqn:Hbody; simpl;
    [|intros H; by apply failed_is_not in H].
  intros (job' & Hjob' & _). subst body.
  destruct (w_jobs w !! job_id) as [job|] eqn:Hjob.
  2:{ pose proof (run_transcription_keeps_absent C job_id video_path language now w
                    Hjob) as Habs.
      unfold run_transcription, try_except in Habs. rewrite Hbody in Habs.
      simpl in Habs. congruence. }
  apply bind_Ok_inv in Hbody as ([] & w1 & Hupd1 & H).
  apply (update_job_Ok_inv _ _ _ _ _ _ job) in Hupd1 as (Hjob1 & _ & _); [|done].
  apply bind_Ok_inv in H as ([] & w2 & Hvs & H).
  apply new_VideoService_Ok_inv in Hvs as ->.
  apply bind_Ok_inv in H as (p & w2 & Hex & H).
  apply extract_audio_Ok_inv in Hex as (-> & Hj2).
  rewrite <- Hj2 in Hjob1.
  apply bind_Ok_inv in H as ([] & w3 & Hupd3 & H).
  apply (update_job_Ok_inv _ _ _ _ _ _ _ Hupd3) in Hjob1 as (Hjob3 & _ & _).
  apply bind_Ok_inv in H as ([[text segments] detected] & w4 & Htr & H).
  apply transcribe_Ok_inv in Htr as (-> & -> & raw & Hraw).
  apply bind_Ok_inv in H as ([] & w4 & Hupd4 & H).
  apply (update_job_Ok_inv _ _ _ _ _ _ _ Hupd4) in Hjob3 as (Hjob4 & _ & _).
  apply bind_Ok_inv in H as ([] & w5 & Hwr & H).
  unfold write_file in Hwr. injection Hwr as <-.
  apply (update_job_Ok_inv _ _ _ _ _ _ _ H) in Hjob4 as (Hjob5 & Hfs & _).
  eexists job, _, _, raw. split_and!; [done|exact Hjob5|..].
  - rewrite updated_lookup by done. reflexivity.
  - intros k Hk.
    repeat (apply elem_of_cons in Hk as [->|Hk];
            [by rewrite !updated_lookup by done|]).
    by apply elem_of_nil in Hk.
  - exact Hraw.
  - reflexivity.
  - reflexivity.
  - rewrite Hfs. simpl. apply lookup_insert_eq.
Qed.

Lemma get_transcript_endpoint_stored job_id w job t :
  w_jobs w !! job_id = Some job →
  job !! "transcript" = Some (VTranscript t) →
  get_transcript_endpoint job_id w = (Ok t, w).
Proof.
  intros Hjob Ht. unfold get_transcript_endpoint, get_job, get_transcript.
  by rewrite io_bind_run, Hjob, Ht.
Qed.

Lemma download_srt_run job_id w job :
  w_jobs w !! job_id = Some job →
  download_srt job_id w
  = match get_transcript job with
    | None => (Raise (HTTPException 400), w)
    | Some _ =>
      match job !! "video_path" with
      | Some (VStr video_path) =>
        let srt_path := path_join (path_parent video_path) "transcript.srt" in
        if bool_decide (is_Some (w_fs w !! srt_path)) then
          match job !! "video_filename" with
          | Some (VStr video_filename) =>
            (Ok {| fr_path := srt_path; fr_media_type := "text/plain";
                   fr_filename := path_stem video_filename +:+ ".srt" |}, w)
          | Some _ => (Raise TypeError, w)
          | None => (Raise KeyError, w)
          end
        else (Raise (HTTPException 404), w)
      | Some _ => (Raise TypeError, w)
      | None => (Raise KeyError, w)
      end
    end.
Proof.
  intros Hjob. unfold download_srt, get_job, getitem.
  rewrite io_bind_run, Hjob. destruct (get_transcript job); [|done].
  rewrite !io_bind_run.
  destruct (job !! "video_path") as [[]|]; try done.
  cbn [mret io_ret as_str]. rewrite ?io_bind_run, path_exists_run.
  case_bool_decide; [|done]. cbn [negb].
  rewrite ?io_bind_run.
  by destruct (job !! "video_filename") as [[]|].
Qed.



(** ** Editing the transcript *)


(** X22.  An edit changes the job store only: no file is written, so the SRT
    download answers after the edit exactly as before it, with the file
    written by the transcription task. *)
Theorem update_transcript_keeps_srt_file job_id segments now w job t :
  w_jobs w !! job_id = Some job →
  get_transcript job = Some t →
  let w' := (update_transcript job_id segments now w).2 in
  w_fs w' = w_fs w
  ∧ w_tasks w' = w_tasks w
  ∧ (download_srt job_id w').1 = (download_srt job_id w).1.
Proof.
  intros Hjob Ht. unfold update_transcript, get_job.
  rewrite io_bind_run, Hjob, Ht, io_bind_run, (update_job_known _ _ _ _ _ Hjob).
  cbn [fst snd mret io_ret]. split_and!; [done..|].
  rewrite (download_srt_run _ _ job Hjob), Ht.
  erewrite download_srt_run by apply lookup_insert_eq.
  unfold get_transcript. rewrite !updated_lookup by done.
  change (kw_transcript _ !! "transcript") with (Some (VTranscript
    {| tr_language := tr_language t;
       tr_full_text := join " " (ts_text <$> segments);
       tr_segments := segments;
       tr_srt := segments_to_srt segments |})).
  change (kw_transcript ?x !! "video_path") with (@None value).
  change (kw_transcript ?x !! "video_filename") with (@None value).
  cbn [w_fs set_jobs].
  destruct (job !! "video_path") as [[]|]; try done.
  case_bool_decide; [|done].
  by destruct (job !! "video_filename") as [[]|].
Qed.


Lemma update_transcript_keeps_srt_file_witness :
  let w0 := (run_transcription demo_C "job-1" "storage/uploads/job-1/original.mp4"
               None 200 demo_world).2 in
  let w1 := (update_transcript "job-1" [bonjour] 300 w0).2 in
  w_fs w1 !! "storage/uploads/job-1/transcript.srt" = Some (FText "")
  ∧ get_transcript_endpoint "job-1" w1
    = (Ok {| tr_language := "en"; tr_full_text := "Bonjour"; tr_segments := [bonjour];
             tr_srt := segments_to_srt [bonjour] |}, w1).
Proof.
  intros w0 w1.
  edestruct (update_transcript_keeps_srt_file "job-1" [bonjour] 300 w0) as (H & _ & _);
    [reflexivity|reflexivity|].
  fold w1 in H. rewrite H. split; reflexivity.
Defined.

(** ** The fields of an SRT time *)

Lemma Qfloor_unique (x : Q) (z : Z) :
  (inject_Z z <= x)%Q → (x < inject_Z (z + 1))%Q → Qfloor x = z.
Proof.
  intros H1 H2.
  pose proof (Qfloor_le x) as H3. pose proof (Qlt_floor x) as H4.
  assert (z < Qfloor x + 1) by (rewrite Zlt_Qlt; lra).
  assert (Qfloor x < z + 1) by (rewrite Zlt_Qlt; lra).
  lia.
Qed.

Lemma Qfloor_bounds (x : Q) :
  (inject_Z (Qfloor x) <= x)%Q ∧ (x < inject_Z (Qfloor x) + 1)%Q.
Proof.
  split; [apply Qfloor_le|].
  pose proof (Qlt_floor x) as H. rewrite inject_Z_plus in H. exact H.
Qed.

Lemma Qfloor_div_pos (x : Q) (n : Z) :
  0 < n → Qfloor (x / inject_Z n) = Qfloor x `div` n.
Proof.
  intros Hn. apply Qfloor_unique.
  - destruct (Qfloor_bounds x) as [H1 H2].
    pose proof (Z.mul_div_le (Qfloor x) n Hn) as H3.
    rewrite Zle_Qle in H3. rewrite inject_Z_mult in H3.
    assert (0 < inject_Z n)%Q by (by apply inject_Z_pos).
    apply Qle_shift_div_l; [done|]. lra.
  - destruct (Qfloor_bounds x) as [H1 H2].
    assert (Hlt : Qfloor x + 1 ≤ n * (Qfloor x `div` n + 1)).
    { pose proof (Z.mod_pos_bound (Qfloor x) n Hn).
      pose proof (Z.div_mod (Qfloor x) n). lia. }
    rewrite Zle_Qle in Hlt. rewrite inject_Z_mult, !inject_Z_plus in Hlt.
    assert (0 < inject_Z n)%Q by (by apply inject_Z_pos).
    apply Qlt_shift_div_r; [done|]. rewrite inject_Z_plus.
    change (inject_Z 1) with 1%Q in *. lra.
Qed.

Lemma Qfloor_sub_Z (x : Q) (k : Z) : Qfloor (x - inject_Z k) = Qfloor x - k.
Proof.
  destruct (Qfloor_bounds x) as [H1 H2]. apply Qfloor_unique.
  - unfold Z.sub. rewrite inject_Z_plus, inject_Z_opp. lra.
  - replace (Qfloor x - k + 1) with (Qfloor x + 1 + - k) by lia.
    rewrite !inject_Z_plus, inject_Z_opp. change (inject_Z 1) with 1%Q. lra.
Qed.

Lemma py_mod_floor (x : Q) (n : Z) :
  0 < n →
  (0 <= py_mod x (inject_Z n))%Q
  ∧ Qfloor (py_mod x (inject_Z n)) = Qfloor x `mod` n.
Proof.
  intros Hn. unfold py_mod. rewrite (Qfloor_div_pos x n Hn).
  assert (Heq : (x - inject_Z n * inject_Z (Qfloor x `div` n)
                 == x - inject_Z (n * (Qfloor x `div` n)))%Q)
    by (rewrite inject_Z_mult; lra).
  split.
  - destruct (Qfloor_bounds x) as [H1 _].
    pose proof (Z.mul_div_le (Qfloor x) n Hn) as H3.
    rewrite Zle_Qle, inject_Z_mult in H3. lra.
  - rewrite Heq, Qfloor_sub_Z. rewrite Z.mod_eq by lia. reflexivity.
Qed.

Lemma srt_hours_eq (seconds : Q) : srt_hours seconds = Qfloor seconds `div` 3600.
Proof.
  unfold srt_hours, py_floordiv. rewrite py_int_inject_Z.
  by apply (Qfloor_div_pos seconds 3600).
Qed.

Lemma srt_minutes_eq (seconds : Q) :
  srt_minutes seconds = (Qfloor seconds `mod` 3600) `div` 60.
Proof.
  unfold srt_minutes, py_floordiv. rewrite py_int_inject_Z.
  rewrite (Qfloor_div_pos _ 60) by done.
  destruct (py_mod_floor seconds 3600) as [_ H]; [done|].
  change (inject_Z 3600) with 3600%Q in H. by rewrite H.
Qed.

Lemma srt_secs_eq (seconds : Q) : srt_secs seconds = Qfloor seconds `mod` 60.
Proof.
  unfold srt_secs. destruct (py_mod_floor seconds 60) as [Hpos Hfl]; [done|].
  change (inject_Z 60) with 60%Q in Hpos, Hfl. by rewrite py_int_floor.
Qed.

Lemma srt_millis_eq (seconds : Q) :
  srt_millis seconds
  = Qfloor ((seconds - inject_Z (Qfloor seconds)) * 1000)%Q
  ∧ 0 ≤ srt_millis seconds < 1000.
Proof.
  unfold srt_millis. destruct (Qfloor_bounds seconds) as [H1 H2].
  assert (Hdiv : Qfloor (seconds / 1) = Qfloor seconds).
  { change 1%Q with (inject_Z 1).
    rewrite (Qfloor_div_pos seconds 1) by done. apply Z.div_1_r. }
  assert (Heq : (py_mod seconds 1 * 1000
                 == (seconds - inject_Z (Qfloor seconds)) * 1000)%Q).
  { unfold py_mod. rewrite Hdiv. lra. }
  assert (Hpos : (0 <= py_mod seconds 1 * 1000)%Q) by (rewrite Heq; lra).
  rewrite py_int_floor by done. rewrite Heq. split; [done|].
  set (y := ((seconds - inject_Z (Qfloor seconds)) * 1000)%Q).
  destruct (Qfloor_bounds y) as [H3 H4].
  assert (Hy : (0 <= y < 1000)%Q) by (unfold y; split; lra).
  split.
  - assert (H : -1 < Qfloor y); [|lia].
    rewrite Zlt_Qlt. change (inject_Z (-1)) with (-1)%Q. lra.
  - rewrite Zlt_Qlt. change (inject_Z 1000) with 1000%Q. lra.
Qed.


(** ** Decimal rendering *)

Lemma digit_char_value (d : Z) :
  0 ≤ d < 10 → Z.of_nat (nat_of_ascii (digit_char d)) - 48 = d.
Proof.
  intros Hd. unfold digit_char. rewrite nat_ascii_embedding; lia.
Qed.

Lemma digits_value_app (a b : string) (v : Z) :
  digits_value (a +:+ b) v = digits_value b (digits_value a v).
Proof.
  revert v. induction a as [|c a IH]; intros v; [done|].
  rewrite str_app_cons. cbn [digits_value]. apply IH.
Qed.

Lemma digits_value_zeros (k : nat) : digits_value (zeros k) 0 = 0.
Proof. induction k as [|k IH]; [done|]. cbn [zeros digits_value]. exact IH. Qed.

(** The digits written in front of [acc] denote [n], and there are as many
    of them as [n] has decimal digits. *)
Lemma dec_digits_spec (fuel : nat) (n : Z) (acc : string) :
  0 ≤ n < 2 ^ Z.of_nat fuel →
  ∃ ds, dec_digits fuel n acc = ds +:+ acc
        ∧ (∀ v, digits_value ds v = v * 10 ^ Z.of_nat (String.length ds) + n)
        ∧ (0 < n → 10 ^ (Z.of_nat (String.length ds) - 1) ≤ n)
        ∧ n < 10 ^ Z.of_nat (String.length ds)
        ∧ (0 < fuel → 0 < String.length ds)%nat.
Proof.
  revert n acc. induction fuel as [|fuel IH]; intros n acc Hn.
  - exists "". split; [done|]. simpl in *. split_and!; [intros v|..]; lia.
  - cbn [dec_digits]. destruct (Z.ltb_spec n 10) as [Hlt|Hge].
    + exists (String (digit_char (n `mod` 10)) ""). split; [done|].
      rewrite Z.mod_small by lia. split_and!; [intros v|..].
      * cbn [digits_value String.length]. rewrite digit_char_value by lia. lia.
      * simpl. lia.
      * simpl. lia.
      * simpl. lia.
    + destruct (IH (n `div` 10) (String (digit_char (n `mod` 10)) acc))
        as (ds & -> & Hval & Hlo & Hhi & _).
      { rewrite Nat2Z.inj_succ, Z.pow_succ_r in Hn by lia.
        split; [apply Z.div_pos; lia|]. apply Z.div_lt_upper_bound; lia. }
      exists (ds +:+ String (digit_char (n `mod` 10)) "").
      rewrite str_app_assoc, str_app_cons.
      change ("" +:+ acc) with acc. split; [done|].
      rewrite str_length_app. cbn [String.length].
      replace (Z.of_nat (String.length ds + 1)) with (Z.succ (Z.of_nat (String.length ds)))
        by lia.
      rewrite Z.pow_succ_r by lia.
      pose proof (Z.div_mod n 10). pose proof (Z.mod_pos_bound n 10).
      split_and!; [intros v|..].
      * rewrite digits_value_app, Hval. cbn [digits_value].
        rewrite digit_char_value by lia. lia.
      * intros _. replace (Z.succ (Z.of_nat (String.length ds)) - 1)
          with (Z.succ (Z.of_nat (String.length ds) - 1)) by lia.
        assert (0 < n `div` 10) by (apply Z.div_str_pos; lia).
        destruct (String.length ds) as [|k] eqn:Hk.
        { simpl in Hhi. lia. }
        rewrite Z.pow_succ_r by lia. lia.
      * lia.
      * lia.
Qed.

Lemma str_of_nat_spec (n : Z) :
  0 ≤ n →
  (∀ v, digits_value (str_of_nat n) v
        = v * 10 ^ Z.of_nat (String.length (str_of_nat n)) + n)
  ∧ (0 < n → 10 ^ (Z.of_nat (String.length (str_of_nat n)) - 1) ≤ n)
  ∧ n < 10 ^ Z.of_nat (String.length (str_of_nat n))
  ∧ (0 < String.length (str_of_nat n))%nat.
Proof.
  intros Hn. unfold str_of_nat.
  destruct (dec_digits_spec (S (Z.to_nat (Z.log2 n))) n "") as (ds & Heq & H1 & H2 & H3 & H4).
  { split; [done|]. rewrite Nat2Z.inj_succ, Z2Nat.id by apply Z.log2_nonneg.
    destruct (decide (n = 0)) as [->|]; [done|]. apply Z.log2_spec. lia. }
  rewrite str_app_nil_r in Heq. rewrite Heq. split_and!; [done..|].
  apply H4. lia.
Qed.

Lemma zeros_length (k : nat) : String.length (zeros k) = k.
Proof. induction k as [|k IH]; [done|]. simpl. by rewrite IH. Qed.

Lemma str_of_nat_length_le (n : Z) (width : nat) :
  0 ≤ n < 10 ^ Z.of_nat width → (0 < width)%nat →
  (String.length (str_of_nat n) ≤ width)%nat.
Proof.
  intros Hn Hw. destruct (decide (n = 0)) as [->|Hne]; [simpl; lia|].
  destruct (str_of_nat_spec n) as (_ & Hlo & _ & _); [lia|].
  specialize (Hlo ltac:(lia)).
  destruct (decide (String.length (str_of_nat n) ≤ width)%nat) as [|Hgt]; [done|].
  exfalso.
  assert (10 ^ Z.of_nat width ≤ 10 ^ (Z.of_nat (String.length (str_of_nat n)) - 1))
    by (apply Z.pow_le_mono_r; lia).
  lia.
Qed.

Lemma format_0d_nonneg (width : nat) (n : Z) :
  0 ≤ n →
  format_0d width n
  = zeros (width - String.length (str_of_nat n)) +:+ str_of_nat n.
Proof. intros Hn. unfold format_0d. by destruct (Z.ltb_spec n 0); [lia|]. Qed.

(** Zero padding never loses a digit: read back as a decimal number, the
    rendering of [n >= 0] in any width gives [n]; it has exactly [width]
    characters when [n] has at most [width] digits and more otherwise. *)
Lemma format_0d_reads_back (width : nat) (n : Z) :
  0 ≤ n →
  digits_value (format_0d width n) 0 = n
  ∧ (n < 10 ^ Z.of_nat width → (0 < width)%nat →
     String.length (format_0d width n) = width)
  ∧ (10 ^ Z.of_nat width ≤ n →
     (width < String.length (format_0d width n))%nat).
Proof.
  intros Hn. rewrite format_0d_nonneg by done.
  destruct (str_of_nat_spec n Hn) as (Hval & Hlo & Hhi & Hlen).
  split_and!.
  - rewrite digits_value_app, digits_value_zeros, Hval. lia.
  - intros Hlt Hw. rewrite str_length_app, zeros_length.
    pose proof (str_of_nat_length_le n width ltac:(lia) Hw). lia.
  - intros Hge. rewrite str_length_app, zeros_length.
    destruct (decide (width < String.length (str_of_nat n))%nat) as [|Hle]; [lia|].
    exfalso.
    assert (10 ^ Z.of_nat (String.length (str_of_nat n)) ≤ 10 ^ Z.of_nat width)
      by (apply Z.pow_le_mono_r; lia).
    lia.
Qed.

Lemma format_0d_inj (width : nat) (i j : Z) :
  0 ≤ i → 0 ≤ j → format_0d width i = format_0d width j → i = j.
Proof.
  intros Hi Hj Heq.
  destruct (format_0d_reads_back width i Hi) as [<- _].
  destruct (format_0d_reads_back width j Hj) as [<- _].
  by rewrite Heq.
Qed.

Lemma str_app_inv_head (a b c : string) : a +:+ b = a +:+ c → b = c.
Proof.
  induction a as [|x a IH]; [done|]. rewrite !str_app_cons. intros [= H]. by apply IH.
Qed.

Lemma str_app_inv_tail (a b c : string) : a +:+ c = b +:+ c → a = b.
Proof.
  revert b. induction a as [|x a IH]; intros [|y b] Heq; [done|..].
  - apply (f_equal String.length) in Heq.
    rewrite !str_length_app in Heq. simpl in Heq. lia.
  - apply (f_equal String.length) in Heq.
    rewrite !str_length_app in Heq. simpl in Heq. lia.
  - rewrite !str_app_cons in Heq. injection Heq as -> Heq. f_equal. by apply IH.
Qed.

(** Two segments never share an audio file: the file name of a segment
    determines its index. *)
Lemma segment_file_inj (dir : string) (i j : Z) :
  0 ≤ i → 0 ≤ j → segment_file dir i = segment_file dir j → i = j.
Proof.
  intros Hi Hj. unfold segment_file, path_join.
  intros H%str_app_inv_head%str_app_inv_head%str_app_inv_head%str_app_inv_tail.
  by apply (format_0d_inj 4).
Qed.

(** ** The files of the synthesized segments *)

Lemma synthesize_one_files C lang dir voice speed acc i seg w :
  strip (ts_text seg) ≠ "" →
  dir_free (w_fs w) dir →
  ∃ w', synthesize_one C lang dir voice speed acc i seg (strip (ts_text seg)) w
        = (Ok (acc ++ option_list (synthesized C lang dir voice speed (i, seg))), w')
        ∧ dir_free (w_fs w') dir
        ∧ (∀ p, p ≠ segment_file dir i → p ≠ dir → w_fs w' !! p = w_fs w !! p)
        ∧ (∀ entry, synthesized C lang dir voice speed (i, seg) = Some entry →
                    audio_written C lang voice speed (w_fs w') entry).
Proof.
  intros Htext Hdir. unfold synthesize_one, generate_to_file, synthesized.
  rewrite decide_False by done. io_unfold.
  destruct (generate C lang (strip (ts_text seg)) voice speed) as [[audio sr]|e] eqn:Hgen;
    simpl.
  - rewrite path_parent_segment_file. unfold mkdir.
    destruct Hdir as [Hdir|Hdir]; rewrite Hdir; simpl.
    + eexists. split; [reflexivity|]. simpl. split_and!.
      * right. rewrite lookup_insert_ne by apply path_join_ne. apply lookup_insert_eq.
      * intros p Hp Hp'. by rewrite !lookup_insert_ne.
      * intros entry [= <-]. exists (segment_file dir i), audio, sr. simpl.
        split_and!; [done|apply path_join_nonempty|done|apply lookup_insert_eq].
    + eexists. split; [reflexivity|]. simpl. split_and!.
      * right. by rewrite lookup_insert_ne by apply path_join_ne.
      * intros p Hp Hp'. by rewrite lookup_insert_ne.
      * intros entry [= <-]. exists (segment_file dir i), audio, sr. simpl.
        split_and!; [done|apply path_join_nonempty|done|apply lookup_insert_eq].
  - eexists. split; [by rewrite app_nil_r|]. split_and!; [done..|]. by intros entry [=].
Qed.

Lemma audio_written_keep C lang voice speed fs fs' dir j k s :
  0 ≤ j < k →
  ss_audio_path s = Some (segment_file dir j) →
  (∀ p, p ≠ segment_file dir k → p ≠ dir → fs' !! p = fs !! p) →
  audio_written C lang voice speed fs s →
  audio_written C lang voice speed fs' s.
Proof.
  intros Hj Hpath Hfs (path & audio & sr & Hpath' & Hne & Hgen & Hfile).
  exists path, audio, sr. split_and!; [done..|].
  rewrite Hpath in Hpath'. injection Hpath' as <-.
  rewrite Hfs; [done| |apply path_join_ne].
  intros Heq%segment_file_inj; lia.
Qed.

(** A loop over [enumerate(segments)] whose body behaves like one guarded
    synthesis. *)
Lemma synthesis_loop_files C lang dir voice speed
    (body : list SynthSegment → Z * TranscriptSegment → io (list SynthSegment)) :
  (∀ acc i seg w, dir_free (w_fs w) dir →
     ∃ w', body acc (i, seg) w
           = (Ok (acc ++ option_list (synthesized C lang dir voice speed (i, seg))), w')
           ∧ dir_free (w_fs w') dir
           ∧ (∀ p, p ≠ segment_file dir i → p ≠ dir → w_fs w' !! p = w_fs w !! p)
           ∧ (∀ entry, synthesized C lang dir voice speed (i, seg) = Some entry →
                       audio_written C lang voice speed (w_fs w') entry)) →
  ∀ segs k acc w,
    0 ≤ k → dir_free (w_fs w) dir →
    Forall (λ s, audio_written C lang voice speed (w_fs w) s
                 ∧ ∃ j, 0 ≤ j < k ∧ ss_audio_path s = Some (segment_file dir j)) acc →
    NoDup (ss_audio_path <$> acc) →
    ∃ generated w',
      for_each body (enumerate k segs) acc w = (Ok generated, w')
      ∧ generated = acc ++ omap (synthesized C lang dir voice speed) (enumerate k segs)
      ∧ Forall (audio_written C lang voice speed (w_fs w')) generated
      ∧ NoDup (ss_audio_path <$> generated).
Proof.
  intros Hbody segs. induction segs as [|seg segs IH]; intros k acc w Hk Hdir Hacc Hnd.
  - exists acc, w. simpl. rewrite app_nil_r. split_and!; [done..| |done].
    eapply Forall_impl; [exact Hacc|]. by intros s [H _].
  - cbn [enumerate for_each]. rewrite io_bind_run.
    destruct (Hbody acc k seg w Hdir) as (w1 & -> & Hdir1 & Hfs & Hnew).
    destruct (IH (k + 1)
                (acc ++ option_list (synthesized C lang dir voice speed (k, seg))) w1)
      as (generated & w' & Hrun & -> & Hall & Hnd'); [lia|done|..].
    + apply Forall_app. split.
      * eapply Forall_impl; [exact Hacc|]. intros s (Hs & j & Hj & Hpath). split.
        -- by eapply audio_written_keep.
        -- exists j. split; [lia|done].
      * destruct (synthesized C lang dir voice speed (k, seg)) as [entry|] eqn:Hentry;
          [|constructor].
        apply Forall_singleton. split; [by apply Hnew|].
        exists k. split; [lia|].
        by apply synthesized_Some in Hentry as [-> _].
    + rewrite fmap_app. apply NoDup_app. split_and!; [done| |].
      * intros p Hp Hp'.
        destruct (synthesized C lang dir voice speed (k, seg)) as [entry|] eqn:Hentry;
          [|by apply elem_of_nil in Hp'].
        apply list_elem_of_singleton in Hp'. subst p.
        apply synthesized_Some in Hentry as [-> _]. simpl in Hp.
        apply list_elem_of_fmap in Hp as (s & Hs & Hin).
        rewrite Forall_forall in Hacc.
        destruct (Hacc s Hin) as (_ & j & Hj & Hpath).
        rewrite Hpath in Hs. injection Hs as Hs%segment_file_inj; lia.
      * destruct (synthesized C lang dir voice speed (k, seg)); simpl;
          [apply NoDup_singleton|constructor].
    + exists (acc ++ omap (synthesized C lang dir voice speed) (enumerate k (seg :: segs))),
        w'.
      cbn [enumerate]. rewrite omap_option_list, app_assoc.
      by split_and!.
Qed.

Lemma voice_loop_body_files C job_id lang_code voice speed dir total now acc i seg w :
  dir_free (w_fs w) dir →
  ∃ w', voice_loop_body C job_id lang_code voice speed dir total now acc (i, seg) w
        = (Ok (acc ++ option_list
                 (synthesized C (LANG_MAP lang_code) dir voice speed (i, seg))), w')
        ∧ dir_free (w_fs w') dir
        ∧ (∀ p, p ≠ segment_file dir i → p ≠ dir → w_fs w' !! p = w_fs w !! p)
        ∧ (∀ entry,
             synthesized C (LANG_MAP lang_code) dir voice speed (i, seg) = Some entry →
             audio_written C (LANG_MAP lang_code) voice speed (w_fs w') entry).
Proof.
  intros Hdir. unfold voice_loop_body.
  destruct (update_job_total job_id (kw_segment i total) now w) as [jobs Hupd].
  rewrite io_bind_run, Hupd.
  destruct (decide (strip (ts_text seg) = "")) as [Hempty|Htext].
  - eexists. split_and!.
    + unfold synthesized. rewrite decide_True by done. simpl.
      rewrite app_nil_r. reflexivity.
    + exact Hdir.
    + done.
    + unfold synthesized. rewrite decide_True by done. by intros entry [=].
  - rewrite io_bind_run. unfold mkdir. simpl.
    destruct Hdir as [Hdir|Hdir]; rewrite Hdir.
    + edestruct (synthesize_one_files C (LANG_MAP lang_code) dir voice speed
                   acc i seg) as (w' & -> & Hdir' & Hfs & Hnew); [done| |].
      { right. simpl. apply lookup_insert_eq. }
      eexists. split_and!; [done|done| |done].
      intros p Hp Hp'. rewrite Hfs by done. simpl. by rewrite lookup_insert_ne.
    + edestruct (synthesize_one_files C (LANG_MAP lang_code) dir voice speed
                   acc i seg) as (w' & -> & Hdir' & Hfs & Hnew); [done| |].
      { right. simpl. done. }
      eexists. split_and!; [done|done| |done].
      intros p Hp Hp'. by rewrite Hfs.
Qed.

Lemma generate_segments_body_files C lang dir voice speed acc i seg w :
  dir_free (w_fs w) dir →
  ∃ w', (let text := strip (ts_text seg) in
         if decide (text = "") then mret acc
         else synthesize_one C lang dir voice speed acc i seg text) w
        = (Ok (acc ++ option_list (synthesized C lang dir voice speed (i, seg))), w')
        ∧ dir_free (w_fs w') dir
        ∧ (∀ p, p ≠ segment_file dir i → p ≠ dir → w_fs w' !! p = w_fs w !! p)
        ∧ (∀ entry, synthesized C lang dir voice speed (i, seg) = Some entry →
                    audio_written C lang voice speed (w_fs w') entry).
Proof.
  intros Hdir. cbn zeta.
  destruct (decide (strip (ts_text seg) = "")) as [Hempty|Htext].
  - eexists. split_and!.
    + unfold synthesized. rewrite decide_True by done. simpl.
      rewrite app_nil_r. reflexivity.
    + exact Hdir.
    + done.
    + unfold synthesized. rewrite decide_True by done. by intros entry [=].
  - by apply synthesize_one_files.
Qed.

(** X24.  Every entry of the result names a file of its own, and after the loop
    that file holds the audio synthesized from the entry's text: in the
    loop of the voice-generation task and in the driver of the TTS service
    alike, no two entries share a file and no entry's file is missing or
    overwritten by a later segment. *)
Theorem synthesized_files_written C job_id segments lang_code voice speed dir now w :
  dir_free (w_fs w) dir →
  let lang := LANG_MAP lang_code in
  (∃ generated w',
     voice_loop C job_id segments lang_code voice speed dir now w = (Ok generated, w')
     ∧ Forall (audio_written C lang voice speed (w_fs w')) generated
     ∧ NoDup (ss_audio_path <$> generated))
  ∧ (∃ generated w',
       generate_segments C lang segments dir voice speed w = (Ok generated, w')
       ∧ Forall (audio_written C lang voice speed (w_fs w')) generated
       ∧ NoDup (ss_audio_path <$> generated)).
Proof.
  intros Hdir lang. split.
  - unfold voice_loop.
    destruct (synthesis_loop_files C lang dir voice speed
                (voice_loop_body C job_id lang_code voice speed dir (len segments) now)
                (λ acc i seg w, voice_loop_body_files C job_id lang_code voice speed
                                  dir (len segments) now acc i seg w)
                segments 0 [] w)
      as (generated & w' & Hrun & _ & Hall & Hnd); [done|done|constructor|constructor|].
    by exists generated, w'.
  - unfold generate_segments. rewrite io_bind_run.
    assert (Hmk : ∃ w1, mkdir dir w = (Ok (), w1) ∧ dir_free (w_fs w1) dir).
    { unfold mkdir. destruct Hdir as [Hdir|Hdir]; rewrite Hdir.
      - eexists. split; [done|]. right. simpl. apply lookup_insert_eq.
      - eexists. split; [done|]. by right. }
    destruct Hmk as (w1 & -> & Hdir1).
    destruct (synthesis_loop_files C lang dir voice speed
                (λ results '(i, seg),
                   let text := strip (ts_text seg) in
                   if decide (text = "") then mret results
                   else synthesize_one C lang dir voice speed results i seg text)
                (λ acc i seg w, generate_segments_body_files C lang dir voice speed
                                  acc i seg w)
                segments 0 [] w1)
      as (generated & w' & Hrun & _ & Hall & Hnd); [done|done|constructor|constructor|].
    by exists generated, w'.
Qed.

Lemma synthesized_files_written_witness :
  ∃ generated w',
    generate_segments demo_C "en-us" demo_segments "storage/uploads/job-1/segments"
      "af_heart" 1 demo_world = (Ok generated, w')
    ∧ NoDup (ss_audio_path <$> generated).
Proof.
  destruct (synthesized_files_written demo_C "job-1" demo_segments "a" "af_heart" 1
              "storage/uploads/job-1/segments" 200 demo_world)
    as [_ (generated & w' & Hrun & _ & Hnd)]; [left; reflexivity|].
  exists generated, w'. split; [exact Hrun|exact Hnd].
Defined.

(** X25.  Below one hundred hours a time stamp has exactly the twelve characters
    of [HH:MM:SS,mmm]; from one hundred hours on the hours field grows and
    the stamp is longer. *)
Theorem srt_time_width (seconds : Q) :
  (0 <= seconds)%Q →
  if Qlt_le_dec seconds 360000
  then String.length (seconds_to_srt_time seconds) = 12%nat
  else (12 < String.length (seconds_to_srt_time seconds))%nat.
Proof.
  intros Hpos.
  destruct (srt_millis_eq seconds) as [_ Hms].
  pose proof (srt_hours_eq seconds) as Hh.
  pose proof (srt_minutes_eq seconds) as Hm.
  pose proof (srt_secs_eq seconds) as Hs.
  destruct (Qfloor_bounds seconds) as [HF1 HF2].
  assert (HF0 : 0 ≤ Qfloor seconds).
  { change 0 with (Qfloor 0). by apply Qfloor_resp_le. }
  unfold seconds_to_srt_time.
  fold (srt_hours seconds) (srt_minutes seconds) (srt_secs seconds)
       (srt_millis seconds).
  set (F := Qfloor seconds) in *. clearbody F.
  assert (Hm0 : 0 ≤ (F `mod` 3600) `div` 60 < 60).
  { pose proof (Z.mod_pos_bound F 3600 ltac:(lia)).
    split; [apply Z.div_pos; lia|apply Z.div_lt_upper_bound; lia]. }
  pose proof (Z.mod_pos_bound F 60 ltac:(lia)) as Hs0.
  assert (Hm' : 0 ≤ srt_minutes seconds < 10 ^ Z.of_nat 2)
    by (change (10 ^ Z.of_nat 2) with 100; lia).
  assert (Hs' : 0 ≤ srt_secs seconds < 10 ^ Z.of_nat 2)
    by (change (10 ^ Z.of_nat 2) with 100; lia).
  assert (Hms' : 0 ≤ srt_millis seconds < 10 ^ Z.of_nat 3)
    by (change (10 ^ Z.of_nat 3) with 1000; lia).
  change (10 ^ Z.of_nat 2) with 100 in *. change (10 ^ Z.of_nat 3) with 1000 in *.
  destruct (format_0d_reads_back 2 (srt_minutes seconds)) as (_ & Lm & _); [lia|].
  destruct (format_0d_reads_back 2 (srt_secs seconds)) as (_ & Ls & _); [lia|].
  destruct (format_0d_reads_back 3 (srt_millis seconds)) as (_ & Lms & _); [lia|].
  assert (Hh0 : 0 ≤ srt_hours seconds) by (rewrite Hh; apply Z.div_pos; lia).
  destruct (format_0d_reads_back 2 (srt_hours seconds) Hh0) as (_ & Lh & Lh').
  rewrite !str_length_app, Lm, Ls, Lms by lia. cbn [String.length].
  destruct (Qlt_le_dec seconds 360000) as [Hlt|Hge].
  - assert (F < 360000).
    { rewrite Zlt_Qlt. change (inject_Z 360000) with 360000%Q. lra. }
    assert (srt_hours seconds < 100)
      by (rewrite Hh; apply Z.div_lt_upper_bound; lia).
    rewrite Lh; lia.
  - assert (360000 ≤ F).
    2:{ assert (100 ≤ srt_hours seconds)
          by (rewrite Hh; apply Z.div_le_lower_bound; lia).
        specialize (Lh' ltac:(lia)). lia. }
    assert (F + 1 > 360000); [|lia].
    apply Z.lt_gt. rewrite Zlt_Qlt, inject_Z_plus.
    change (inject_Z 360000) with 360000%Q. change (inject_Z 1) with 1%Q. lra.
Qed.

Lemma srt_time_width_witness :
  String.length (seconds_to_srt_time (7265 # 2)) = 12%nat.
Proof.
  pose proof (srt_time_width (7265 # 2)) as H.
  destruct (Qlt_le_dec (7265 # 2) 360000) as [_|Hge].
  - apply H. discriminate.
  - exfalso. apply Hge. reflexivity.
Defined.

(** ** Downloading the dubbed video *)

(** X26.  The download endpoint only ever answers with a file that exists, for a
    job that is [completed], and it changes nothing. *)
Theorem download_video_only_ready job_id w resp w' :
  download_video job_id w = (Ok resp, w') →
  w' = w
  ∧ status_is job_id COMPLETED w
  ∧ is_Some (w_fs w !! fr_path resp)
  ∧ ∃ job, w_jobs w !! job_id = Some job
           ∧ job !! "output_path" = Some (VStr (fr_path resp)).
Proof.
  unfold download_video. intros H.
  apply bind_Ok_inv in H as (job & w0 & Hjob & H).
  apply get_job_Ok_inv in Hjob as [Hjob ->].
  apply bind_Ok_inv in H as (status & w0 & Hstatus & H).
  apply getitem_Ok_inv in Hstatus as [Hstatus ->].
  destruct status as [| | |s| | |]; try done. cbn [status_in] in H.
  case_bool_decide as Hs; [|done]. cbn [negb] in H.
  apply list_elem_of_singleton in Hs as ->.
  destruct (job !! "output_path") as [[|[|c rest]| | | | |]|] eqn:Hout; try done.
  apply bind_Ok_inv in H as (found & w0 & Hfound & H).
  rewrite path_exists_run in Hfound. injection Hfound as <- <-.
  case_bool_decide as Hfile; [|done]. cbn [negb] in H.
  apply bind_Ok_inv in H as (video_filename & w0 & Hname & H).
  apply getitem_str_Ok_inv in Hname as [Hname ->].
  injection H as <- <-. simpl.
  split_and!; [done|by exists job|done|by exists job].
Qed.

Lemma download_video_only_ready_witness :
  let w0 := World {[ "job-1" := <["voiceover_path" := VStr "b.wav"]>
                                   (new_job "job-1" "movie.mp4" "a.wav" 100) ]}
                  demo_fs [] in
  let w1 := (run_video_merge demo_C "job-1" 200 w0).2 in
  status_is "job-1" COMPLETED w1
  ∧ is_Some (w_fs w1 !! "storage/outputs/job-1/movie_dubbed.mp4").
Proof.
  intros w0 w1.
  destruct (download_video_only_ready "job-1" w1
              {| fr_path := "storage/outputs/job-1/movie_dubbed.mp4";
                 fr_media_type := "video/mp4"; fr_filename := "movie_dubbed.mp4" |} w1)
    as (_ & Hstatus & Hfile & _); [reflexivity|].
  split; [exact Hstatus|exact Hfile].
Defined.

(** ** The transcription service *)

Lemma lstrip_head (s : string) :
  match lstrip s with
  | EmptyString => True
  | String c _ => is_space c = false
  end.
Proof.
  induction s as [|c s IH]; [done|]. cbn [lstrip].
  destruct (is_space c) eqn:Hc; [done|]. exact Hc.
Qed.

Lemma rstrip_head (c : ascii) (s : string) :
  is_space c = false → ∃ r, rstrip (String c s) = String c r.
Proof.
  intros Hc. cbn [rstrip]. destruct (rstrip s); [|by eexists].
  rewrite Hc. by eexists.
Qed.

Lemma rstrip_idemp (s : string) : rstrip (rstrip s) = rstrip s.
Proof.
  induction s as [|c s IH]; [done|]. cbn [rstrip].
  destruct (rstrip s) as [|d r] eqn:Hr.
  - destruct (is_space c) eqn:Hc; [done|]. cbn [rstrip]. by rewrite Hc.
  - cbn [rstrip]. cbn [rstrip] in IH.
    destruct (rstrip r) as [|e r'] eqn:Hr'.
    + destruct (is_space d); [done|]. by injection IH as ->.
    + by rewrite IH.
Qed.

Lemma strip_idemp (s : string) : strip (strip s) = strip s.
Proof.
  unfold strip. pose proof (lstrip_head s) as Hhead.
  destruct (lstrip s) as [|c u]; [done|].
  destruct (rstrip_head c u Hhead) as [r Hr]. rewrite Hr.
  cbn [lstrip]. rewrite Hhead, <- Hr. apply rstrip_idemp.
Qed.

Lemma format_segments_spec (k : Z) (raw : list (Q * Q * string)) :
  length (format_segments k raw) = length raw
  ∧ ts_id <$> format_segments k raw = seqZ k (len raw)
  ∧ Forall (λ s, strip (ts_text s) = ts_text s) (format_segments k raw)
  ∧ (λ s, (ts_start s, ts_end s)) <$> format_segments k raw = fst <$> raw.
Proof.
  revert k. induction raw as [|[[s e] t] raw IH]; intros k; [done|].
  destruct (IH (k + 1)) as (H1 & H2 & H3 & H4). cbn [format_segments].
  split_and!.
  - simpl. by rewrite H1.
  - cbn [fmap list_fmap ts_id]. fold (fmap (M := list) ts_id). rewrite H2.
    unfold len. simpl length. rewrite Nat2Z.inj_succ.
    rewrite (seqZ_cons k) by lia. f_equal. f_equal. lia.
  - constructor; [apply strip_idemp|done].
  - simpl. f_equal. exact H4.
Qed.

(** X27.  What the transcription service returns: the segments are numbered by
    position from 0 and keep the engine's times in order, every text is
    stripped (stripping it again changes nothing), the full text is the
    texts joined by single spaces, the language is never empty, and the
    process state is untouched. *)
Theorem transcribe_result C audio_path language w text segments detected w' :
  transcribe C audio_path language w = (Ok (text, segments, detected), w') →
  w' = w
  ∧ ts_id <$> segments = seqZ 0 (len segments)
  ∧ Forall (λ s, strip (ts_text s) = ts_text s) segments
  ∧ text = join " " (ts_text <$> segments)
  ∧ detected ≠ ""
  ∧ ∃ f raw info,
      w_fs w !! audio_path = Some f
      ∧ whisper_transcribe C f language = Ok (raw, info)
      ∧ (λ s, (ts_start s, ts_end s)) <$> segments = fst <$> raw.
Proof.
  unfold transcribe. intros H.
  apply bind_Ok_inv in H as ([raw info] & w1 & Hread & H).
  unfold with_file in Hread.
  destruct (w_fs w !! audio_path) as [f|] eqn:Hf; [|done].
  injection Hread as Hraw <-. injection H as <- <- <- <-.
  destruct (format_segments_spec 0 raw) as (H1 & H2 & H3 & H4).
  split_and!; [done| |done|done| |].
  - unfold len. by rewrite H1.
  - destruct info as [l|]; [|done]. by case_decide.
  - by exists f, raw, info.
Qed.

Lemma transcribe_result_witness :
  let C := {| ffmpeg_available := true;
              ffmpeg_extract_audio := ffmpeg_extract_audio demo_C;
              ffmpeg_probe_duration := ffmpeg_probe_duration demo_C;
              ffmpeg_replace_audio := ffmpeg_replace_audio demo_C;
              whisper_transcribe := λ _ _,
                Ok ([(0, 1, " Hello "); (1, 5 # 2, "world ")]%Q, Some "fr");
              kokoro_create := kokoro_create demo_C |} in
  let segments :=
    [ {| ts_id := 0; ts_start := 0; ts_end := 1; ts_text := "Hello" |};
      {| ts_id := 1; ts_start := 1; ts_end := 5 # 2; ts_text := "world" |} ] in
  (transcribe C "a.wav" None (World ∅ demo_fs [])).1 = Ok ("Hello world", segments, "fr")
  ∧ ts_id <$> segments = seqZ 0 (len segments)
  ∧ Forall (λ s, strip (ts_text s) = ts_text s) segments.
Proof.
  intros C segments.
  assert (Hrun : transcribe C "a.wav" None (World ∅ demo_fs [])
                 = (Ok ("Hello world", segments, "fr"), World ∅ demo_fs []))
    by reflexivity.
  destruct (transcribe_result C "a.wav" None _ _ _ _ _ Hrun) as (_ & Hids & Htext & _).
  rewrite Hrun. split_and!; [reflexivity|exact Hids|exact Htext].
Defined.

(** ** From one stage to the next *)

(** X28.  Transcribe, then request the voice: once the transcription task has
    left the job [transcribed], a voice-generation request for it is
    accepted, and the task it queues carries the segments of the stored
    transcript. *)
Theorem transcribed_enables_voice C job_id video_path language now w request now' :
  let w' := (run_transcription C job_id video_path language now w).2 in
  status_is job_id TRANSCRIBED w' →
  ∃ t,
    get_transcript_endpoint job_id w' = (Ok t, w')
    ∧ (generate_voice job_id request now' w').1
      = Ok {| sr_message := "Voice generation started"; sr_job_id := job_id |}
    ∧ w_tasks (generate_voice job_id request now' w').2
      = w_tasks w' ++ [RunVoiceGeneration job_id (tr_segments t)
                         (language_code request) (voice request) (speed request)].
Proof.
  intros w' Hdone.
  destruct (run_transcription_transcribed C job_id video_path language now w Hdone)
    as (job & job' & t & raw & _ & Hjob' & Ht & _).
  fold w' in Hjob'.
  destruct Hdone as (job'' & Hjob'' & Hstatus).
  rewrite Hjob' in Hjob''. injection Hjob'' as <-.
  exists t. split; [by apply (get_transcript_endpoint_stored _ _ job')|].
  rewrite (generate_voice_legal _ _ _ _ _ _ Hjob' Hstatus).
  rewrite bool_decide_eq_true_2 by repeat constructor.
  unfold get_transcript. rewrite Ht. by split.
Qed.

Lemma transcribed_enables_voice_witness :
  let w' := (run_transcription demo_C "job-1" "storage/uploads/job-1/original.mp4"
               None 200 demo_world).2 in
  (generate_voice "job-1" {| language_code := "a"; voice := "af_heart"; speed := 1 |}
     300 w').1
  = Ok {| sr_message := "Voice generation started"; sr_job_id := "job-1" |}.
Proof.
  intros w'.
  destruct (transcribed_enables_voice demo_C "job-1"
              "storage/uploads/job-1/original.mp4" None 200 demo_world
              {| language_code := "a"; voice := "af_heart"; speed := 1 |} 300)
    as (t & _ & H & _).
  - eexists. split; reflexivity.
  - exact H.
Defined.

Lemma voice_assemble_Ok_inv C job_id video_path job_dir generated now w out w' :
  voice_assemble C job_id video_path job_dir generated now w = (Ok out, w') →
  out = path_join job_dir "voiceover.wav" ∧ is_Some (w_fs w' !! out).
Proof.
  unfold voice_assemble, write_concatenated_audio. intros H.
  apply bind_Ok_inv in H as ([] & w1 & _ & H).
  apply bind_Ok_inv in H as ([] & w2 & _ & H).
  apply bind_Ok_inv in H as (duration & w3 & _ & H).
  apply bind_Ok_inv in H as ([] & w4 & _ & H).
  apply bind_Ok_inv in H as (output_audio & w5 & _ & H).
  apply bind_Ok_inv in H as ([] & w6 & Hwr & H).
  unfold write_file in Hwr. injection Hwr as <-. injection H as <- <-.
  split; [done|]. simpl. rewrite lookup_insert_eq. by eexists.
Qed.

Lemma voice_stage_Ok_inv C job_id segments lang_code voice speed now w generated out w' :
  voice_stage C job_id segments lang_code voice speed now w
  = (Ok (generated, out), w') →
  out ≠ "" ∧ is_Some (w_fs w' !! out).
Proof.
  unfold voice_stage. intros H.
  apply bind_Ok_inv in H as (job & w1 & _ & H).
  apply bind_Ok_inv in H as (video_path & w2 & _ & H).
  apply bind_Ok_inv in H as ([] & w3 & _ & H).
  apply bind_Ok_inv in H as (gen & w4 & _ & H).
  apply bind_Ok_inv in H as (output_audio & w5 & Hasm & H).
  injection H as <- <- <-.
  apply voice_assemble_Ok_inv in Hasm as [-> Hfile].
  split; [apply path_join_nonempty|done].
Qed.

(** X29.  Generate the voice, then request the merge: once the voice-generation
    task has left the job [voice_generated], the voice-over file it names
    exists and a merge request for the job is accepted. *)
Theorem voiced_enables_merge C job_id segments lang_code voice speed now w now' :
  let w' := (run_voice_generation C job_id segments lang_code voice speed now w).2 in
  status_is job_id VOICE_GENERATED w' →
  (∃ job voiceover_path,
     w_jobs w' !! job_id = Some job
     ∧ job !! "voiceover_path" = Some (VStr voiceover_path)
     ∧ is_Some (w_fs w' !! voiceover_path))
  ∧ (merge_video job_id now' w').1
    = Ok {| sr_message := "Video merge started"; sr_job_id := job_id |}.
Proof.
  intros w'. subst w'. unfold run_voice_generation, try_except.
  match goal with |- context [match ?b w with _ => _ end] => set (body := b) end.
  destruct (body w) as [[[]|e] w'] eqn:Hbody; simpl;
    [|intros H; by apply failed_is_not in H].
  subst body. apply bind_Ok_inv in Hbody as ([generated out] & w1 & Hstage & Hupd).
  apply voice_stage_Ok_inv in Hstage as [Hne Hfile].
  intros (job' & Hjob' & Hstatus).
  destruct (w_jobs w1 !! job_id) as [job1|] eqn:Hjob1.
  2:{ rewrite (update_job_unknown _ _ _ _ Hjob1) in Hupd. injection Hupd as <-.
      congruence. }
  apply (update_job_Ok_inv _ _ _ _ _ _ _ Hupd) in Hjob1 as (Hjob1 & Hfs & _).
  rewrite Hjob' in Hjob1. injection Hjob1 as ->.
  assert (Hpath : (<["updated_at" := VTime now]>
                     (kw_voice_generated out lang_code voice speed ∪ job1))
                  !! "voiceover_path" = Some (VStr out)).
  { rewrite updated_lookup by done. reflexivity. }
  split.
  - eexists _, out. split_and!; [done|done|by rewrite Hfs].
  - rewrite (merge_video_legal _ _ _ _ _ Hjob' Hstatus).
    rewrite bool_decide_eq_true_2 by done. rewrite Hpath.
    by destruct out.
Qed.

Lemma voiced_enables_merge_witness :
  let w' := (run_voice_generation demo_C "job-1" demo_segments "a" "af_heart" 1 200
               demo_world).2 in
  (merge_video "job-1" 300 w').1
  = Ok {| sr_message := "Video merge started"; sr_job_id := "job-1" |}.
Proof.
  intros w'.
  destruct (voiced_enables_merge demo_C "job-1" demo_segments "a" "af_heart" 1 200
              demo_world 300) as [_ H].
  - eexists. split; reflexivity.
  - exact H.
Defined.
